(** * StarSync: a shallow embedding of [app.py] and its verified properties

    The development follows the layout of the program:
    - [Py]          the few Python notions the program relies on
                    (exceptions, numbers, truthiness, string formatting);
    - [RatingEngine], [Classify]  [convert_to_plex_rating] and the
                    per-track decision;
    - [EventLog]    [add_log_entry], the ring [rating_log] and [listeners];
    - [Sweep]       [rate_tracks], [rate_new_tracks], [reset_ratings],
                    [load_music_libs] over a model of the Plex collaborator;
    - [Gate]        threads racing on [batch_lock];
    - [Scheduler]   [periodic_batch_trigger] and [start_batch_thread];
    - [Webhook]     [plex_webhook];
    - [Settings]    the POST branch of [settings];
    - [Env]         the [getenv_*] helpers;
    - [Auth]        [force_logout_on_restart], [check_auth],
                    [login_required], [login], [logout];
    - [SettingsFile]  [save_settings], [load_settings] and the settings
                    read at start-up;
    - [Libraries]   [get_music_libraries];
    - [Traffic], [Subscribers], [Upkeep]  what the sweep and the reset
                    send to the server, the queues of [listeners], and the
                    life of the periodic loop.

    Conventions.  A Python [float] is a number, an infinity or NaN
    ([pyfloat]); one that is a number is modelled by the rational it
    stands for ([Q]), an [int] by [Z]; where the program computes with
    floats and the rounding can show - the comparison of a rating with
    the target - the result is rounded as binary64 does ([round64]).  The
    target itself, [convert_to_plex_rating], is computed exactly: for
    the values the settings form accepts so is its float.
    Strings are modelled by [string]; [None] by [option] or by a
    constructor of [pyval].  Clock readings are inputs. *)

From Stdlib Require Import ZArith QArith Qminmax Qabs Qround Qpower.
From Stdlib Require Import Lia Lqa Bool.
From Stdlib Require Import String Ascii DecimalString.
From stdpp Require Import base list strings gmap.

Local Open Scope Z_scope.
Local Open Scope Q_scope.
Local Open Scope list_scope.

(* ===================================================================== *)
(** * Python notions                                                      *)
(* ===================================================================== *)

Module Py.

(** What a [raise] carries.  [except Exception] handles the first class
    only; [KeyboardInterrupt], [SystemExit] and the like derive from
    [BaseException] and pass through it. *)
Inductive exn : Type :=
| PyException (msg : string)
| PyBaseException (msg : string).

Definition exn_msg (e : exn) : string :=
  match e with PyException m => m | PyBaseException m => m end.

(** A computation that returns or raises. *)
Definition result (A : Type) : Type := (exn + A)%type.

Definition ret {A} (a : A) : result A := inr a.
Definition raise {A} (e : exn) : result A := inl e.
Definition bind {A B} (m : result A) (k : A -> result B) : result B :=
  match m with inl e => inl e | inr a => k a end.

(** A Python [float]: a number, an infinity or NaN. *)
Inductive pyfloat : Type :=
| Finite (q : Q)
| Infinity (negative : bool)
| NaN.

(** The dynamically typed values that reach the rating code: the target
    value is a [float] or an [int] when it comes from the settings form
    or the environment, [None] when the environment variable is unset,
    and may be text when it comes from a hand-edited settings file.  The
    style is text or [None].  [PNum] is a float that is a number, [PInf]
    and [PNaN] are the other floats, [PInt] is an [int] ([True] and
    [False] count as 1 and 0). *)
Inductive pyval : Type :=
| PNone
| PNum (q : Q)
| PStr (s : string)
| PInt (n : Z)
| PInf (negative : bool)
| PNaN.

Definition of_float (x : pyfloat) : pyval :=
  match x with
  | Finite q => PNum q
  | Infinity negative => PInf negative
  | NaN => PNaN
  end.

Definition type_error {A} : result A :=
  raise (PyException "TypeError").

Definition Qltb (a b : Q) : bool := negb (Qle_bool b a).

(** [x < q] and [x > q] for a float [x] and a number [q]: a comparison
    with NaN is false. *)
Definition float_lt (x : pyfloat) (q : Q) : bool :=
  match x with
  | Finite a => Qltb a q
  | Infinity negative => negative
  | NaN => false
  end.

Definition float_gt (x : pyfloat) (q : Q) : bool :=
  match x with
  | Finite a => Qltb q a
  | Infinity negative => negb negative
  | NaN => false
  end.

(** [v == s] for a string literal [s]: never raises. *)
Definition eq_str (v : pyval) (s : string) : bool :=
  match v with PStr t => bool_decide (t = s) | _ => false end.

(** [v >= n] for a number [n]: an [int] is compared by its value, NaN is
    not above anything. *)
Definition ge_num (v : pyval) (n : Q) : result bool :=
  match v with
  | PNum q => ret (Qle_bool n q)
  | PInt k => ret (Qle_bool n (inject_Z k))
  | PInf negative => ret (negb negative)
  | PNaN => ret false
  | _ => type_error
  end.

(** An [int] is turned into a float before it is divided by one; those
    from [2^1024 - 2^970] on, in absolute value, are beyond the floats
    and the conversion raises [OverflowError]. *)
Definition float_limit : Z := (2 ^ 1024 - 2 ^ 970)%Z.

Definition too_large (n : Z) : bool := (float_limit <=? Z.abs n)%Z.

(** [v / d] for a positive float literal [d]. *)
Definition div_num (v : pyval) (d : Q) : result pyfloat :=
  match v with
  | PNum q => ret (Finite (q / d))
  | PInt n =>
      if too_large n then raise (PyException "OverflowError")
      else ret (Finite (inject_Z n / d))
  | PInf negative => ret (Infinity negative)
  | PNaN => ret NaN
  | _ => type_error
  end.

(** [min(a, b)] keeps its first argument unless the second is smaller;
    [max(a, b)] keeps its first argument unless the second is larger. *)
Definition py_min (a b : Q) : Q := if Qltb b a then b else a.
Definition py_max (a b : Q) : Q := if Qltb a b then b else a.

Definition py_abs (a : Q) : Q := if Qltb a 0 then - a else a.

(** ** binary64

    A Python [float] that is a number is a rational [m * 2^e] with
    [|m| < 2^53]; the value of a float expression is the nearest such
    rational to the exact result, the one with the even [m] when two are
    as near.  The range of [e] is left open: the rounded results this
    program compares stay away from its ends or compare the same way
    beyond them. *)

(** For [a > 0], the [e] with [2^52 <= a / 2^e < 2^53]. *)
Definition exponent64 (a : Q) : Z :=
  let k := (Z.log2 (Qnum a) - Z.log2 (Zpos (Qden a)))%Z in
  ((if Qle_bool (2 ^ k) a then k else k - 1) - 52)%Z.

(** The nearest integer, the even one of two. *)
Definition nearest_even (y : Q) : Z :=
  let f := Qfloor y in
  let r := y - inject_Z f in
  if Qltb r (1 # 2) then f
  else if Qltb (1 # 2) r then (f + 1)%Z
  else if Z.even f then f else (f + 1)%Z.

Definition round64 (x : Q) : Q :=
  if Qeq_bool x 0 then 0
  else
    let a := Qabs x in
    let e := exponent64 a in
    let m := inject_Z (nearest_even (a / 2 ^ e)) * 2 ^ e in
    if Qltb x 0 then - m else m.

(** [str(n)] for a non-negative [int]. *)
Definition str_nat (n : nat) : string :=
  NilEmpty.string_of_uint (Nat.to_uint n).

End Py.

(* ===================================================================== *)
(** * RatingEngine                                                        *)
(* ===================================================================== *)

Module RatingEngine.
Import Py.

(** [max(2, min(10, x * 10))] for a float [x].  [min] and [max] keep
    their first argument unless the second compares below (above) it:
    [min(10, nan)] is 10, and so is [min(10, inf)]; [min(10, -inf)] is
    [-inf] and [max(2, -inf)] is 2. *)
Definition five_star_scale (x : pyfloat) : Q :=
  match x with
  | Finite q => py_max 2 (py_min 10 (q * 10))
  | Infinity negative => if negative then 2 else 10
  | NaN => 10
  end.

(** [convert_to_plex_rating(style, value)], the body of its [try]. *)
Definition convert_body (style value : pyval) : result Q :=
  if eq_str style "1star" then
    bind (ge_num value 1) (fun b => ret (if b then 10 else 0))
  else
    bind (div_num value 5) (fun x => ret (five_star_scale x)).

(** [except Exception: return 6].  An exception that is not an
    [Exception] cannot arise in the body: it only compares and divides. *)
Definition convert_to_plex_rating (style value : pyval) : Q :=
  match convert_body style value with
  | inr r => r
  | inl _ => 6
  end.

End RatingEngine.

(** The decision taken for one track in [rate_tracks], lines 243-252:
    the three branches of the [if]/[elif]/[else]. *)
Module Decision.
Inductive t : Type := RATE | UPDATE | SKIP.

Definition eqb (a b : t) : bool :=
  match a, b with
  | RATE, RATE | UPDATE, UPDATE | SKIP, SKIP => true
  | _, _ => false
  end.
End Decision.

Module Classify.
Import Py.

(** [abs(curr - plex_rating) > 0.01]: the difference of the two floats
    is rounded, the literal [0.01] is the float nearest to a hundredth;
    [abs] and [>] are exact. *)
Definition differs (curr plex_rating : Q) : bool :=
  Qltb (round64 (1 # 100)) (py_abs (round64 (curr - plex_rating))).

Definition classify (curr : option Q) (plex_rating : Q) (override : bool)
  : Decision.t :=
  match curr with
  | None => Decision.RATE
  | Some c =>
      if override && differs c plex_rating then Decision.UPDATE
      else Decision.SKIP
  end.

End Classify.

(* ===================================================================== *)
(** * The collaborator and the sweep                                      *)
(* ===================================================================== *)

Module Sweep.
Import Py RatingEngine Classify.

(** A track as [plexapi] hands it over: its attributes, and what
    [track.rate(v)] does on the server side (returns, or raises). *)
Record track : Type := {
  title : string;
  userRating : option Q;
  rate : option Q -> option exn
}.

(** A library section: [searchTracks(sort=..., maxresults=...)]. *)
Record library : Type := {
  lib_title : string;
  searchTracks : option string -> option Z -> result (list track)
}.

(** [plex.library.section(name)] *)
Record PlexServer : Type := {
  section : string -> result library
}.

(** The globals the sweep reads. *)
Record config : Type := {
  TARGET_RATING_STYLE : pyval;
  TARGET_RATING_VALUE : pyval;
  OVERRIDE_RATING : bool
}.

(** Every text handed to [add_log_entry] by the code modelled here, with
    the f-string that produces it in [render]. *)
Inductive log_event : Type :=
| LRated (idx : nat) (track_title : string)
| LUpdated (idx : nat) (track_title : string)
| LTrackError (track_title msg : string)
| LProcessing (lib : string)
| LNoTracks (lib : string)
| LSummary (lib : string) (rated updated skipped : nat)
| LFetchError (lib msg : string)
| LAlreadyRunning
| LCleared (track_title : string)
| LResetError (lib msg : string)
| LLibraryFetchError (name msg : string)
| LLibraryWarning (name : string).

Definition render (e : log_event) : string :=
  match e with
  | LRated idx t => "[" +:+ str_nat idx +:+ "] Rated: " +:+ t
  | LUpdated idx t => "[" +:+ str_nat idx +:+ "] Updated: " +:+ t
  | LTrackError t msg => "Error rating track " +:+ t +:+ ": " +:+ msg
  | LProcessing l => "Processing library: " +:+ l
  | LNoTracks l => "No tracks in " +:+ l
  | LSummary l r u s =>
      l +:+ ": Rated " +:+ str_nat r +:+ ", Updated " +:+ str_nat u
        +:+ ", Skipped " +:+ str_nat s
  | LFetchError l msg => "Fetch error in " +:+ l +:+ ": " +:+ msg
  | LAlreadyRunning => "Batch already running, skipping this trigger."
  | LCleared t => "Cleared: " +:+ t
  | LResetError l msg => "Error in " +:+ l +:+ ": " +:+ msg
  | LLibraryFetchError n msg =>
      "Library fetch error for " +:+ n +:+ ": " +:+ msg
  | LLibraryWarning n =>
      "Warning: Library '" +:+ n +:+ "' not found or unavailable"
  end.

Definition is_action (e : log_event) : bool :=
  match e with LRated _ _ | LUpdated _ _ => true | _ => false end.
Definition is_summary (e : log_event) : bool :=
  match e with LSummary _ _ _ _ => true | _ => false end.
Definition is_track_error (e : log_event) : bool :=
  match e with LTrackError _ _ => true | _ => false end.
Definition is_already_running (e : log_event) : bool :=
  match e with LAlreadyRunning => true | _ => false end.

(** The mutable world: the gate ([batch_lock], [batch_running]), the
    texts given to [add_log_entry] so far, and the [rate] calls issued
    to the server so far (track title, argument), oldest first. *)
Record world : Type := {
  batch_lock : bool;
  batch_running : bool;
  log : list log_event;
  calls : list (string * option Q)
}.

Definition world0 : world :=
  {| batch_lock := false; batch_running := false; log := []; calls := [] |}.

(** State and exceptions: a statement runs from a world to an outcome
    and a world.  The world reached when an exception is raised is kept:
    Python does not roll anything back. *)
Definition M (A : Type) : Type := world -> result A * world.

Definition mret {A} (a : A) : M A := fun w => (inr a, w).
Definition mbind {A B} (m : M A) (k : A -> M B) : M B :=
  fun w => match m w with
           | (inl e, w') => (inl e, w')
           | (inr a, w') => k a w'
           end.

Declare Scope py_scope.
Delimit Scope py_scope with py.
Notation "x <- m ;; k" := (mbind m (fun x => k))
  (at level 90, m at next level, right associativity) : py_scope.
Notation "m ;;; k" := (mbind m (fun _ => k))
  (at level 90, right associativity) : py_scope.
Local Open Scope py_scope.

(** [try: m except Exception as e: h(str(e))] *)
Definition mtry_except {A} (m : M A) (h : string -> M A) : M A :=
  fun w => match m w with
           | (inl (PyException msg), w') => h msg w'
           | other => other
           end.

(** [try: m finally: fin] *)
Definition mtry_finally {A} (m : M A) (fin : M unit) : M A :=
  fun w => match m w with
           | (r, w') =>
               match fin w' with
               | (inl e, w'') => (inl e, w'')
               | (inr _, w'') => (r, w'')
               end
           end.

Definition lift {A} (r : result A) : M A := fun w => (r, w).

Definition add_log_entry (e : log_event) : M unit :=
  fun w => (inr tt,
            {| batch_lock := batch_lock w; batch_running := batch_running w;
               log := log w ++ [e]; calls := calls w |}).

(** [track.rate(v)]: the call reaches the server, then returns or raises. *)
Definition track_rate (t : track) (v : option Q) : M unit :=
  fun w =>
    let w' := {| batch_lock := batch_lock w; batch_running := batch_running w;
                 log := log w; calls := calls w ++ [(title t, v)] |} in
    match rate t v with
    | Some e => (inl e, w')
    | None => (inr tt, w')
    end.

(** [batch_lock.acquire(blocking=False)] *)
Definition lock_acquire_nonblocking : M bool :=
  fun w =>
    if batch_lock w then (inr false, w)
    else (inr true,
          {| batch_lock := true; batch_running := batch_running w;
             log := log w; calls := calls w |}).

(** [batch_lock.release()]; releasing an unlocked lock is a
    [RuntimeError]. *)
Definition lock_release : M unit :=
  fun w =>
    if batch_lock w then
      (inr tt,
       {| batch_lock := false; batch_running := batch_running w;
          log := log w; calls := calls w |})
    else (inl (PyException "release unlocked lock"), w).

Definition set_batch_running (b : bool) : M unit :=
  fun w => (inr tt,
            {| batch_lock := batch_lock w; batch_running := b;
               log := log w; calls := calls w |}).

(** The counters [rated, updated, skipped]. *)
Record counts : Type := { rated : nat; updated : nat; skipped : nat }.

Definition counts0 : counts := {| rated := 0; updated := 0; skipped := 0 |}.

(** One iteration of the [for] in [rate_tracks] (lines 241-254). *)
Definition rate_track (plex_rating : Q) (override : bool)
    (idx : nat) (t : track) (c : counts) : M counts :=
  mtry_except
    (match userRating t with
     | None =>
         track_rate t (Some plex_rating) ;;;
         add_log_entry (LRated idx (title t)) ;;;
         mret {| rated := S (rated c); updated := updated c;
                 skipped := skipped c |}
     | Some curr =>
         if override && differs curr plex_rating then
           track_rate t (Some plex_rating) ;;;
           add_log_entry (LUpdated idx (title t)) ;;;
           mret {| rated := rated c; updated := S (updated c);
                   skipped := skipped c |}
         else
           mret {| rated := rated c; updated := updated c;
                   skipped := S (skipped c) |}
     end)
    (fun msg => add_log_entry (LTrackError (title t) msg) ;;; mret c).

(** [for idx, track in enumerate(tracks, idx): ...] *)
Fixpoint rate_loop (plex_rating : Q) (override : bool)
    (idx : nat) (tracks : list track) (c : counts) : M counts :=
  match tracks with
  | [] => mret c
  | t :: rest =>
      c' <- rate_track plex_rating override idx t c ;;
      rate_loop plex_rating override (S idx) rest c'
  end.

Definition rate_tracks (cfg : config) (tracks : list track) : M counts :=
  let plex_rating :=
    convert_to_plex_rating (TARGET_RATING_STYLE cfg) (TARGET_RATING_VALUE cfg) in
  rate_loop plex_rating (OVERRIDE_RATING cfg) 1 tracks counts0.

(** The body of [for lib in music_libs] in [rate_new_tracks]
    (lines 265-274). *)
Definition sweep_library (cfg : config) (limit : option Z) (lib : library)
  : M unit :=
  add_log_entry (LProcessing (lib_title lib)) ;;;
  mtry_except
    (tracks <- lift (searchTracks lib (Some "addedAt:desc") limit) ;;
     match tracks with
     | [] => add_log_entry (LNoTracks (lib_title lib))
     | _ :: _ =>
         c <- rate_tracks cfg tracks ;;
         add_log_entry
           (LSummary (lib_title lib) (rated c) (updated c) (skipped c))
     end)
    (fun msg => add_log_entry (LFetchError (lib_title lib) msg)).

Fixpoint sweep_libraries (cfg : config) (limit : option Z)
    (music_libs : list library) : M unit :=
  match music_libs with
  | [] => mret tt
  | lib :: rest =>
      sweep_library cfg limit lib ;;; sweep_libraries cfg limit rest
  end.

(** [rate_new_tracks(limit)], in its three phases: the attempt on the
    gate (lines 259-262), the guarded sweep (264-274), the [finally]
    (276-277). *)
Definition acquire_phase : M bool :=
  acquired <- lock_acquire_nonblocking ;;
  if acquired : bool then set_batch_running true ;;; mret true
  else add_log_entry LAlreadyRunning ;;; mret false.

Definition finally_phase : M unit :=
  set_batch_running false ;;; lock_release.

Definition rate_new_tracks (cfg : config) (music_libs : list library)
    (limit : option Z) : M unit :=
  entered <- acquire_phase ;;
  if entered : bool then
    mtry_finally (sweep_libraries cfg limit music_libs) finally_phase
  else mret tt.

(** [reset_ratings]: the inner [reset] (lines 402-411). *)
Fixpoint reset_tracks (tracks : list track) : M unit :=
  match tracks with
  | [] => mret tt
  | t :: rest =>
      match userRating t with
      | Some _ =>
          track_rate t None ;;;
          add_log_entry (LCleared (title t)) ;;;
          reset_tracks rest
      | None => reset_tracks rest
      end
  end.

Definition reset_library (lib : library) : M unit :=
  mtry_except
    (tracks <- lift (searchTracks lib None None) ;;
     reset_tracks tracks)
    (fun msg => add_log_entry (LResetError (lib_title lib) msg)).

Fixpoint reset (music_libs : list library) : M unit :=
  match music_libs with
  | [] => mret tt
  | lib :: rest => reset_library lib ;;; reset rest
  end.

(** [get_music_lib(name)] and [load_music_libs(lib_names)]. *)
Definition get_music_lib (plex : PlexServer) (name : string)
  : M (option library) :=
  mtry_except
    (lib <- lift (section plex name) ;; mret (Some lib))
    (fun msg => add_log_entry (LLibraryFetchError name msg) ;;; mret None).

Fixpoint load_music_libs_loop (plex : PlexServer) (lib_names : list string)
    (libs : list library) : M (list library) :=
  match lib_names with
  | [] => mret libs
  | name :: rest =>
      lib <- get_music_lib plex name ;;
      match lib with
      | Some l => load_music_libs_loop plex rest (libs ++ [l])
      | None =>
          add_log_entry (LLibraryWarning name) ;;;
          load_music_libs_loop plex rest libs
      end
  end.

Definition load_music_libs (plex : PlexServer) (lib_names : list string)
  : M (list library) :=
  load_music_libs_loop plex lib_names [].

(** ** Observations on a sweep, used to state its properties *)

Definition count_if {A} (p : A -> bool) (l : list A) : nat :=
  length (filter (fun x => p x = true) l).

Definition is_exception (e : exn) : bool :=
  match e with PyException _ => true | PyBaseException _ => false end.

(** The collaborator fails with [Exception]s only: network errors,
    [NotFound], [BadRequest] and the like. *)
Definition track_ok (t : track) : Prop :=
  forall v e, rate t v = Some e -> is_exception e = true.

Definition library_ok (lib : library) : Prop :=
  forall sort limit,
    match searchTracks lib sort limit with
    | inl e => is_exception e = true
    | inr tracks => Forall track_ok tracks
    end.

Definition plex_ok (plex : PlexServer) : Prop :=
  forall name e, section plex name = inl e -> is_exception e = true.

(** The decision for a track, whether [track.rate(v)] returns, and the
    three ways an iteration of [rate_tracks] can end. *)
Definition decision (plex_rating : Q) (override : bool) (t : track)
  : Decision.t :=
  classify (userRating t) plex_rating override.

Definition returns (t : track) (v : option Q) : bool :=
  match rate t v with None => true | Some _ => false end.

Definition attempted (plex_rating : Q) (override : bool) (t : track) : bool :=
  negb (Decision.eqb (decision plex_rating override t) Decision.SKIP).

Definition applied (d : Decision.t) (plex_rating : Q) (override : bool)
    (t : track) : bool :=
  Decision.eqb (decision plex_rating override t) d
  && returns t (Some plex_rating).

Definition failed (plex_rating : Q) (override : bool) (t : track) : bool :=
  attempted plex_rating override t && negb (returns t (Some plex_rating)).

Definition skips (plex_rating : Q) (override : bool) (t : track) : bool :=
  Decision.eqb (decision plex_rating override t) Decision.SKIP.

Definition target (cfg : config) : Q :=
  convert_to_plex_rating (TARGET_RATING_STYLE cfg) (TARGET_RATING_VALUE cfg).

(** The tracks a library hands to the sweep, if the fetch returns. *)
Definition fetched (limit : option Z) (lib : library) : list track :=
  match searchTracks lib (Some "addedAt:desc") limit with
  | inr tracks => tracks
  | inl _ => []
  end.

Definition has_tracks (limit : option Z) (lib : library) : bool :=
  match fetched limit lib with [] => false | _ :: _ => true end.

Definition processing_titles (l : list log_event) : list string :=
  omap (fun e => match e with LProcessing t => Some t | _ => None end) l.

Definition set_log_calls (w : world) (l : list log_event)
    (c : list (string * option Q)) : world :=
  {| batch_lock := batch_lock w; batch_running := batch_running w;
     log := l; calls := c |}.

Definition b2n (b : bool) : nat := if b then 1 else 0.

Definition bump (c : counts) (r u s : nat) : counts :=
  {| rated := rated c + r; updated := updated c + u;
     skipped := skipped c + s |}.

Definition track_calls (pr : Q) (ov : bool) (tracks : list track)
  : list (string * option Q) :=
  (fun t => (title t, Some pr)) <$> filter (fun t => attempted pr ov t = true) tracks.

Definition library_calls (cfg : config) (limit : option Z) (lib : library)
  : list (string * option Q) :=
  track_calls (target cfg) (OVERRIDE_RATING cfg) (fetched limit lib).

Definition library_summary (cfg : config) (limit : option Z) (lib : library)
  : log_event :=
  LSummary (lib_title lib)
    (count_if (applied Decision.RATE (target cfg) (OVERRIDE_RATING cfg))
       (fetched limit lib))
    (count_if (applied Decision.UPDATE (target cfg) (OVERRIDE_RATING cfg))
       (fetched limit lib))
    (count_if (skips (target cfg) (OVERRIDE_RATING cfg)) (fetched limit lib)).

Definition all_fetched (limit : option Z) (libs : list library) : list track :=
  concat (fetched limit <$> libs).

(** The gate is touched by [rate_new_tracks] alone. *)
Definition keeps_gate {A} (m : M A) : Prop :=
  forall w, batch_lock (snd (m w)) = batch_lock w
            /\ batch_running (snd (m w)) = batch_running w.

(** The libraries [plex.library.section] resolves among [lib_names]. *)
Definition resolved (plex : PlexServer) (lib_names : list string)
  : list library :=
  omap (fun name => match section plex name with
                    | inr lib => Some lib
                    | inl _ => None
                    end) lib_names.

(** The [rate(None)] calls of a reset that nothing interrupts. *)
Definition reset_calls (tracks : list track) : list (string * option Q) :=
  (fun t => (title t, None))
    <$> filter (fun t => is_Some (userRating t)) tracks.

(** The tracks a library hands to [reset], if the fetch returns. *)
Definition reset_fetched (lib : library) : list track :=
  match searchTracks lib None None with
  | inr tracks => tracks
  | inl _ => []
  end.

(** ** Concrete collaborators *)

Definition five_stars : config :=
  {| TARGET_RATING_STYLE := PStr "5stars"; TARGET_RATING_VALUE := PNum 5;
     OVERRIDE_RATING := true |}.

Definition healthy (name : string) (r : option Q) : track :=
  {| title := name; userRating := r; rate := fun _ => None |}.

Definition flaky (name : string) (r : option Q) : track :=
  {| title := name; userRating := r;
     rate := fun _ => Some (PyException "timed out") |}.

Definition shelf (name : string) (tracks : list track) : library :=
  {| lib_title := name; searchTracks := fun _ _ => inr tracks |}.

Definition unreachable (name : string) : library :=
  {| lib_title := name;
     searchTracks := fun _ _ => inl (PyException "connection refused") |}.

(** A library whose fetch is cut short by an exception outside
    [Exception]. *)
Definition interrupted (name : string) : library :=
  {| lib_title := name;
     searchTracks := fun _ _ => inl (PyBaseException "SystemExit") |}.

(** One unrated track, one rated at the target, one rated elsewhere. *)
Definition three_tracks : library :=
  shelf "Music" [healthy "A" None; healthy "B" (Some 10); healthy "C" (Some 4)].

Definition empty_shelf : library := shelf "Empty" [].

Definition flaky_shelf : library :=
  shelf "Flaky" [flaky "D" None; healthy "E" None].

Definition rated_shelf : library :=
  shelf "Rated" [flaky "F" (Some 8); healthy "G" (Some 6); healthy "H" None].

Definition one_server : PlexServer :=
  {| section := fun name =>
       if bool_decide (name = "Music") then inr three_tracks
       else inl (PyException "NotFound") |}.

End Sweep.

(* ===================================================================== *)
(** * EventLog                                                            *)
(* ===================================================================== *)

Module EventLog.

(** The two shared lists guarded by [log_lock].  A subscriber's queue is
    the very list object stored in [listeners]: the handle of a
    subscriber is its position there, and both [add_log_entry] and the
    subscriber's generator act on that one list. *)
Record state : Type := {
  rating_log : list string;
  listeners : list (list string)
}.

Definition empty : state := {| rating_log := []; listeners := [] |}.

Definition format_line (timestamp text : string) : string :=
  timestamp +:+ " - " +:+ text.

(** [add_log_entry(text)] (lines 103-111), with the clock reading
    [timestamp] as an input. *)
Definition add_log_entry (timestamp text : string) (st : state) : state :=
  let log_line := format_line timestamp text in
  let appended := rating_log st ++ [log_line] in
  let ring := if (500 <? length appended)%nat then drop 1 appended
              else appended in
  {| rating_log := ring;
     listeners := (fun q => q ++ [log_line]) <$> listeners st |}.

(** [stream()] (lines 360-361): [q = []; listeners.append(q)]. *)
Definition stream (st : state) : nat * state :=
  (length (listeners st),
   {| rating_log := rating_log st; listeners := listeners st ++ [[]] |}).

Definition newline : string := String (ascii_of_nat 10) EmptyString.

Definition sse (line : string) : string :=
  "data: " +:+ line +:+ newline +:+ newline.

(** One turn of the [while True] of [event_stream(q)] (lines 355-359):
    [q.pop(0)] and a [yield], or nothing but a short sleep. *)
Definition event_stream_turn (h : nat) (st : state) : option string * state :=
  match listeners st !! h with
  | Some (line :: rest) =>
      (Some (sse line),
       {| rating_log := rating_log st;
          listeners := <[h := rest]> (listeners st) |})
  | _ => (None, st)
  end.

(** [home()] renders [rating_log] as it is. *)
Definition snapshot (st : state) : list string := rating_log st.

(** Operations arriving at the log, in the order the lock and the
    interpreter serialise them. *)
Inductive op : Type :=
| Append (timestamp text : string)
| Subscribe
| Turn (h : nat).

(** The state, and what each subscriber's generator has yielded so far
    (handle, chunk), oldest first. *)
Definition run_op (o : op) (s : state * list (nat * string))
  : state * list (nat * string) :=
  match o with
  | Append ts text => (add_log_entry ts text (fst s), snd s)
  | Subscribe => (snd (stream (fst s)), snd s)
  | Turn h =>
      match event_stream_turn h (fst s) with
      | (Some chunk, st') => (st', snd s ++ [(h, chunk)])
      | (None, st') => (st', snd s)
      end
  end.

Definition run (ops : list op) (s : state * list (nat * string))
  : state * list (nat * string) :=
  foldl (fun s o => run_op o s) s ops.

(** What subscriber [h] has received. *)
Definition received (h : nat) (out : list (nat * string)) : list string :=
  snd <$> filter (fun c => fst c = h) out.

(** The formatted lines of the appends among [ops], in order. *)
Definition appended_lines (ops : list op) : list string :=
  omap (fun o => match o with
                 | Append ts text => Some (format_line ts text)
                 | _ => None
                 end) ops.

Definition append_all (entries : list (string * string)) (st : state) : state :=
  foldl (fun st e => add_log_entry (fst e) (snd e) st) st entries.

(** The last [n] elements of a list, in their order. *)
Definition last_n {A} (n : nat) (l : list A) : list A :=
  drop (length l - n) l.

Definition formatted (entries : list (string * string)) : list string :=
  (fun e => format_line (fst e) (snd e)) <$> entries.

(** The pending lines of subscriber [h]. *)
Definition queue (h : nat) (st : state) : list string :=
  default [] (listeners st !! h).

(** What subscriber [h] has been given so far: the chunks its generator
    has yielded, then the lines still in its queue. *)
Definition view (h : nat) (s : state * list (nat * string)) : list string :=
  received h (snd s) ++ (sse <$> queue h (fst s)).

(** A concrete run: 600 entries. *)
Definition six_hundred : list (string * string) :=
  (fun n => ("2026-01-01 00:00:00", Py.str_nat n)) <$> seq 0 600.

End EventLog.

(* ===================================================================== *)
(** * Threads at the gate                                                 *)
(* ===================================================================== *)

Module Gate.
Import Py Sweep.

(** Where a thread running [rate_new_tracks(limit)] stands. *)
Inductive pc : Type :=
| Triggered (limit : option Z)       (* started, before line 259 *)
| Sweeping (limit : option Z)        (* past the gate, before line 264 *)
| Leaving (outcome : result unit)    (* loop left, before the [finally] *)
| Returned (outcome : result unit).

Definition inside (p : pc) : bool :=
  match p with Sweeping _ | Leaving _ => true | _ => false end.

Record state : Type := {
  w : world;
  threads : list pc
}.

Inductive label : Type :=
| Trigger (limit : option Z)   (* a trigger spawns a thread *)
| Run (i : nat).               (* thread [i] takes its next step *)

Section Program.
Variable cfg : config.
Variable music_libs : list library.

Definition run_thread (i : nat) (s : state) : option state :=
  match threads s !! i with
  | Some (Triggered limit) =>
      match acquire_phase (w s) with
      | (inr true, w') =>
          Some {| w := w'; threads := <[i := Sweeping limit]> (threads s) |}
      | (inr false, w') =>
          Some {| w := w'; threads := <[i := Returned (inr tt)]> (threads s) |}
      | (inl e, w') =>
          Some {| w := w'; threads := <[i := Returned (inl e)]> (threads s) |}
      end
  | Some (Sweeping limit) =>
      match sweep_libraries cfg limit music_libs (w s) with
      | (r, w') =>
          Some {| w := w'; threads := <[i := Leaving r]> (threads s) |}
      end
  | Some (Leaving r) =>
      match finally_phase (w s) with
      | (inl e, w') =>
          Some {| w := w'; threads := <[i := Returned (inl e)]> (threads s) |}
      | (inr _, w') =>
          Some {| w := w'; threads := <[i := Returned r]> (threads s) |}
      end
  | Some (Returned _) | None => None
  end.

Definition step (l : label) (s : state) : option state :=
  match l with
  | Trigger limit =>
      Some {| w := w s; threads := threads s ++ [Triggered limit] |}
  | Run i => run_thread i s
  end.

Fixpoint exec (ls : list label) (s : state) : option state :=
  match ls with
  | [] => Some s
  | l :: rest =>
      match step l s with
      | Some s' => exec rest s'
      | None => None
      end
  end.

End Program.

Definition init : state := {| w := world0; threads := [] |}.

Definition inside_count (s : state) : nat :=
  count_if inside (threads s).

(** The gate is held exactly while one thread is past it. *)
Definition gate_inv (s : state) : Prop :=
  inside_count s = b2n (batch_lock (w s))
  /\ batch_running (w s) = batch_lock (w s).

End Gate.

(* ===================================================================== *)
(** * PeriodicScheduler                                                   *)
(* ===================================================================== *)

Module Scheduler.

Local Open Scope Z_scope.

(** Where a thread running [periodic_batch_trigger] stands.  A thread in
    [time.sleep(secs)] comes back no earlier than [wake_at], whatever
    happens to [batch_thread_stop_event] meanwhile. *)
Inductive loop_pc : Type :=
| Started                           (* before line 283 *)
| AtWhile                           (* at the test of line 284 *)
| AtZero                            (* at the test of line 285 *)
| AtSleep                           (* at line 289, before the call *)
| Sleeping (secs wake_at : Z)       (* inside [time.sleep(secs)] *)
| Woken (secs : Z)                  (* at the test of line 290 *)
| InSweep                           (* inside line 293, while it lasts *)
| Exited.

(** Where a call of [start_batch_thread] stands. *)
Inductive caller_pc : Type :=
| AtStart                           (* at the test of line 298 *)
| AtSet                             (* at line 299 *)
| AtJoin                            (* at line 300, before the call *)
| Joining (t : nat)                 (* inside [join] *)
| AtClear                           (* at line 301 *)
| AtTest                            (* at the test of line 302 *)
| AtSpawn                           (* at lines 303-304 *)
| AtLog                             (* at line 305 *)
| Done.

Inductive log_event : Type :=
| LLoopStarted (interval : Z)
| LDisabled
| LTriggerStarted
| LTriggerFinished
| LBatchThreadStarted (interval : Z)
| LBatchThreadNotStarted.

(** A call of [rate_new_tracks] by the loop: the clock reading, and the
    length of the sleep the loop came from. *)
Record dispatch : Type := { at_time : Z; slept : Z }.

Record state : Type := {
  now : Z;                                  (* seconds *)
  BATCH_INTERVAL_MINUTES : Z;
  batch_thread : option nat;                (* index into [threads] *)
  batch_thread_stop_event : bool;
  threads : list loop_pc;                   (* every loop ever started *)
  callers : list caller_pc;                 (* every call of
                                               [start_batch_thread] *)
  dispatches : list dispatch;
  log : list log_event
}.

Definition running (p : loop_pc) : bool :=
  match p with Exited => false | _ => true end.

Definition busy (p : caller_pc) : bool :=
  match p with Done => false | _ => true end.

(** [batch_thread.is_alive()] for the thread of handle [t]. *)
Definition is_alive (s : state) (t : nat) : bool :=
  match threads s !! t with
  | Some p => running p
  | None => false
  end.

Definition set_thread (i : nat) (p : loop_pc) (s : state) : state :=
  {| now := now s; BATCH_INTERVAL_MINUTES := BATCH_INTERVAL_MINUTES s;
     batch_thread := batch_thread s;
     batch_thread_stop_event := batch_thread_stop_event s;
     threads := <[i := p]> (threads s); callers := callers s;
     dispatches := dispatches s; log := log s |}.

Definition add_log (e : log_event) (s : state) : state :=
  {| now := now s; BATCH_INTERVAL_MINUTES := BATCH_INTERVAL_MINUTES s;
     batch_thread := batch_thread s;
     batch_thread_stop_event := batch_thread_stop_event s;
     threads := threads s; callers := callers s;
     dispatches := dispatches s; log := log s ++ [e] |}.

Definition add_dispatch (d : dispatch) (s : state) : state :=
  {| now := now s; BATCH_INTERVAL_MINUTES := BATCH_INTERVAL_MINUTES s;
     batch_thread := batch_thread s;
     batch_thread_stop_event := batch_thread_stop_event s;
     threads := threads s; callers := callers s;
     dispatches := dispatches s ++ [d]; log := log s |}.

Definition set_caller (j : nat) (p : caller_pc) (s : state) : state :=
  {| now := now s; BATCH_INTERVAL_MINUTES := BATCH_INTERVAL_MINUTES s;
     batch_thread := batch_thread s;
     batch_thread_stop_event := batch_thread_stop_event s;
     threads := threads s; callers := <[j := p]> (callers s);
     dispatches := dispatches s; log := log s |}.

Definition set_stop_event (b : bool) (s : state) : state :=
  {| now := now s; BATCH_INTERVAL_MINUTES := BATCH_INTERVAL_MINUTES s;
     batch_thread := batch_thread s;
     batch_thread_stop_event := b;
     threads := threads s; callers := callers s;
     dispatches := dispatches s; log := log s |}.

(** [threading.Thread(target=periodic_batch_trigger)], the assignment to
    [batch_thread] and [batch_thread.start()], in one step: [batch_thread]
    never names a thread that was not started. *)
Definition spawn (s : state) : state :=
  {| now := now s; BATCH_INTERVAL_MINUTES := BATCH_INTERVAL_MINUTES s;
     batch_thread := Some (length (threads s));
     batch_thread_stop_event := batch_thread_stop_event s;
     threads := threads s ++ [Started]; callers := callers s;
     dispatches := dispatches s; log := log s |}.

(** [time.sleep] keeps the length of the sleep as a number of
    nanoseconds in 64 bits: from [2^63] nanoseconds on it raises
    [OverflowError]. *)
Definition sleep_limit : Z := 9223372036.

(** One step of [periodic_batch_trigger] in thread [i] (lines 283-294);
    [None] when the thread cannot move: still asleep, or over.  The
    interval is read three times: for the log line, for the test of line
    285 and for the length of the sleep.  An exception that [time.sleep]
    raises ends the thread: nothing catches it.  The sweep takes the time
    that passes while the thread stands at [InSweep]. *)
Definition loop_step (i : nat) (s : state) : option state :=
  match threads s !! i with
  | Some Started =>
      Some (set_thread i AtWhile
              (add_log (LLoopStarted (BATCH_INTERVAL_MINUTES s)) s))
  | Some AtWhile =>
      if batch_thread_stop_event s then Some (set_thread i Exited s)
      else Some (set_thread i AtZero s)
  | Some AtZero =>
      if BATCH_INTERVAL_MINUTES s =? 0 then
        Some (set_thread i Exited (add_log LDisabled s))
      else Some (set_thread i AtSleep s)
  | Some AtSleep =>
      let secs := BATCH_INTERVAL_MINUTES s * 60 in
      if secs <? 0 then
        (* [ValueError]: sleep length must be non-negative *)
        Some (set_thread i Exited s)
      else if sleep_limit <? secs then
        (* [OverflowError] *)
        Some (set_thread i Exited s)
      else Some (set_thread i (Sleeping secs (now s + secs)) s)
  | Some (Sleeping secs wake_at) =>
      if now s <? wake_at then None
      else Some (set_thread i (Woken secs) s)
  | Some (Woken secs) =>
      if batch_thread_stop_event s then Some (set_thread i Exited s)
      else
        Some (set_thread i InSweep
                (add_dispatch {| at_time := now s; slept := secs |}
                   (add_log LTriggerStarted s)))
  | Some InSweep =>
      Some (set_thread i AtWhile (add_log LTriggerFinished s))
  | Some Exited | None => None
  end.

(** An exception leaves the call under way in thread [i] -
    [time.sleep] at line 289, [rate_new_tracks] at line 293 - and,
    nothing catching it, ends the thread.  Below [sleep_limit] the longest
    sleep [time.sleep] takes depends on the platform and on its clock;
    [rate_new_tracks] lets through what is not an [Exception].  The model
    leaves open when this happens. *)
Definition uncaught (i : nat) (s : state) : option state :=
  match threads s !! i with
  | Some AtSleep | Some InSweep => Some (set_thread i Exited s)
  | _ => None
  end.

(** One step of the call [j] of [start_batch_thread] (lines 298-307);
    [None] when it cannot move: blocked in [join], or over.  Line 300
    reads [batch_thread] again; it was not [None] at line 298 and is
    never reset. *)
Definition start_step (j : nat) (s : state) : option state :=
  match callers s !! j with
  | Some AtStart =>
      match batch_thread s with
      | Some t =>
          if is_alive s t then Some (set_caller j AtSet s)
          else Some (set_caller j AtClear s)
      | None => Some (set_caller j AtClear s)
      end
  | Some AtSet => Some (set_caller j AtJoin (set_stop_event true s))
  | Some AtJoin =>
      match batch_thread s with
      | Some t => Some (set_caller j (Joining t) s)
      | None => None
      end
  | Some (Joining t) =>
      if is_alive s t then None
      else Some (set_caller j AtClear s)
  | Some AtClear => Some (set_caller j AtTest (set_stop_event false s))
  | Some AtTest =>
      if BATCH_INTERVAL_MINUTES s >? 0 then Some (set_caller j AtSpawn s)
      else Some (set_caller j Done (add_log LBatchThreadNotStarted s))
  | Some AtSpawn => Some (set_caller j AtLog (spawn s))
  | Some AtLog =>
      Some (set_caller j Done
              (add_log (LBatchThreadStarted (BATCH_INTERVAL_MINUTES s)) s))
  | Some Done | None => None
  end.

Definition idle (s : state) : bool :=
  forallb (fun p => negb (busy p)) (callers s).

(** The part of a settings POST that concerns the scheduler (lines
    463-470 and 483), run by the thread of the request: a submitted
    interval that parsed to [n] replaces [BATCH_INTERVAL_MINUTES] unless
    it is negative; one that did not parse ([None]) changes nothing; a
    call of [start_batch_thread] follows in every case.  With [overlap]
    off a request is taken only when no call of [start_batch_thread] is
    under way; the source has no lock that would enforce this. *)
Definition configure (overlap : bool) (batch_int : option Z) (s : state)
  : option state :=
  if overlap || idle s then
    let interval :=
      match batch_int with
      | Some n => if n <? 0 then BATCH_INTERVAL_MINUTES s else n
      | None => BATCH_INTERVAL_MINUTES s
      end in
    Some {| now := now s; BATCH_INTERVAL_MINUTES := interval;
            batch_thread := batch_thread s;
            batch_thread_stop_event := batch_thread_stop_event s;
            threads := threads s; callers := callers s ++ [AtStart];
            dispatches := dispatches s; log := log s |}
  else None.

Definition tick (dt : Z) (s : state) : option state :=
  if dt <? 0 then None
  else Some {| now := now s + dt;
               BATCH_INTERVAL_MINUTES := BATCH_INTERVAL_MINUTES s;
               batch_thread := batch_thread s;
               batch_thread_stop_event := batch_thread_stop_event s;
               threads := threads s; callers := callers s;
               dispatches := dispatches s; log := log s |}.

Inductive label : Type :=
| Tick (dt : Z)                  (* time passes: in a sleep, in a sweep *)
| Loop (i : nat)                 (* loop thread [i] moves *)
| Start (j : nat)                (* call [j] of [start_batch_thread] moves *)
| Configure (batch_int : option Z)
| Uncaught (i : nat).            (* thread [i] ends on an exception *)

Definition step (overlap : bool) (l : label) (s : state) : option state :=
  match l with
  | Tick dt => tick dt s
  | Loop i => loop_step i s
  | Start j => start_step j s
  | Configure n => configure overlap n s
  | Uncaught i => uncaught i s
  end.

Fixpoint exec (overlap : bool) (ls : list label) (s : state) : option state :=
  match ls with
  | [] => Some s
  | l :: rest =>
      match step overlap l s with
      | Some s' => exec overlap rest s'
      | None => None
      end
  end.

(** Module load: line 309 calls [start_batch_thread()] with the interval
    read from the settings, taken to be an [int]; with [None] the test
    of line 302 raises and the program does not start. *)
Definition init (interval : Z) : state :=
  {| now := 0; BATCH_INTERVAL_MINUTES := interval;
     batch_thread := None; batch_thread_stop_event := false;
     threads := []; callers := [AtStart]; dispatches := []; log := [] |}.

Definition alive_count (s : state) : nat :=
  Sweep.count_if running (threads s).

Definition is_configure (l : label) : bool :=
  match l with Configure _ => true | _ => false end.


(** No loop is alive. *)
Definition dead (s : state) : Prop :=
  forall i p, threads s !! i = Some p -> running p = false.

(** A call that has not yet got past its [join]. *)
Definition early (p : caller_pc) : bool :=
  match p with AtStart | AtSet | AtJoin | Joining _ => true | _ => false end.

(** A call between its [set()] and its [clear()]. *)
Definition stopping (p : caller_pc) : bool :=
  match p with AtJoin | Joining _ | AtClear => true | _ => false end.

(** What a call can rely on where it stands, as long as calls do not
    overlap. *)
Definition expects (s : state) (p : caller_pc) : Prop :=
  match p with
  | AtStart | Done => True
  | AtSet => exists t, batch_thread s = Some t
  | AtJoin =>
      (exists t, batch_thread s = Some t)
      /\ batch_thread_stop_event s = true
  | Joining t =>
      batch_thread s = Some t /\ batch_thread_stop_event s = true
  | AtClear | AtTest => dead s
  | AtSpawn => dead s /\ 0 < BATCH_INTERVAL_MINUTES s
  | AtLog => 0 < BATCH_INTERVAL_MINUTES s
  end.

(** What holds of the scheduler as long as calls of [start_batch_thread]
    do not overlap. *)
Record inv (s : state) : Prop := {
  inv_one_caller :
    forall j j' p p', callers s !! j = Some p -> callers s !! j' = Some p' ->
                      busy p = true -> busy p' = true -> j = j';
  inv_alive :
    forall i p, threads s !! i = Some p -> running p = true ->
                batch_thread s = Some i;
  inv_pc :
    forall j p, callers s !! j = Some p -> expects s p;
  inv_stop :
    batch_thread_stop_event s = true ->
    exists j p, callers s !! j = Some p /\ stopping p = true;
  inv_idle :
    forall i p, threads s !! i = Some p -> running p = true ->
                (forall j q, callers s !! j = Some q -> early q = false) ->
                0 < BATCH_INTERVAL_MINUTES s
}.

(** Nothing runs and nothing is being started. *)
Definition stopped (s : state) : Prop := idle s = true /\ dead s.

(** How the trigger times relate to the clock and to the sleeps. *)
Record timing (s : state) : Prop := {
  t_past :
    forall k d, dispatches s !! k = Some d ->
                at_time d <= now s /\ 0 <= slept d;
  t_sleeping :
    forall i secs wake_at,
      threads s !! i = Some (Sleeping secs wake_at) ->
      0 <= secs /\ forall k d, dispatches s !! k = Some d ->
                               at_time d + secs <= wake_at;
  t_woken :
    forall i secs,
      threads s !! i = Some (Woken secs) ->
      0 <= secs /\ forall k d, dispatches s !! k = Some d ->
                               at_time d + secs <= now s;
  t_gap :
    forall a b d1 d2,
      (a < b)%nat -> dispatches s !! a = Some d1 ->
      dispatches s !! b = Some d2 ->
      at_time d1 + slept d2 <= at_time d2
}.

Definition waits (p : loop_pc) : bool :=
  match p with Sleeping _ _ | Woken _ => true | _ => false end.

(** A call of [start_batch_thread] from beginning to end when no loop is
    alive and the interval is positive, and the first steps of the loop
    up to its sleep. *)
Definition first_start (j : nat) : list label :=
  [Start j; Start j; Start j; Start j; Start j].

Definition to_sleep (i : nat) : list label :=
  [Loop i; Loop i; Loop i; Loop i].

(** Two settings requests that overlap: both find the loop alive, both
    ask it to stop and join it, both start a loop once it is over. *)
Definition two_posts : list label :=
  first_start 0 ++ to_sleep 0
  ++ [Configure (Some 2); Configure (Some 2);
      Start 1; Start 2; Start 1; Start 2; Start 1; Start 2;
      Tick 60; Loop 0; Loop 0;
      Start 1; Start 2; Start 1; Start 2; Start 1; Start 2;
      Start 1; Start 2; Start 1; Start 2]
  ++ to_sleep 1 ++ to_sleep 2
  ++ [Tick 120; Loop 1; Loop 2; Loop 1; Loop 2].

(** One request at a time: the interval is set to 0 while the loop
    sleeps. *)
Definition switch_off : list label :=
  first_start 0 ++ to_sleep 0
  ++ [Configure (Some 0); Start 1; Start 1; Start 1; Tick 60;
      Loop 0; Loop 0; Start 1; Start 1; Start 1].

(** One request at a time: after a first sweep the interval is set to 0
    between the test of line 285 and the sleep of line 289. *)
Definition zero_sleep : list label :=
  first_start 0 ++ to_sleep 0
  ++ [Tick 60; Loop 0; Loop 0; Loop 0; Loop 0; Loop 0;
      Configure (Some 0); Loop 0; Loop 0; Loop 0].

(** One second into an hour of sleep, a settings request asks the loop
    to stop. *)
Definition stop_request : list label :=
  first_start 0 ++ to_sleep 0
  ++ [Tick 1; Configure (Some 5); Start 1; Start 1; Start 1].





(** Where these runs lead. *)
Definition two_loops : state :=
  {| now := 180; BATCH_INTERVAL_MINUTES := 2;
     batch_thread := Some 2%nat; batch_thread_stop_event := false;
     threads := [Exited; InSweep; InSweep]; callers := [Done; Done; Done];
     dispatches := [{| at_time := 180; slept := 120 |};
                    {| at_time := 180; slept := 120 |}];
     log := [LBatchThreadStarted 1; LLoopStarted 1;
             LBatchThreadStarted 2; LBatchThreadStarted 2;
             LLoopStarted 2; LLoopStarted 2; LTriggerStarted;
             LTriggerStarted] |}.

Definition switched_off : state :=
  {| now := 60; BATCH_INTERVAL_MINUTES := 0;
     batch_thread := Some 0%nat; batch_thread_stop_event := false;
     threads := [Exited]; callers := [Done; Done];
     dispatches := [];
     log := [LBatchThreadStarted 1; LLoopStarted 1; LBatchThreadNotStarted] |}.

Definition slept_zero : state :=
  {| now := 60; BATCH_INTERVAL_MINUTES := 0;
     batch_thread := Some 0%nat; batch_thread_stop_event := false;
     threads := [InSweep]; callers := [Done; AtStart];
     dispatches := [{| at_time := 60; slept := 60 |};
                    {| at_time := 60; slept := 0 |}];
     log := [LBatchThreadStarted 1; LLoopStarted 1; LTriggerStarted;
             LTriggerFinished; LTriggerStarted] |}.

Definition asked_to_stop : state :=
  {| now := 1; BATCH_INTERVAL_MINUTES := 5;
     batch_thread := Some 0%nat; batch_thread_stop_event := true;
     threads := [Sleeping 3600 3600]; callers := [Done; Joining 0];
     dispatches := [];
     log := [LBatchThreadStarted 60; LLoopStarted 60] |}.





End Scheduler.

(* ===================================================================== *)
(** * Webhook ingress                                                     *)
(* ===================================================================== *)

Module Webhook.
Import Py.

(** What [json.loads] returns: [None], [bool], numbers, [str], [list],
    [dict] as the list of its items (keys are distinct), and the floats
    it reads from [Infinity], [-Infinity] and [NaN]. *)
#[warnings="-register-all"]
Inductive json : Type :=
| JNull
| JBool (b : bool)
| JNum (q : Q)
| JStr (s : string)
| JArr (items : list json)
| JObj (items : list (string * json))
| JInf (negative : bool)
| JNaN.

Fixpoint dict_get (key : string) (default : json)
    (items : list (string * json)) : json :=
  match items with
  | [] => default
  | (k, v) :: rest =>
      if bool_decide (k = key) then v else dict_get key default rest
  end.

Definition attribute_error {A} : result A :=
  raise (PyException "AttributeError").

(** [v.get(key, default)]: only a [dict] has the method. *)
Definition py_get (v : json) (key : string) (default : json) : result json :=
  match v with
  | JObj items => ret (dict_get key default items)
  | _ => attribute_error
  end.

(** [str.lower] on the ASCII letters; no other character lowers to one
    of the letters of ["new"]. *)
Definition lower_ascii (c : ascii) : ascii :=
  let n := nat_of_ascii c in
  if (65 <=? n)%nat && (n <=? 90)%nat then ascii_of_nat (n + 32) else c.

Fixpoint lower (s : string) : string :=
  match s with
  | EmptyString => EmptyString
  | String c rest => String (lower_ascii c) (lower rest)
  end.

(** [v.lower()]: only a [str] has the method. *)
Definition py_lower (v : json) : result string :=
  match v with
  | JStr s => ret (lower s)
  | _ => attribute_error
  end.

(** [needle in hay] for two strings. *)
Fixpoint contains (needle hay : string) : bool :=
  String.prefix needle hay ||
  match hay with
  | EmptyString => false
  | String _ rest => contains needle rest
  end.


(** [v in names] for a list of strings: [==] between a [str] and a value
    of another type is [False]. *)
Definition py_in (v : json) (names : list string) : bool :=
  match v with
  | JStr s => bool_decide (s ∈ names)
  | _ => false
  end.

Definition is_object (v : json) : bool :=
  match v with JObj _ => true | _ => false end.



Inductive log_event : Type :=
| LReceived
| LNoPayload
| LWebhook (event section : json)
| LWebhookError (msg : string).

(** The reply of the route, whether a thread running
    [rate_new_tracks(limit=BATCH_SIZE)] was started, and the log. *)
Record reply : Type := {
  body : string;
  status : nat;
  dispatched : bool;
  log : list log_event
}.

(** Lines 386-387. *)
Definition fields (data : json) : result (json * json) :=
  bind (py_get data "event" (JStr "")) (fun event =>
  bind (py_get data "Metadata" (JObj [])) (fun metadata =>
  bind (py_get metadata "librarySectionTitle" (JStr "")) (fun section =>
  ret (event, section)))).

Section Handler.
(** [json.loads]: the document, or [None] for a [JSONDecodeError]. *)
Variable json_loads : string -> option json.
Variable SELECTED_LIBRARIES : list string.

Definition loads (payload : string) : result json :=
  match json_loads payload with
  | Some data => ret data
  | None => raise (PyException "JSONDecodeError")
  end.

Definition missing_payload : reply :=
  {| body := "Bad Request: Missing payload"; status := 400;
     dispatched := false; log := [LReceived; LNoPayload] |}.

Definition error_reply (before : list log_event) (e : exn) : reply :=
  {| body := "Error"; status := 500; dispatched := false;
     log := before ++ [LWebhookError (exn_msg e)] |}.

(** [plex_webhook()] (lines 378-397); [payload] is
    [request.form.get('payload')]. *)
Definition plex_webhook (payload : option string) : reply :=
  match payload with
  | None => missing_payload
  | Some p =>
      if bool_decide (p = "") then missing_payload
      else
        match bind (loads p) fields with
        | inl e => error_reply [LReceived] e
        | inr (event, section) =>
            match py_lower event with
            | inl e => error_reply [LReceived; LWebhook event section] e
            | inr lowered =>
                if contains "new" lowered && py_in section SELECTED_LIBRARIES
                then {| body := ""; status := 204; dispatched := true;
                        log := [LReceived; LWebhook event section] |}
                else {| body := "Ignored"; status := 200; dispatched := false;
                        log := [LReceived; LWebhook event section] |}
            end
        end
  end.


End Handler.

(** A parser given by a table of the documents it accepts, to run the
    handler on concrete payloads. *)
Definition table_loads (table : list (string * json)) (payload : string)
  : option json :=
  snd <$> find (fun row => bool_decide (fst row = payload)) table.

Definition documents : list (string * json) :=
  [("new music",
    JObj [("event", JStr "library.new");
          ("Metadata", JObj [("librarySectionTitle", JStr "Music")])]);
   ("NEW music",
    JObj [("event", JStr "Library.NEW");
          ("Metadata", JObj [("librarySectionTitle", JStr "Music")])]);
   ("new films",
    JObj [("event", JStr "library.new");
          ("Metadata", JObj [("librarySectionTitle", JStr "Films")])]);
   ("play music",
    JObj [("event", JStr "media.play");
          ("Metadata", JObj [("librarySectionTitle", JStr "Music")])]);
   ("no fields", JObj []);
   ("a list", JArr []);
   ("event 5", JObj [("event", JNum 5)]);
   ("metadata null",
    JObj [("event", JStr "library.new"); ("Metadata", JNull)])].

End Webhook.

(* ===================================================================== *)
(** * Settings update                                                     *)
(* ===================================================================== *)

Module Settings.
Import Py.

(** The fields of the submitted form: [request.form.getlist] for the
    libraries, [request.form.get] for the others. *)
Record form : Type := {
  libs : list string;
  style : option string;
  val : option string;
  override : option string;
  batch_interval : option string
}.

Record globals : Type := {
  SELECTED_LIBRARIES : list string;
  rating : Sweep.config;
  BATCH_INTERVAL_MINUTES : option Z
}.

Inductive log_event : Type :=
| LLibrariesChanged (names : list string)
| LInvalidLibraries
| LInvalidStyle (style : option string)
| LInvalidValue (val : option string) (msg : string)
| LIntervalSet (minutes : Z)
| LInvalidInterval (batch_interval : option string) (msg : string)
| LStyleValue (style value : pyval)
| LOverride (override : bool).

(** [x % 1 != 0] is false exactly on whole numbers. *)
Definition is_whole (q : Q) : bool :=
  (Qnum q mod Zpos (Qden q) =? 0)%Z.

(** [(x * 2) % 1 != 0] for a float [x]: the remainder of an infinity
    or of NaN is NaN, which differs from 0. *)
Definition off_half_step (x : pyfloat) : bool :=
  match x with
  | Finite q => negb (is_whole (q * 2))
  | Infinity _ | NaN => true
  end.

Definition valid_style (s : string) : bool :=
  bool_decide (s ∈ ["1star"; "5stars"; "5stars_half"]).

Section Handler.
(** [float(s)] and [int(s)] on a string: the value, or [None] for a
    [ValueError]. *)
Variable py_float : string -> option pyfloat.
Variable py_int : string -> option Z.

(** The outcome of a [try] body that raises [Exception]s only: the
    message of the exception, or the value. *)
Definition to_float (val : option string) : string + pyfloat :=
  match val with
  | None => inl "TypeError"
  | Some s =>
      match py_float s with Some x => inr x | None => inl "ValueError" end
  end.

Definition to_int (val : option string) : string + Z :=
  match val with
  | None => inl "TypeError"
  | Some s =>
      match py_int s with Some n => inr n | None => inl "ValueError" end
  end.

(** Lines 443-456: the value to store, or the message of the exception
    raised. *)
Definition check_rating_value (style : pyval) (val : option string)
  : string + pyval :=
  if eq_str style "1star" then
    match to_float val with
    | inl msg => inl msg
    | inr val_f =>
        if float_lt val_f 0 || float_gt val_f 1
        then inl "1star rating must be 0 or 1"
        else inr (of_float val_f)
    end
  else if eq_str style "5stars" then
    match to_int val with
    | inl msg => inl msg
    | inr val_f =>
        if ((val_f <? 1) || (val_f >? 5))%Z
        then inl "5stars rating must be 1-5 integer"
        else inr (PInt val_f)
    end
  else if eq_str style "5stars_half" then
    match to_float val with
    | inl msg => inl msg
    | inr val_f =>
        if float_lt val_f 1 || float_gt val_f 5 || off_half_step val_f
        then inl "5stars_half rating must be 1-5 in 0.5 steps"
        else inr (of_float val_f)
    end
  else inr (PNum 5).


(** Lines 463-470. *)
Definition check_batch_interval (batch_interval : option string)
  : string + Z :=
  match to_int batch_interval with
  | inl msg => inl msg
  | inr batch_int =>
      if (batch_int <? 0)%Z then inl "Batch interval must be >= 0"
      else inr batch_int
  end.

(** The POST branch of [settings()] (lines 423-473) on the globals;
    [libraries] is the result of [get_music_libraries()].  The handler
    then re-resolves [music_libs] with [load_music_libs], saves the
    settings and calls [start_batch_thread]; the log returned here holds
    the entries the branch writes itself. *)
Definition settings_post (libraries : list string) (f : form) (g : globals)
  : globals * list log_event :=
  let valid_libs := filter (fun lib => lib ∈ libraries) (libs f) in
  let '(selected, log1) :=
    match valid_libs with
    | [] => (SELECTED_LIBRARIES g, [LInvalidLibraries])
    | _ :: _ => (valid_libs, [LLibrariesChanged valid_libs])
    end in
  let '(new_style, log2) :=
    match style f with
    | Some s =>
        if valid_style s then (PStr s, [])
        else (Sweep.TARGET_RATING_STYLE (rating g), [LInvalidStyle (Some s)])
    | None => (Sweep.TARGET_RATING_STYLE (rating g), [LInvalidStyle None])
    end in
  let '(new_value, log3) :=
    match check_rating_value new_style (val f) with
    | inr val_f => (val_f, [])
    | inl msg =>
        (Sweep.TARGET_RATING_VALUE (rating g), [LInvalidValue (val f) msg])
    end in
  let new_override := bool_decide (override f = Some "on") in
  let '(new_interval, log4) :=
    match check_batch_interval (batch_interval f) with
    | inr batch_int => (Some batch_int, [LIntervalSet batch_int])
    | inl msg =>
        (BATCH_INTERVAL_MINUTES g, [LInvalidInterval (batch_interval f) msg])
    end in
  ({| SELECTED_LIBRARIES := selected;
      rating := {| Sweep.TARGET_RATING_STYLE := new_style;
                   Sweep.TARGET_RATING_VALUE := new_value;
                   Sweep.OVERRIDE_RATING := new_override |};
      BATCH_INTERVAL_MINUTES := new_interval |},
   log1 ++ log2 ++ log3 ++ log4
     ++ [LStyleValue new_style new_value; LOverride new_override]).

End Handler.

(** [int] and [float] on the strings of one to fifteen ASCII digits,
    where they agree with Python and the float is the integer itself;
    every other string is refused.  Used to run the handler on concrete
    forms. *)
Definition int_of_digits (s : string) : option Z :=
  if bool_decide (s = "") || (15 <? String.length s)%nat then None
  else Z.of_uint <$> NilEmpty.uint_of_string s.

Definition float_of_digits (s : string) : option pyfloat :=
  (fun n => Finite (inject_Z n)) <$> int_of_digits s.

(** The same, with the words [float] reads as NaN and as the
    infinities. *)
Definition float_of_text (s : string) : option pyfloat :=
  if bool_decide (s = "nan") then Some NaN
  else if bool_decide (s = "inf") then Some (Infinity false)
  else if bool_decide (s = "-inf") then Some (Infinity true)
  else float_of_digits s.


Definition five_stars_prior : globals :=
  {| SELECTED_LIBRARIES := ["Music"];
     rating := {| Sweep.TARGET_RATING_STYLE := PStr "5stars";
                  Sweep.TARGET_RATING_VALUE := PNum 3;
                  Sweep.OVERRIDE_RATING := false |};
     BATCH_INTERVAL_MINUTES := Some 60%Z |}.

(** [rating_style=5stars], [rating_value=7], the override box ticked. *)
Definition seven_for_five : form :=
  {| libs := ["Music"]; style := Some "5stars"; val := Some "7";
     override := Some "on"; batch_interval := Some "60" |}.

Definition four_for_five : form :=
  {| libs := ["Music"]; style := Some "5stars"; val := Some "4";
     override := None; batch_interval := Some "60" |}.


End Settings.

(* ===================================================================== *)
(** * Environment                                                        *)
(* ===================================================================== *)

Module Env.
Import Py.

(** [os.getenv]: the environment of the process.  A string is a
    sequence of characters with code points below 256. *)
Definition environ : Type := string -> option string.

(** [str.isspace] on these characters: tab to carriage return, the four
    separators 28-31, the space, next line (133) and the no-break space
    (160). *)
Definition is_space (c : ascii) : bool :=
  let n := nat_of_ascii c in
  ((9 <=? n) && (n <=? 13) || (28 <=? n) && (n <=? 32)
   || (n =? 133) || (n =? 160))%nat.

Definition comma : ascii := ascii_of_nat 44.

(** [s.split(',')]: one piece more than there are commas. *)
Fixpoint split_comma (s : string) : list string :=
  match s with
  | EmptyString => [EmptyString]
  | String c rest =>
      if Ascii.eqb c comma then EmptyString :: split_comma rest
      else match split_comma rest with
           | piece :: pieces => String c piece :: pieces
           | [] => [String c EmptyString]
           end
  end.

Fixpoint lstrip (s : string) : string :=
  match s with
  | EmptyString => EmptyString
  | String c rest => if is_space c then lstrip rest else s
  end.

Fixpoint rstrip (s : string) : string :=
  match s with
  | EmptyString => EmptyString
  | String c rest =>
      match rstrip rest with
      | EmptyString => if is_space c then EmptyString else String c EmptyString
      | kept => String c kept
      end
  end.

(** [s.strip()] *)
Definition strip (s : string) : string := rstrip (lstrip s).

(** [','.join(names)] *)
Definition join_comma (names : list string) : string :=
  String.concat (String comma EmptyString) names.

Definition getenv_str (env : environ) (name : string) : option string :=
  match env name with
  | Some val => if bool_decide (val = "") then None else Some val
  | None => None
  end.

Section Parsers.
(** [float(s)] and [int(s)]: the value, or [None] for a [ValueError]. *)
Variable py_float : string -> option pyfloat.
Variable py_int : string -> option Z.

Definition getenv_float (env : environ) (name : string)
  : option pyfloat :=
  match getenv_str env name with
  | None => None
  | Some val => py_float val
  end.

Definition getenv_int (env : environ) (name : string) : option Z :=
  match getenv_str env name with
  | None => None
  | Some val => py_int val
  end.

End Parsers.

(** [val.lower() in ('true', '1', 'yes')]: a character outside [A-Z]
    lowers to none of the characters of these words. *)
Definition getenv_bool (env : environ) (name : string) : bool :=
  match getenv_str env name with
  | None => false
  | Some val => bool_decide (Webhook.lower val ∈ ["true"; "1"; "yes"])
  end.

Definition getenv_list (env : environ) (name : string) : list string :=
  match getenv_str env name with
  | Some val =>
      strip <$> filter (fun v => strip v <> "") (split_comma val)
  | None => []
  end.

Fixpoint has_char (c : ascii) (s : string) : bool :=
  match s with
  | EmptyString => false
  | String d rest => Ascii.eqb d c || has_char c rest
  end.

(** A name that survives [getenv_list] unchanged. *)
Definition clean (name : string) : Prop :=
  name <> "" /\ has_char comma name = false /\ strip name = name.

Definition head_char (s : string) : option ascii :=
  match s with
  | EmptyString => None
  | String c _ => Some c
  end.

Fixpoint last_char (s : string) : option ascii :=
  match s with
  | EmptyString => None
  | String c rest =>
      match last_char rest with
      | Some d => Some d
      | None => Some c
      end
  end.

(** The characters [strip()] takes off, by code point: tab, line feed,
    vertical tab, form feed, carriage return, the separators 28-31, the
    space, next line and the no-break space. *)
Definition white_space : list ascii :=
  ascii_of_nat <$> [9; 10; 11; 12; 13; 28; 29; 30; 31; 32; 133; 160]%nat.

(** A name as [getenv_list] hands it out: not empty, no comma in it,
    neither its first nor its last character white space. *)
Definition plain (name : string) : Prop :=
  name <> ""
  /\ (forall pre post, name <> pre +:+ String "," post)
  /\ (forall c, head_char name = Some c \/ last_char name = Some c ->
                c ∉ white_space).

End Env.

(* ===================================================================== *)
(** * Sessions and login                                                 *)
(* ===================================================================== *)

Module Auth.
Local Open Scope Q_scope.

(** The two keys the application ever writes into the Flask session:
    ['app_start_time'] ([None] when absent) and ['logged_in'] (present
    and [True], or absent). *)
Record session : Type := {
  app_start_time : option Q;
  logged_in : bool
}.

(** [session.clear()] *)
Definition cleared : session :=
  {| app_start_time := None; logged_in := false |}.

Inductive request : Type :=
| GetLogin
| PostLogin (username password next : option string)
| Logout
| Protected (route : string).   (* any view under [@login_required] *)

Inductive response : Type :=
| LoginPage (error : option string)      (* the login form *)
| RedirectTo (url : string)              (* [redirect(next_page)] *)
| RedirectLogin                          (* [redirect(url_for('login'))] *)
| RedirectLoginNext (req : request)      (* ... with [next=request.url] *)
| View (route : string).                 (* the decorated view ran *)

Section App.
(** [app_start_time = time.time()] of this process, and the credentials
    read by [getenv_str]. *)
Variable start : Q.
Variable APP_USERNAME APP_PASSWORD : option string.

(** [force_logout_on_restart()] (lines 37-41), run before every
    request. *)
Definition force_logout_on_restart (s : session) : session :=
  let same := match app_start_time s with
              | Some last_start => Qeq_bool last_start start
              | None => false
              end in
  if same then s
  else {| app_start_time := Some start; logged_in := false |}.

(** [check_auth(username, password)] (line 182): a [str] never equals
    [None]. *)
Definition check_auth (username password : string) : bool :=
  bool_decide (Some username = APP_USERNAME)
  && bool_decide (Some password = APP_PASSWORD).

(** [request.form.get(key, '')] *)
Definition form_get (field : option string) : string :=
  match field with Some v => v | None => "" end.

(** The views, after [force_logout_on_restart]: [login] (lines 193-220),
    [logout] (223-226) and the wrapper of [login_required] (186-189)
    around every other view. *)
Definition view (req : request) (s : session) : response * session :=
  match req with
  | GetLogin => (LoginPage None, s)
  | PostLogin username password next =>
      if check_auth (form_get username) (form_get password) then
        let s' := {| app_start_time := app_start_time s; logged_in := true |} in
        match next with
        | Some url =>
            if bool_decide (url = "") then (RedirectTo "/", s')
            else (RedirectTo url, s')
        | None => (RedirectTo "/", s')
        end
      else (LoginPage (Some "Invalid credentials"), s)
  | Logout =>
      if logged_in s then (RedirectLogin, cleared)
      else (RedirectLoginNext req, s)
  | Protected route =>
      if logged_in s then (View route, s)
      else (RedirectLoginNext req, s)
  end.

Definition handle (req : request) (s : session) : response * session :=
  view req (force_logout_on_restart s).

(** A browser sending requests one after the other, each with the
    session the previous reply set. *)
Fixpoint browse (reqs : list request) (s : session)
  : list response * session :=
  match reqs with
  | [] => ([], s)
  | req :: rest =>
      let '(resp, s1) := handle req s in
      let '(resps, s2) := browse rest s1 in
      (resp :: resps, s2)
  end.

Definition accepted (req : request) : bool :=
  match req with
  | PostLogin username password _ =>
      check_auth (form_get username) (form_get password)
  | _ => false
  end.

Definition is_view (r : response) : bool :=
  match r with View _ => true | _ => false end.

End App.

End Auth.

(* ===================================================================== *)
(** * The settings file                                                  *)
(* ===================================================================== *)

Module SettingsFile.
Import Webhook.

(** A settings [dict]: string keys, JSON values. *)
Abbreviation settings := (gmap string json).

(** [config/settings.json]: absent; there but [open] or [json.load]
    raises; or holding a document. *)
Inductive file : Type :=
| Missing
| Unreadable
| Holds (doc : json).

(** The disk: the file, and whether it can be (re)written. *)
Record disk : Type := { content : file; writable : bool }.

Inductive log_event : Type :=
| LSaved
| LSaveError
| LNotFound
| LLoaded
| LLoadFailed.

(** [bool(v)] *)
Definition truthy (v : json) : bool :=
  match v with
  | JNull => false
  | JBool b => b
  | JNum q => negb (Qeq_bool q 0)
  | JStr s => negb (bool_decide (s = ""))
  | JArr items => negb (bool_decide (items = []))
  | JObj items => match items with [] => false | _ :: _ => true end
  | JInf _ | JNaN => true
  end.

(** The [dict] a JSON object loads as, and the object a [dict] is
    dumped as. *)
Definition dict_of (items : list (string * json)) : settings :=
  list_to_map items.

Definition dump (s : settings) : json := JObj (map_to_list s).

(** [save_settings(settings)] (lines 114-121): when the file cannot be
    opened for writing it is left as it was. *)
Definition save_settings (s : settings) (d : disk) : disk * list log_event :=
  if writable d then
    ({| content := Holds (dump s); writable := true |}, [LSaved])
  else (d, [LSaveError]).

(** [{**DEFAULT_SETTINGS, **data}] then line 134. *)
Definition merge (DEFAULT_SETTINGS data : settings) : settings :=
  let merged := data ∪ DEFAULT_SETTINGS in
  <["override_rating" :=
      JBool (truthy (default (JBool false) (merged !! "override_rating")))]>
    merged.

(** [load_settings()] (lines 123-138). *)
Definition load_settings (DEFAULT_SETTINGS : settings) (d : disk)
  : settings * disk * list log_event :=
  match content d with
  | Missing =>
      let '(d', l) := save_settings DEFAULT_SETTINGS d in
      (DEFAULT_SETTINGS, d', LNotFound :: l)
  | Unreadable => (DEFAULT_SETTINGS, d, [LLoadFailed])
  | Holds (JObj items) =>
      (merge DEFAULT_SETTINGS (dict_of items), d, [LLoaded])
  | Holds _ =>
      (* a document that is not a mapping: [**data] raises [TypeError] *)
      (DEFAULT_SETTINGS, d, [LLoaded; LLoadFailed])
  end.

(** [settings.get(key, default)] *)
Definition settings_get (s : settings) (key : string) (fallback : json)
  : json :=
  default fallback (s !! key).

(** A value that may be [None]. *)
Definition opt_json {A} (f : A -> json) (v : option A) : json :=
  match v with Some a => f a | None => JNull end.

Definition json_of (v : Py.pyval) : json :=
  match v with
  | Py.PNone => JNull
  | Py.PNum q => JNum q
  | Py.PStr s => JStr s
  | Py.PInt n => JNum (inject_Z n)
  | Py.PInf negative => JInf negative
  | Py.PNaN => JNaN
  end.

Definition json_float (x : Py.pyfloat) : json := json_of (Py.of_float x).

Definition json_int (n : Z) : json := JNum (inject_Z n).

Section Defaults.
Variable py_float : string -> option Py.pyfloat.
Variable py_int : string -> option Z.

(** [DEFAULT_SETTINGS] (lines 87-93), read from the environment. *)
Definition DEFAULT_SETTINGS (env : Env.environ) : settings :=
  {[ "libraries" := JArr (JStr <$> Env.getenv_list env "LIBRARY_NAME");
     "rating_style" := opt_json JStr (Env.getenv_str env "RATING_STYLE");
     "rating_value" :=
       opt_json json_float
         (Env.getenv_float py_float env "TARGET_RATING");
     "override_rating" := JBool (Env.getenv_bool env "OVERRIDE_RATING");
     "batch_interval_minutes" :=
       opt_json json_int
         (Env.getenv_int py_int env "BATCH_INTERVAL_MINUTES") ]}.

End Defaults.

(** [new_settings] (lines 475-481): what a settings request saves. *)
Definition new_settings (g : Settings.globals) : settings :=
  {[ "libraries" := JArr (JStr <$> Settings.SELECTED_LIBRARIES g);
     "rating_style" :=
       json_of (Sweep.TARGET_RATING_STYLE (Settings.rating g));
     "rating_value" :=
       json_of (Sweep.TARGET_RATING_VALUE (Settings.rating g));
     "override_rating" := JBool (Sweep.OVERRIDE_RATING (Settings.rating g));
     "batch_interval_minutes" :=
       opt_json json_int (Settings.BATCH_INTERVAL_MINUTES g) ]}.

(** The keys lines 167-172 read. *)
Definition keys : list string :=
  ["libraries"; "rating_style"; "rating_value"; "override_rating";
   "batch_interval_minutes"].

End SettingsFile.

(* ===================================================================== *)
(** * The libraries of the server                                        *)
(* ===================================================================== *)

Module Libraries.

(** A section of [plex.library.sections()]. *)
Record section_info : Type := { sec_title : string; sec_type : string }.

Inductive log_event : Type :=
| LFetchLibrariesError (msg : string).

Definition is_music (s : section_info) : bool :=
  bool_decide (sec_type s ∈ ["music"; "artist"]).

(** [get_music_libraries()] (lines 142-147); [sections] is what
    [plex.library.sections()] returns, or the message of the exception
    it raises. *)
Definition get_music_libraries (sections : string + list section_info)
  : list string * list log_event :=
  match sections with
  | inr secs => (sec_title <$> filter (fun s => is_music s = true) secs, [])
  | inl msg => ([], [LFetchLibrariesError msg])
  end.

End Libraries.

(* ===================================================================== *)
(** * Calls that reach the server                                        *)
(* ===================================================================== *)

Module Traffic.
Import Py RatingEngine Classify Sweep.

(** Every [rate] call that [m] issues satisfies [P], whether [m] returns
    or raises. *)
Definition sends {A} (P : string * option Q -> Prop) (m : M A) : Prop :=
  forall w, exists added,
    calls (snd (m w)) = calls w ++ added /\ Forall P added.

(** A call the sweep is entitled to: the target, for a track that one
    of the libraries handed over and that has no rating, or has one away
    from the target while overriding is on. *)
Definition sweep_call (cfg : config) (limit : option Z)
    (libs : list library) (call : string * option Q) : Prop :=
  exists lib t,
    lib ∈ libs /\ t ∈ fetched limit lib
    /\ call = (title t, Some (target cfg))
    /\ (userRating t = None
        \/ (OVERRIDE_RATING cfg = true
            /\ exists c, userRating t = Some c
                         /\ (1 # 100) < Qabs (c - target cfg))).

(** A call a reset is entitled to: [rate(None)] on a track that one of
    the libraries handed over and that has a rating. *)
Definition reset_call (libs : list library) (call : string * option Q)
  : Prop :=
  exists lib t,
    lib ∈ libs /\ t ∈ reset_fetched lib /\ is_Some (userRating t)
    /\ call = (title t, None).

End Traffic.

(* ===================================================================== *)
(** * Subscribers of the log                                             *)
(* ===================================================================== *)

Module Subscribers.
Import EventLog.

Definition is_subscribe (o : op) : bool :=
  match o with Subscribe => true | _ => false end.

(** Subscriber [h] takes no turn in [ops]: its client has gone away, or
    does not read. *)
Definition silent (h : nat) (ops : list op) : Prop :=
  Forall (fun o => o <> Turn h) ops.

(** One subscriber, nothing appended yet. *)
Definition one_subscriber : state * list (nat * string) :=
  (snd (stream empty), []).

End Subscribers.

(* ===================================================================== *)
(** * Upkeep of the periodic loop                                        *)
(* ===================================================================== *)

Module Upkeep.
Import Scheduler.
Local Open Scope Z_scope.

(** A call that has started its loop, or is over. *)
Definition settled (p : caller_pc) : bool :=
  match p with AtLog | Done => true | _ => false end.

(** When every call is settled and the interval is positive and not
    beyond what [time.sleep] takes, the loop [batch_thread] names is
    alive. *)
Definition kept (s : state) : Prop :=
  (forall j q, callers s !! j = Some q -> settled q = true) ->
  0 < BATCH_INTERVAL_MINUTES s ->
  BATCH_INTERVAL_MINUTES s * 60 <= sleep_limit ->
  exists t, batch_thread s = Some t /\ is_alive s t = true.

(** A stretch of a run with no settings request in it. *)
Definition quiet (ls : list label) : bool :=
  forallb (fun l => negb (is_configure l)) ls.

(** The threads can move on from [s], with no settings request and
    without starting a sweep, to a state where thread [t] is over and
    the calls are where they were. *)
Definition drains (t : nat) (s : state) : Prop :=
  exists ls s',
    quiet ls = true /\ exec false ls s = Some s'
    /\ is_alive s' t = false /\ callers s' = callers s
    /\ dispatches s' = dispatches s.

(** The same, to a state where no call is under way. *)
Definition completes (s : state) : Prop :=
  exists ls s',
    quiet ls = true /\ exec false ls s = Some s'
    /\ idle s' = true /\ dispatches s' = dispatches s.

End Upkeep.

(* ===================================================================== *)
(** * Properties                                                          *)
(* ===================================================================== *)

(** ** Python arithmetic *)

Section PyFacts.
Import Py.

Lemma Qltb_lt (a b : Q) : Qltb a b = true <-> a < b.
Proof.
  unfold Qltb. rewrite negb_true_iff.
  split; intros H.
  - apply Qnot_le_lt. intros Hle. apply Qle_bool_iff in Hle. congruence.
  - destruct (Qle_bool b a) eqn:E; [|reflexivity].
    apply Qle_bool_iff in E. exfalso. exact (Qlt_not_le _ _ H E).
Qed.

Lemma Qltb_ge (a b : Q) : Qltb a b = false <-> b <= a.
Proof.
  unfold Qltb. rewrite negb_false_iff. apply Qle_bool_iff.
Qed.

Lemma py_min_Qmin (a b : Q) : py_min a b == Qmin a b.
Proof.
  unfold py_min. destruct (Qltb b a) eqn:E.
  - apply Qltb_lt in E. symmetry. apply Q.min_r. lra.
  - apply Qltb_ge in E. symmetry. apply Q.min_l. exact E.
Qed.

Lemma py_max_Qmax (a b : Q) : py_max a b == Qmax a b.
Proof.
  unfold py_max. destruct (Qltb a b) eqn:E.
  - apply Qltb_lt in E. symmetry. apply Q.max_r. lra.
  - apply Qltb_ge in E. symmetry. apply Q.max_l. exact E.
Qed.

Lemma py_abs_Qabs (a : Q) : py_abs a == Qabs a.
Proof.
  unfold py_abs. destruct (Qltb a 0) eqn:E.
  - apply Qltb_lt in E. symmetry. apply Qabs_neg. lra.
  - apply Qltb_ge in E. symmetry. apply Qabs_pos. exact E.
Qed.

Lemma two_nonzero : ~ 2 == 0.
Proof. discriminate. Qed.

Lemma pow2_pos (e : Z) : 0 < 2 ^ e.
Proof. apply Qpower_0_lt. reflexivity. Qed.

Lemma nearest_even_le (y : Q) (K : Z) :
  y <= inject_Z K -> (nearest_even y <= K)%Z.
Proof.
  intros Hy. unfold nearest_even.
  pose proof (Qfloor_le y) as Hf.
  assert (HfK : (Qfloor y <= K)%Z).
  { rewrite <- (Qfloor_Z K). apply Qfloor_resp_le. exact Hy. }
  destruct (Z.eq_dec (Qfloor y) K) as [Heq|Hne].
  - assert (Hr : Qltb (y - inject_Z (Qfloor y)) (1 # 2) = true).
    { apply Qltb_lt. rewrite Heq in *. lra. }
    rewrite Hr. lia.
  - destruct (Qltb _ _); [lia|]. destruct (Qltb _ _); [lia|].
    destruct (Z.even _); lia.
Qed.

Lemma nearest_even_nonneg (y : Q) : 0 <= y -> (0 <= nearest_even y)%Z.
Proof.
  intros Hy. unfold nearest_even.
  assert (Hf : (0 <= Qfloor y)%Z).
  { change 0%Z with (Qfloor 0). apply Qfloor_resp_le. exact Hy. }
  destruct (Qltb _ _); [lia|]. destruct (Qltb _ _); [lia|].
  destruct (Z.even _); lia.
Qed.

(** The exponent is not too high: [2^(e+52) <= a]. *)
Lemma exponent64_low (a : Q) : 0 < a -> 2 ^ (exponent64 a + 52) <= a.
Proof.
  intros Ha. unfold exponent64.
  set (k := (Z.log2 (Qnum a) - Z.log2 (Z.pos (Qden a)))%Z).
  destruct (Qle_bool (2 ^ k) a) eqn:Hk.
  - apply Qle_bool_iff in Hk.
    replace (k - 52 + 52)%Z with k by lia. exact Hk.
  - replace (k - 1 - 52 + 52)%Z with (k - 1)%Z by lia.
    destruct a as [n d]. subst k. cbn [Qnum Qden] in *.
    assert (Hn : (0 < n)%Z).
    { unfold Qlt in Ha. simpl in Ha. lia. }
    pose proof (Z.log2_spec n Hn) as [Hn1 _].
    pose proof (Z.log2_spec (Z.pos d) (Pos2Z.is_pos d)) as [_ Hd2].
    pose proof (Z.log2_nonneg n) as Hln.
    pose proof (Z.log2_nonneg (Z.pos d)) as Hld.
    replace (Z.log2 n - Z.log2 (Z.pos d) - 1)%Z
      with (Z.log2 n - Z.succ (Z.log2 (Z.pos d)))%Z by lia.
    rewrite Qpower_minus by exact two_nonzero.
    rewrite <- !(Zpower_Qpower 2) by lia.
    set (P := (2 ^ Z.log2 n)%Z) in *.
    set (R := (2 ^ Z.succ (Z.log2 (Z.pos d)))%Z) in *.
    assert (HR : (0 < R)%Z) by lia.
    apply Qle_shift_div_r; [change 0 with (inject_Z 0); rewrite <- Zlt_Qlt; exact HR|].
    unfold Qle, Qmult, inject_Z. simpl.
    rewrite !Z.mul_1_r. nia.
Qed.

(** Rounding does not pass a float that the exact value does not
    pass. *)
Lemma round64_le (a : Q) (M E : Z) :
  0 < a -> a <= inject_Z M * 2 ^ E -> inject_Z M * 2 ^ E < 2 ^ (E + 53) ->
  inject_Z (nearest_even (a / 2 ^ exponent64 a)) * 2 ^ exponent64 a
  <= inject_Z M * 2 ^ E.
Proof.
  intros Ha HaD HD.
  pose proof (exponent64_low a Ha) as Hlow.
  set (e := exponent64 a) in *.
  assert (He : (e <= E)%Z).
  { assert (H : 2 ^ (e + 52) < 2 ^ (E + 53)) by lra.
    apply Qpower_lt_compat_l_inv in H; [lia|reflexivity]. }
  pose proof (pow2_pos e) as Hpe.
  assert (HK : inject_Z (M * 2 ^ (E - e)) * 2 ^ e == inject_Z M * 2 ^ E).
  { rewrite inject_Z_mult, Zpower_Qpower by lia.
    rewrite <- Qmult_assoc, <- Qpower_plus by exact two_nonzero.
    replace (E - e + e)%Z with E by lia. reflexivity. }
  rewrite <- HK.
  apply Qmult_le_compat_r; [|lra].
  rewrite <- Zle_Qle. apply nearest_even_le.
  apply Qle_shift_div_r; [exact Hpe|]. rewrite HK. exact HaD.
Qed.

Lemma round64_abs (x : Q) :
  ~ x == 0 ->
  py_abs (round64 x)
  == inject_Z (nearest_even (Qabs x / 2 ^ exponent64 (Qabs x)))
     * 2 ^ exponent64 (Qabs x).
Proof.
  intros Hx. unfold round64.
  destruct (Qeq_bool x 0) eqn:H0; [apply Qeq_bool_iff in H0; contradiction|].
  set (m := inject_Z _ * _).
  assert (Hm : 0 <= m).
  { unfold m. apply Qmult_le_0_compat; [|apply Qlt_le_weak, pow2_pos].
    change 0 with (inject_Z 0). rewrite <- Zle_Qle.
    apply nearest_even_nonneg.
    apply Qle_shift_div_l; [apply pow2_pos|].
    rewrite Qmult_0_l. apply Qabs_nonneg. }
  unfold py_abs.
  destruct (Qltb x 0).
  - destruct (Qltb (- m) 0) eqn:E.
    + ring.
    + apply Qltb_ge in E. lra.
  - destruct (Qltb m 0) eqn:E; [|reflexivity].
    apply Qltb_lt in E. lra.
Qed.

Lemma round64_hundredth :
  round64 (1 # 100) == 5764607523034235 # 576460752303423488.
Proof. vm_compute. reflexivity. Qed.

End PyFacts.

(** ** RatingEngine *)

Section RatingEngineFacts.
Import Py RatingEngine.

Lemma convert_one_star (q : Q) :
  convert_to_plex_rating (PStr "1star") (PNum q)
  = if Qle_bool 1 q then 10 else 0.
Proof. reflexivity. Qed.

Lemma convert_five_stars (style : string) (q : Q) :
  style <> "1star" ->
  convert_to_plex_rating (PStr style) (PNum q)
  = py_max 2 (py_min 10 (q / 5 * 10)).
Proof.
  intros Hs. unfold convert_to_plex_rating, convert_body, eq_str.
  rewrite bool_decide_eq_false_2 by exact Hs. reflexivity.
Qed.

Lemma clamp_range (x : Q) : 2 <= py_max 2 (py_min 10 x) <= 10.
Proof.
  rewrite py_max_Qmax, py_min_Qmin.
  split.
  - apply Q.le_max_l.
  - apply Q.max_lub; [lra | apply Q.le_min_l].
Qed.

Lemma five_star_scale_range (x : pyfloat) : 2 <= five_star_scale x <= 10.
Proof.
  destruct x as [q|[]|]; simpl; try lra. apply clamp_range.
Qed.

Lemma convert_body_five_range (style value : pyval) (r : Q) :
  eq_str style "1star" = false ->
  convert_body style value = inr r -> 2 <= r <= 10.
Proof.
  unfold convert_body, div_num. intros ->.
  destruct value as [|q|s|n|b|]; try discriminate;
    try destruct (too_large n); try discriminate;
    intros [= <-];
    first [apply clamp_range
          |apply (five_star_scale_range (Infinity b))
          |apply (five_star_scale_range NaN)].
Qed.

Lemma convert_body_range (style value : pyval) (r : Q) :
  convert_body style value = inr r -> 0 <= r <= 10.
Proof.
  destruct (eq_str style "1star") eqn:Hs.
  - unfold convert_body. rewrite Hs.
    destruct value as [|q|s|n|b|]; simpl; try discriminate;
      intros [= <-].
    + destruct (Qle_bool 1 q); lra.
    + destruct (Qle_bool 1 (inject_Z n)); lra.
    + destruct b; simpl; lra.
    + lra.
  - intros H. pose proof (convert_body_five_range _ _ _ Hs H). lra.
Qed.

Lemma float_limit_large : (10 < float_limit)%Z.
Proof. vm_compute. reflexivity. Qed.

Lemma too_large_small (n : Z) : (Z.abs n <= 10)%Z -> too_large n = false.
Proof.
  intros H. unfold too_large. apply Z.leb_gt.
  pose proof float_limit_large. lia.
Qed.


(** The computation does raise: on a missing value, in either branch,
    and on an [int] beyond the floats in the division. *)
Example convert_raises_on_None :
  convert_body (PStr "1star") PNone = inl (PyException "TypeError") /\
  convert_body (PStr "5stars") PNone = inl (PyException "TypeError") /\
  convert_to_plex_rating (PStr "5stars") PNone = 6.
Proof. repeat split. Qed.

Example convert_raises_on_large_int :
  convert_body (PStr "5stars") (PInt (2 ^ 1024))
  = inl (PyException "OverflowError") /\
  convert_to_plex_rating (PStr "5stars") (PInt (2 ^ 1024)) = 6 /\
  convert_to_plex_rating (PStr "5stars") (PInt (2 ^ 1024 - 2 ^ 970 - 1))
  = 10 /\
  convert_to_plex_rating (PStr "1star") (PInt (2 ^ 1024)) = 10.
Proof. vm_compute. repeat split. Qed.

(** The floats that are not numbers. *)
Example convert_not_a_number :
  convert_to_plex_rating (PStr "1star") PNaN = 0 /\
  convert_to_plex_rating (PStr "5stars") PNaN = 10 /\
  convert_to_plex_rating (PStr "1star") (PInf false) = 10 /\
  convert_to_plex_rating (PStr "5stars") (PInf true) = 2.
Proof. repeat split. Qed.

Example convert_values :
  convert_to_plex_rating (PStr "5stars") (PNum 3) == 6 /\
  convert_to_plex_rating (PStr "5stars_half") (PNum (5 # 2)) == 5 /\
  convert_to_plex_rating (PStr "5stars") (PNum 5) == 10 /\
  convert_to_plex_rating (PStr "5stars") (PNum (1 # 2)) == 2 /\
  convert_to_plex_rating (PStr "1star") (PNum 1) == 10 /\
  convert_to_plex_rating (PStr "1star") (PNum 0) == 0.
Proof. repeat split. Qed.

End RatingEngineFacts.

(** ** EventLog *)

Section EventLogFacts.
Import EventLog.

Lemma ring_step (ring : list string) (line : string) :
  (length ring <= 500)%nat ->
  (if (500 <? length (ring ++ [line]))%nat then drop 1 (ring ++ [line])
   else ring ++ [line])
  = last_n 500 (ring ++ [line]).
Proof.
  intros Hlen. unfold last_n. rewrite length_app. simpl.
  destruct (500 <? length ring + 1)%nat eqn:E.
  - apply Nat.ltb_lt in E.
    replace (length ring + 1 - 500)%nat with 1%nat by lia. reflexivity.
  - apply Nat.ltb_ge in E.
    replace (length ring + 1 - 500)%nat with 0%nat by lia. reflexivity.
Qed.

Lemma last_n_length {A} (n : nat) (l : list A) :
  (length (last_n n l) <= n)%nat.
Proof. unfold last_n. rewrite length_drop. lia. Qed.

Lemma last_n_snoc {A} (n : nat) (l : list A) (x : A) :
  (0 < n)%nat ->
  last_n n (last_n n l ++ [x]) = last_n n (l ++ [x]).
Proof.
  intros Hn. unfold last_n. rewrite !length_app, length_drop. simpl.
  destruct (decide (length l <= n)%nat) as [Hle|Hgt].
  - replace (length l - n)%nat with 0%nat by lia. simpl.
    f_equal. lia.
  - replace (length l - (length l - n) + 1 - n)%nat with 1%nat by lia.
    replace (length l + 1 - n)%nat with (S (length l - n)) by lia.
    rewrite <- (drop_app_le l [x] (length l - n)) by lia.
    rewrite drop_drop. f_equal. lia.
Qed.

Lemma append_all_snoc entries e st :
  append_all (entries ++ [e]) st
  = add_log_entry (fst e) (snd e) (append_all entries st).
Proof. unfold append_all. rewrite foldl_app. reflexivity. Qed.

Lemma append_all_ring entries st :
  (length (rating_log st) <= 500)%nat ->
  rating_log (append_all entries st)
  = last_n 500 (rating_log st ++ formatted entries).
Proof.
  intros Hlen. induction entries as [|e entries IH] using rev_ind.
  - unfold last_n. simpl. rewrite app_nil_r.
    replace (length (rating_log st) - 500)%nat with 0%nat by lia.
    reflexivity.
  - rewrite append_all_snoc. unfold add_log_entry at 1. simpl.
    rewrite ring_step by (rewrite IH; apply last_n_length).
    rewrite IH. unfold formatted. rewrite fmap_app. simpl.
    rewrite last_n_snoc by lia. rewrite app_assoc. reflexivity.
Qed.

Lemma append_all_listeners entries st :
  listeners (append_all entries st)
  = (fun q => q ++ formatted entries) <$> listeners st.
Proof.
  induction entries as [|e entries IH] using rev_ind.
  - simpl. unfold formatted. simpl.
    rewrite <- (list_fmap_id (listeners st)) at 1.
    apply list_fmap_ext. intros i q _. rewrite app_nil_r. reflexivity.
  - rewrite append_all_snoc. unfold add_log_entry at 1. simpl.
    rewrite IH. rewrite <- list_fmap_compose.
    apply list_fmap_ext. intros i q _. simpl.
    unfold formatted. rewrite fmap_app. simpl. rewrite app_assoc.
    reflexivity.
Qed.


Lemma received_snoc h out h' chunk :
  received h (out ++ [(h', chunk)])
  = received h out ++ (if decide (h' = h) then [chunk] else []).
Proof.
  unfold received. rewrite filter_app, fmap_app. f_equal.
  rewrite filter_cons. simpl. destruct (decide (h' = h)); reflexivity.
Qed.

Lemma view_run_op h o s :
  (h < length (listeners (fst s)))%nat ->
  view h (run_op o s)
  = view h s ++ (sse <$> appended_lines [o])
  /\ (h < length (listeners (fst (run_op o s))))%nat.
Proof.
  intros Hh. destruct s as [st out]. simpl in Hh.
  destruct (lookup_lt_is_Some_2 _ _ Hh) as [q Hq].
  destruct o as [ts text| |h']; simpl.
  - unfold view, queue. simpl. rewrite list_lookup_fmap, Hq. simpl.
    rewrite fmap_app, length_fmap. simpl. rewrite app_assoc. auto.
  - unfold view, queue. simpl. rewrite lookup_app_l by exact Hh.
    rewrite app_nil_r, length_app. simpl. split; [reflexivity|lia].
  - rewrite app_nil_r. unfold event_stream_turn.
    destruct (listeners st !! h') as [[|line rest]|] eqn:Hq'; simpl; auto.
    rewrite length_insert. split; [|exact Hh].
    unfold view, queue. simpl. rewrite received_snoc.
    destruct (decide (h' = h)) as [->|Hne].
    + rewrite list_lookup_insert_eq by exact Hh.
      rewrite Hq in Hq'. injection Hq' as ->. rewrite Hq. simpl.
      rewrite <- app_assoc. reflexivity.
    + rewrite list_lookup_insert_ne by exact Hne.
      rewrite app_nil_r. reflexivity.
Qed.

Lemma view_run h ops s :
  (h < length (listeners (fst s)))%nat ->
  view h (run ops s) = view h s ++ (sse <$> appended_lines ops)
  /\ (h < length (listeners (fst (run ops s))))%nat.
Proof.
  revert s. induction ops as [|o ops IH]; intros s Hh.
  - simpl. rewrite app_nil_r. auto.
  - destruct (view_run_op h o s Hh) as [Hv Hh'].
    destruct (IH (run_op o s) Hh') as [Hv2 Hh2].
    change (run (o :: ops) s) with (run ops (run_op o s)).
    split; [|exact Hh2].
    rewrite Hv2, Hv. rewrite <- app_assoc, <- fmap_app.
    do 2 f_equal. destruct o; reflexivity.
Qed.

(** Turns of the generator with nothing else in between empty the
    queue. *)
Lemma drain h n s :
  (length (default [] (listeners (fst s) !! h)) <= n)%nat ->
  listeners (fst (run (replicate n (Turn h)) s)) !! h
  = (fun _ => []) <$> (listeners (fst s) !! h).
Proof.
  revert s. induction n as [|n IH]; intros [st out] Hlen; simpl in *.
  - destruct (listeners st !! h) as [q|]; simpl in *; [|reflexivity].
    destruct q; simpl in *; [reflexivity|lia].
  - change (run (Turn h :: replicate n (Turn h)) (st, out))
      with (run (replicate n (Turn h)) (run_op (Turn h) (st, out))).
    rewrite IH.
    + simpl. unfold event_stream_turn.
      destruct (listeners st !! h) as [[|line rest]|] eqn:Hq; simpl;
        rewrite ?Hq; try reflexivity.
      rewrite list_lookup_insert_eq; [reflexivity|].
      apply lookup_lt_Some in Hq. exact Hq.
    + simpl. unfold event_stream_turn.
      destruct (listeners st !! h) as [[|line rest]|] eqn:Hq; simpl;
        rewrite ?Hq; simpl; try lia.
      rewrite list_lookup_insert_eq by (apply lookup_lt_Some in Hq; exact Hq).
      simpl in *. lia.
Qed.

Lemma appended_lines_turns (h n : nat) :
  appended_lines (replicate n (Turn h)) = [].
Proof. induction n as [|n IH]; [reflexivity | exact IH]. Qed.

Lemma add_log_entry_ring (ts text : string) (st : state) :
  (length (rating_log st) <= 500)%nat ->
  rating_log (add_log_entry ts text st)
  = last_n 500 (rating_log st ++ [format_line ts text]).
Proof.
  intros Hlen. unfold add_log_entry. simpl. apply ring_step. exact Hlen.
Qed.

(** C4.  Starting from a ring within its bound: one [add_log_entry]
    stamps the line - the clock reading, [" - "], then the text -, leaves
    in the ring the last 500 lines of the ring extended by it, and puts
    the stamped line at the end of every registered queue; after any
    number of appends the snapshot is the last 500 lines of everything
    appended, each stamped in this way, oldest first, so after 600
    appends it is the last 500 of these 600; and a subscriber registered by
    [stream] before a run of appends, turns of any generator and further
    registrations has received, or still holds in its queue, exactly the
    appended lines in their order, and has received them all once its
    generator has taken a turn for every queued line. *)
Theorem add_log_entry_spec (st : state) (entries : list (string * string))
    (ops : list op) (out0 : list (nat * string)) :
  (length (rating_log st) <= 500)%nat ->
  (forall ts text : string,
      rating_log (add_log_entry ts text st)
      = last_n 500 (rating_log st ++ [ts +:+ " - " +:+ text]) /\
      listeners (add_log_entry ts text st)
      = (fun q => q ++ [ts +:+ " - " +:+ text]) <$> listeners st) /\
  snapshot (append_all entries st)
  = last_n 500 (rating_log st
                ++ ((fun e => fst e +:+ " - " +:+ snd e) <$> entries)) /\
  formatted entries = (fun e => fst e +:+ " - " +:+ snd e) <$> entries /\
  (length (snapshot (append_all entries st)) <= 500)%nat /\
  (length entries = 600%nat ->
   snapshot (append_all entries st) = drop 100 (formatted entries) /\
   length (snapshot (append_all entries st)) = 500%nat) /\
  listeners (append_all entries st)
  = (fun q => q ++ formatted entries) <$> listeners st /\
  (let h := fst (stream st) in
   let s2 := run ops (snd (stream st), out0) in
   let s3 := run (replicate (length (queue h (fst s2))) (Turn h)) s2 in
   received h (snd s2) ++ (sse <$> queue h (fst s2))
   = received h out0 ++ (sse <$> appended_lines ops) /\
   received h (snd s3) = received h out0 ++ (sse <$> appended_lines ops)).
Proof.
  intros Hlen.
  assert (Hring := append_all_ring entries st Hlen).
  split; [|split; [|split; [|split; [|split; [|split]]]]].
  - intros ts text. split; [apply add_log_entry_ring; exact Hlen|reflexivity].
  - exact Hring.
  - reflexivity.
  - unfold snapshot. rewrite Hring. apply last_n_length.
  - intros H600. unfold snapshot. rewrite Hring. unfold last_n.
    assert (Hf : length (formatted entries) = 600%nat).
    { unfold formatted. rewrite length_fmap. exact H600. }
    rewrite length_app, Hf.
    rewrite drop_app_ge by lia.
    replace (length (rating_log st) + 600 - 500 - length (rating_log st))%nat
      with 100%nat by lia.
    split; [reflexivity|]. rewrite length_drop, Hf. reflexivity.
  - apply append_all_listeners.
  - cbv zeta.
    set (h := fst (stream st)).
    set (s1 := (snd (stream st), out0)).
    assert (Hh : (h < length (listeners (fst s1)))%nat).
    { unfold s1, h. simpl. rewrite length_app. simpl. lia. }
    destruct (view_run h ops s1 Hh) as [Hv Hh2].
    assert (Hv1 : view h s1 = received h out0).
    { unfold view, queue, s1, h. simpl.
      rewrite lookup_app_r by lia. rewrite Nat.sub_diag. simpl.
      apply app_nil_r. }
    rewrite Hv1 in Hv. unfold view in Hv.
    split; [exact Hv|].
    set (s2 := run ops s1) in *.
    set (n := length (queue h (fst s2))).
    destruct (view_run h (replicate n (Turn h)) s2 Hh2) as [Hv3 _].
    rewrite appended_lines_turns in Hv3. simpl in Hv3.
    rewrite app_nil_r in Hv3. unfold view in Hv3 at 2. rewrite Hv in Hv3.
    rewrite <- Hv3. unfold view, queue.
    rewrite drain by (unfold n, queue; lia).
    destruct (listeners (fst s2) !! h); simpl; rewrite app_nil_r; reflexivity.
Qed.

Lemma add_log_entry_spec_witness :
  (length (rating_log empty) <= 500)%nat /\
  snapshot (append_all six_hundred empty) = drop 100 (formatted six_hundred) /\
  snapshot (append_all [("2026-01-01 00:00:00", "Settings saved.");
                        ("2026-01-01 00:00:07", "Processing library: Music")]
              empty)
  = ["2026-01-01 00:00:00 - Settings saved.";
     "2026-01-01 00:00:07 - Processing library: Music"] /\
  received 0
    (snd (run [Append "2026-01-01 00:00:00" "Settings saved."; Turn 0]
            (snd (stream empty), [])))
  = ["data: 2026-01-01 00:00:00 - Settings saved." +:+ newline +:+ newline].
Proof.
  assert (H : (length (rating_log empty) <= 500)%nat) by (simpl; lia).
  split; [exact H|]. split; [|split].
  - apply (add_log_entry_spec empty six_hundred [] [] H).
    reflexivity.
  - destruct (add_log_entry_spec empty
                [("2026-01-01 00:00:00", "Settings saved.");
                 ("2026-01-01 00:00:07", "Processing library: Music")]
                [] [] H) as (_ & Hsnap & _).
    rewrite Hsnap. reflexivity.
  - destruct (add_log_entry_spec empty []
                [Append "2026-01-01 00:00:00" "Settings saved."]
                [] H) as (_ & _ & _ & _ & _ & _ & _ & Hrecv).
    exact Hrecv.
Defined.

Example ring_after_600 :
  head (snapshot (append_all six_hundred empty))
  = Some "2026-01-01 00:00:00 - 100" /\
  last (snapshot (append_all six_hundred empty))
  = Some "2026-01-01 00:00:00 - 599" /\
  length (snapshot (append_all six_hundred empty)) = 500%nat.
Proof. vm_compute. repeat split. Qed.

Example subscriber_in_order :
  let h := fst (stream empty) in
  let s := run [Append "t1" "a"; Turn h; Append "t2" "b"; Subscribe;
                Append "t3" "c"; Turn h]
               (snd (stream empty), []) in
  received h (snd s) = [sse "t1 - a"; sse "t2 - b"] /\
  queue h (fst s) = ["t3 - c"] /\
  queue 1 (fst s) = ["t3 - c"].
Proof. vm_compute. repeat split. Qed.

End EventLogFacts.

(** ** The sweep *)

Section SweepFacts.
Import Py RatingEngine Classify Sweep.

Lemma count_if_cons {A} (p : A -> bool) (x : A) (l : list A) :
  count_if p (x :: l) = ((if p x then 1 else 0) + count_if p l)%nat.
Proof.
  unfold count_if. rewrite filter_cons.
  destruct (decide (p x = true)) as [H|H].
  - rewrite H. reflexivity.
  - destruct (p x); [contradiction|reflexivity].
Qed.

Lemma count_if_app {A} (p : A -> bool) (l k : list A) :
  count_if p (l ++ k) = (count_if p l + count_if p k)%nat.
Proof. unfold count_if. rewrite filter_app, length_app. reflexivity. Qed.

Lemma count_if_nil {A} (p : A -> bool) : count_if p [] = 0%nat.
Proof. reflexivity. Qed.

Lemma count_if_single {A} (p : A -> bool) (x : A) :
  count_if p [x] = b2n (p x).
Proof. rewrite count_if_cons, count_if_nil. unfold b2n. destruct (p x); lia. Qed.

Ltac world_step c w :=
  repeat split;
  try (intros; simplify_eq; apply list_elem_of_In; simpl; auto; fail);
  unfold mret, add_log_entry, set_log_calls; simpl; rewrite ?app_nil_r;
  f_equal;
  try (f_equal; destruct c; simpl; f_equal; lia);
  try (destruct w; reflexivity).

Lemma rate_track_spec (pr : Q) (ov : bool) (idx : nat) (t : track)
    (c : counts) (w : world) :
  track_ok t ->
  exists added,
    rate_track pr ov idx t c w
    = (inr (bump c (b2n (applied Decision.RATE pr ov t))
                   (b2n (applied Decision.UPDATE pr ov t))
                   (b2n (skips pr ov t))),
       set_log_calls w (log w ++ added)
         (calls w ++ (if attempted pr ov t then [(title t, Some pr)] else [])))
    /\ count_if is_action added
       = (b2n (applied Decision.RATE pr ov t)
          + b2n (applied Decision.UPDATE pr ov t))%nat
    /\ count_if is_track_error added = b2n (failed pr ov t)
    /\ length added = b2n (attempted pr ov t)
    /\ processing_titles added = []
    /\ count_if is_summary added = 0%nat
    /\ (forall msg, attempted pr ov t = true ->
                    rate t (Some pr) = Some (PyException msg) ->
                    LTrackError (title t) msg ∈ added).
Proof.
  intros Hok.
  unfold rate_track, mtry_except, applied, failed, attempted, skips,
    decision, classify, returns, bump.
  destruct (userRating t) as [curr|] eqn:Hcur.
  - destruct (ov && differs curr pr) eqn:Hd; simpl.
    + unfold mbind, track_rate.
      destruct (rate t (Some pr)) as [e|] eqn:Hr.
      * specialize (Hok _ _ Hr). destruct e as [msg|msg]; [|discriminate].
        exists [LTrackError (title t) msg]. world_step c w.
      * exists [LUpdated idx (title t)]. world_step c w.
    + exists []. world_step c w.
  - simpl. unfold mbind, track_rate.
    destruct (rate t (Some pr)) as [e|] eqn:Hr.
    + specialize (Hok _ _ Hr). destruct e as [msg|msg]; [|discriminate].
      exists [LTrackError (title t) msg]. world_step c w.
    + exists [LRated idx (title t)]. world_step c w.
Qed.

Lemma bump_bump (c : counts) (r u s r' u' s' : nat) :
  bump (bump c r u s) r' u' s' = bump c (r + r') (u + u') (s + s').
Proof. unfold bump. simpl. f_equal; lia. Qed.

Lemma processing_titles_app (l k : list log_event) :
  processing_titles (l ++ k) = processing_titles l ++ processing_titles k.
Proof. unfold processing_titles. apply omap_app. Qed.

Lemma track_calls_cons (pr : Q) (ov : bool) (t : track) (tracks : list track) :
  track_calls pr ov (t :: tracks)
  = (if attempted pr ov t then [(title t, Some pr)] else [])
      ++ track_calls pr ov tracks.
Proof.
  unfold track_calls. rewrite filter_cons.
  destruct (decide (attempted pr ov t = true)) as [H|H].
  - rewrite H. reflexivity.
  - destruct (attempted pr ov t); [contradiction|reflexivity].
Qed.

Lemma rate_loop_spec (pr : Q) (ov : bool) (tracks : list track) :
  Forall track_ok tracks ->
  forall (idx : nat) (c : counts) (w : world),
  exists added,
    rate_loop pr ov idx tracks c w
    = (inr (bump c (count_if (applied Decision.RATE pr ov) tracks)
                   (count_if (applied Decision.UPDATE pr ov) tracks)
                   (count_if (skips pr ov) tracks)),
       set_log_calls w (log w ++ added)
         (calls w ++ track_calls pr ov tracks))
    /\ count_if is_action added
       = (count_if (applied Decision.RATE pr ov) tracks
          + count_if (applied Decision.UPDATE pr ov) tracks)%nat
    /\ count_if is_track_error added = count_if (failed pr ov) tracks
    /\ length added = count_if (attempted pr ov) tracks
    /\ processing_titles added = []
    /\ count_if is_summary added = 0%nat
    /\ (forall t msg, t ∈ tracks -> attempted pr ov t = true ->
                      rate t (Some pr) = Some (PyException msg) ->
                      LTrackError (title t) msg ∈ added).
Proof.
  induction 1 as [|t tracks Ht _ IH]; intros idx c w.
  - exists []. rewrite !count_if_nil. simpl. repeat split.
    + unfold mret, set_log_calls, bump, track_calls. simpl.
      rewrite !app_nil_r. f_equal.
      * f_equal. destruct c; simpl; f_equal; lia.
      * destruct w; reflexivity.
    + intros t msg Hin. inversion Hin.
  - destruct (rate_track_spec pr ov idx t c w Ht)
      as (a1 & E1 & Ha1 & He1 & Hl1 & Hp1 & Hs1 & Hm1).
    simpl. unfold mbind at 1. rewrite E1.
    match goal with |- context [rate_loop pr ov (S idx) tracks ?c' ?w'] =>
      destruct (IH (S idx) c' w')
        as (a2 & E2 & Ha2 & He2 & Hl2 & Hp2 & Hs2 & Hm2)
    end.
    exists (a1 ++ a2). rewrite E2.
    rewrite !count_if_cons, !count_if_app, processing_titles_app, length_app.
    rewrite Ha1, Ha2, He1, He2, Hl1, Hl2, Hp1, Hp2, Hs1, Hs2.
    rewrite bump_bump, track_calls_cons.
    unfold set_log_calls, b2n. simpl. rewrite <- !app_assoc.
    repeat split; try lia.
    intros t' msg Hin Hatt Hrate. apply elem_of_app.
    apply elem_of_cons in Hin as [->|Hin]; [left|right]; eauto.
Qed.

Lemma sweep_library_spec (cfg : config) (limit : option Z) (lib : library)
    (w : world) :
  library_ok lib ->
  exists added,
    sweep_library cfg limit lib w
    = (inr tt, set_log_calls w (log w ++ added)
                 (calls w ++ library_calls cfg limit lib))
    /\ processing_titles added = [lib_title lib]
    /\ count_if is_summary added = b2n (has_tracks limit lib)
    /\ count_if is_action added
       = (count_if (applied Decision.RATE (target cfg) (OVERRIDE_RATING cfg))
            (fetched limit lib)
          + count_if (applied Decision.UPDATE (target cfg) (OVERRIDE_RATING cfg))
              (fetched limit lib))%nat
    /\ count_if is_track_error added
       = count_if (failed (target cfg) (OVERRIDE_RATING cfg)) (fetched limit lib)
    /\ (has_tracks limit lib = true -> library_summary cfg limit lib ∈ added)
    /\ (forall msg,
          searchTracks lib (Some "addedAt:desc") limit = inl (PyException msg) ->
          LFetchError (lib_title lib) msg ∈ added)
    /\ (searchTracks lib (Some "addedAt:desc") limit = inr [] ->
        LNoTracks (lib_title lib) ∈ added)
    /\ (forall t msg,
          t ∈ fetched limit lib ->
          attempted (target cfg) (OVERRIDE_RATING cfg) t = true ->
          rate t (Some (target cfg)) = Some (PyException msg) ->
          LTrackError (title t) msg ∈ added).
Proof.
  intros Hok. specialize (Hok (Some "addedAt:desc") limit).
  unfold sweep_library, library_calls, library_summary, has_tracks, fetched.
  unfold mbind at 1, add_log_entry at 1, mtry_except, mbind at 1, lift.
  destruct (searchTracks lib (Some "addedAt:desc") limit)
    as [e|[|t tracks]] eqn:Hfetch.
  - destruct e as [msg|msg]; [|discriminate].
    exists [LProcessing (lib_title lib); LFetchError (lib_title lib) msg].
    simpl. unfold track_calls. simpl. rewrite ?app_nil_r, <- ?app_assoc. simpl.
    unfold add_log_entry, set_log_calls. simpl. rewrite <- ?app_assoc. simpl.
    repeat split; try discriminate.
    + intros msg' [= <-]. apply list_elem_of_In. simpl. auto.
    + intros t msg' Hin. inversion Hin.
  - exists [LProcessing (lib_title lib); LNoTracks (lib_title lib)].
    simpl. unfold track_calls. simpl. rewrite ?app_nil_r, <- ?app_assoc. simpl.
    unfold add_log_entry, set_log_calls. simpl. rewrite <- ?app_assoc. simpl.
    repeat split; try discriminate.
    + intros _. apply list_elem_of_In. simpl. auto.
    + intros t msg' Hin. inversion Hin.
  - unfold rate_tracks. fold (target cfg).
    set (w1 := {| batch_lock := batch_lock w; batch_running := batch_running w;
                  log := log w ++ [LProcessing (lib_title lib)];
                  calls := calls w |}).
    destruct (rate_loop_spec (target cfg) (OVERRIDE_RATING cfg) (t :: tracks)
                Hok 1%nat counts0 w1)
      as (a & E & Ha & He & Hl & Hp & Hs & Hm).
    unfold mbind. rewrite E.
    exists ([LProcessing (lib_title lib)] ++ a
            ++ [library_summary cfg limit lib]).
    unfold library_summary, fetched. rewrite Hfetch.
    rewrite !count_if_app, !processing_titles_app, Ha, He, Hp, Hs.
    unfold add_log_entry, set_log_calls, bump, w1. simpl.
    rewrite <- !app_assoc. simpl.
    rewrite !count_if_single. simpl.
    repeat split; try discriminate; try lia.
    + intros _. apply list_elem_of_In. simpl. right.
      apply in_or_app. right. simpl. auto.
    + intros t' msg Hin Hatt Hrate. apply elem_of_cons. right.
      apply elem_of_app. left. eauto.
Qed.

Lemma all_fetched_cons (limit : option Z) (lib : library) (libs : list library) :
  all_fetched limit (lib :: libs) = fetched limit lib ++ all_fetched limit libs.
Proof. reflexivity. Qed.

Lemma track_calls_app (pr : Q) (ov : bool) (l k : list track) :
  track_calls pr ov (l ++ k) = track_calls pr ov l ++ track_calls pr ov k.
Proof. unfold track_calls. rewrite filter_app, fmap_app. reflexivity. Qed.

Lemma sweep_libraries_spec (cfg : config) (limit : option Z)
    (libs : list library) :
  Forall library_ok libs ->
  forall w : world,
  exists added,
    sweep_libraries cfg limit libs w
    = (inr tt, set_log_calls w (log w ++ added)
                 (calls w ++ track_calls (target cfg) (OVERRIDE_RATING cfg)
                               (all_fetched limit libs)))
    /\ processing_titles added = lib_title <$> libs
    /\ count_if is_summary added = count_if (has_tracks limit) libs
    /\ count_if is_action added
       = (count_if (applied Decision.RATE (target cfg) (OVERRIDE_RATING cfg))
            (all_fetched limit libs)
          + count_if (applied Decision.UPDATE (target cfg) (OVERRIDE_RATING cfg))
              (all_fetched limit libs))%nat
    /\ count_if is_track_error added
       = count_if (failed (target cfg) (OVERRIDE_RATING cfg))
           (all_fetched limit libs)
    /\ (forall lib, lib ∈ libs -> has_tracks limit lib = true ->
                    library_summary cfg limit lib ∈ added)
    /\ (forall lib msg,
          lib ∈ libs ->
          searchTracks lib (Some "addedAt:desc") limit = inl (PyException msg) ->
          LFetchError (lib_title lib) msg ∈ added)
    /\ (forall lib t msg,
          lib ∈ libs -> t ∈ fetched limit lib ->
          attempted (target cfg) (OVERRIDE_RATING cfg) t = true ->
          rate t (Some (target cfg)) = Some (PyException msg) ->
          LTrackError (title t) msg ∈ added).
Proof.
  induction 1 as [|lib libs Hlib _ IH]; intros w.
  - exists []. simpl. unfold mret, set_log_calls, all_fetched, track_calls.
    simpl. rewrite !app_nil_r.
    repeat split; try (intros ? Hin; inversion Hin; fail);
      try (intros ? ? Hin; inversion Hin; fail);
      try (intros ? ? ? Hin; inversion Hin; fail).
    destruct w; reflexivity.
  - destruct (sweep_library_spec cfg limit lib w Hlib)
      as (a1 & E1 & Hp1 & Hs1 & Ha1 & He1 & Hsum1 & Hf1 & _ & Ht1).
    cbn [sweep_libraries]. unfold mbind at 1. rewrite E1.
    match goal with |- context [sweep_libraries cfg limit libs ?w'] =>
      destruct (IH w')
        as (a2 & E2 & Hp2 & Hs2 & Ha2 & He2 & Hsum2 & Hf2 & Ht2)
    end.
    exists (a1 ++ a2). rewrite E2.
    rewrite all_fetched_cons, fmap_cons.
    rewrite !count_if_cons, !count_if_app, processing_titles_app,
      track_calls_app.
    rewrite Hp1, Hp2, Hs1, Hs2, Ha1, Ha2, He1, He2.
    unfold set_log_calls, library_calls, b2n. simpl. rewrite <- !app_assoc.
    repeat split; try lia.
    + intros lib' Hin Hhas. apply elem_of_app.
      apply elem_of_cons in Hin as [->|Hin]; [left|right]; eauto.
    + intros lib' msg Hin Hfetch. apply elem_of_app.
      apply elem_of_cons in Hin as [->|Hin]; [left|right]; eauto.
    + intros lib' t msg Hin Ht Hatt Hrate. apply elem_of_app.
      apply elem_of_cons in Hin as [->|Hin]; [left|right]; eauto.
Qed.

Lemma keeps_gate_mret {A} (a : A) : keeps_gate (mret a).
Proof. intros w. auto. Qed.

Lemma keeps_gate_lift {A} (r : result A) : keeps_gate (lift r).
Proof. intros w. auto. Qed.

Lemma keeps_gate_add_log_entry (e : log_event) : keeps_gate (add_log_entry e).
Proof. intros w. auto. Qed.

Lemma keeps_gate_track_rate (t : track) (v : option Q) :
  keeps_gate (track_rate t v).
Proof. intros w. unfold track_rate. destruct (rate t v); auto. Qed.

Lemma keeps_gate_mbind {A B} (m : M A) (k : A -> M B) :
  keeps_gate m -> (forall a, keeps_gate (k a)) -> keeps_gate (mbind m k).
Proof.
  intros Hm Hk w. unfold mbind. specialize (Hm w).
  destruct (m w) as [[e|a] w1]; simpl in *; [exact Hm|].
  destruct (Hk a w1) as [H1 H2]. destruct Hm as [H3 H4].
  split; congruence.
Qed.

Lemma keeps_gate_mtry_except {A} (m : M A) (h : string -> M A) :
  keeps_gate m -> (forall msg, keeps_gate (h msg)) ->
  keeps_gate (mtry_except m h).
Proof.
  intros Hm Hh w. unfold mtry_except. specialize (Hm w).
  destruct (m w) as [[[msg|msg]|a] w1]; simpl in *; try exact Hm.
  destruct (Hh msg w1) as [H1 H2]. destruct Hm as [H3 H4].
  split; congruence.
Qed.

Create HintDb gate discriminated.

#[local] Hint Resolve keeps_gate_mret keeps_gate_lift keeps_gate_add_log_entry
  keeps_gate_track_rate : gate.

#[local] Hint Extern 2 (keeps_gate (mbind _ _)) =>
  apply keeps_gate_mbind; [|intro] : gate.

#[local] Hint Extern 2 (keeps_gate (mtry_except _ _)) =>
  apply keeps_gate_mtry_except; [|intro] : gate.

Lemma keeps_gate_rate_track pr ov idx t c : keeps_gate (rate_track pr ov idx t c).
Proof.
  unfold rate_track.
  destruct (userRating t); [destruct (ov && differs _ pr)|]; auto 10 with gate.
Qed.

Lemma keeps_gate_rate_loop pr ov tracks :
  forall idx c, keeps_gate (rate_loop pr ov idx tracks c).
Proof.
  induction tracks as [|t tracks IH]; intros idx c; simpl.
  - auto with gate.
  - apply keeps_gate_mbind; [apply keeps_gate_rate_track|].
    intros c'. apply IH.
Qed.

Lemma keeps_gate_sweep_library cfg limit lib :
  keeps_gate (sweep_library cfg limit lib).
Proof.
  unfold sweep_library.
  apply keeps_gate_mbind; [auto with gate|]. intros _.
  apply keeps_gate_mtry_except; [|auto with gate].
  apply keeps_gate_mbind; [auto with gate|]. intros [|t tracks].
  - auto with gate.
  - apply keeps_gate_mbind; [apply keeps_gate_rate_loop|auto with gate].
Qed.

Lemma keeps_gate_sweep_libraries cfg limit libs :
  keeps_gate (sweep_libraries cfg limit libs).
Proof.
  induction libs as [|lib libs IH]; simpl.
  - auto with gate.
  - apply keeps_gate_mbind; [apply keeps_gate_sweep_library|].
    intros _. exact IH.
Qed.

End SweepFacts.

(** ** The gate *)

Section GateFacts.
Import Py Sweep Gate.

Lemma rate_new_tracks_held cfg libs limit (w : world) :
  batch_lock w = true ->
  rate_new_tracks cfg libs limit w
  = (inr tt, set_log_calls w (log w ++ [LAlreadyRunning]) (calls w)).
Proof.
  intros Hheld.
  unfold rate_new_tracks, acquire_phase, mbind, lock_acquire_nonblocking.
  rewrite Hheld. reflexivity.
Qed.

Lemma acquire_phase_free (w : world) :
  batch_lock w = false ->
  acquire_phase w
  = (inr true, {| batch_lock := true; batch_running := true;
                  log := log w; calls := calls w |}).
Proof.
  intros Hfree. unfold acquire_phase, mbind, lock_acquire_nonblocking.
  rewrite Hfree. reflexivity.
Qed.

Lemma acquire_phase_held (w : world) :
  batch_lock w = true ->
  acquire_phase w
  = (inr false, set_log_calls w (log w ++ [LAlreadyRunning]) (calls w)).
Proof.
  intros Hheld. unfold acquire_phase, mbind, lock_acquire_nonblocking.
  rewrite Hheld. reflexivity.
Qed.

Lemma finally_phase_held (w : world) :
  batch_lock w = true ->
  finally_phase w
  = (inr tt, {| batch_lock := false; batch_running := false;
                log := log w; calls := calls w |}).
Proof.
  intros Hheld. unfold finally_phase, mbind, set_batch_running, lock_release.
  simpl. rewrite Hheld. reflexivity.
Qed.

(** From a free gate the call returns what the guarded sweep returned or
    raised, with the gate free again. *)
Lemma rate_new_tracks_free cfg libs limit (w : world) :
  batch_lock w = false ->
  let entered := {| batch_lock := true; batch_running := true;
                    log := log w; calls := calls w |} in
  let body := sweep_libraries cfg limit libs entered in
  rate_new_tracks cfg libs limit w
  = (fst body, {| batch_lock := false; batch_running := false;
                  log := log (snd body); calls := calls (snd body) |}).
Proof.
  intros Hfree. cbv zeta.
  unfold rate_new_tracks. unfold mbind at 1.
  rewrite acquire_phase_free by exact Hfree.
  unfold mtry_finally.
  destruct (keeps_gate_sweep_libraries cfg limit libs
              {| batch_lock := true; batch_running := true;
                 log := log w; calls := calls w |}) as [Hl _].
  destruct (sweep_libraries cfg limit libs _) as [r w1]. simpl in *.
  rewrite finally_phase_held by exact Hl. reflexivity.
Qed.

Lemma count_if_insert {A} (p : A -> bool) (l : list A) (i : nat) (x y : A) :
  l !! i = Some x ->
  (count_if p (<[i := y]> l) + b2n (p x) = count_if p l + b2n (p y))%nat.
Proof.
  intros Hi.
  assert (Hlt := lookup_lt_Some _ _ _ Hi).
  rewrite insert_take_drop by exact Hlt.
  rewrite <- (take_drop_middle l i x Hi) at 3.
  rewrite !count_if_app, !count_if_cons. unfold b2n.
  destruct (p x), (p y); lia.
Qed.

Lemma gate_inv_init : gate_inv init.
Proof. split; reflexivity. Qed.

Lemma inside_some (s : state) (i : nat) (p : pc) :
  threads s !! i = Some p -> inside p = true -> (1 <= inside_count s)%nat.
Proof.
  intros Hi Hp. unfold inside_count.
  rewrite <- (take_drop_middle _ i p Hi).
  rewrite count_if_app, count_if_cons, Hp. lia.
Qed.

Lemma gate_inv_step cfg libs (l : label) (s s' : state) :
  gate_inv s -> step cfg libs l s = Some s' -> gate_inv s'.
Proof.
  intros [Hc Hr] Hstep. destruct l as [limit|i]; simpl in Hstep.
  - injection Hstep as <-. split; [|exact Hr].
    unfold inside_count in *. simpl. rewrite count_if_app, count_if_single.
    simpl. lia.
  - unfold run_thread in Hstep.
    destruct (threads s !! i) as [[limit|limit|r|r]|] eqn:Hi; try discriminate.
    + destruct (batch_lock (w s)) eqn:Hlock.
      * rewrite acquire_phase_held in Hstep by exact Hlock.
        injection Hstep as <-. unfold gate_inv, inside_count in *. simpl.
        rewrite ?Hlock. split; [|exact Hr].
        pose proof (count_if_insert inside _ _ _ (Returned (inr ())) Hi) as H.
        simpl in H. simpl in *. lia.
      * rewrite acquire_phase_free in Hstep by exact Hlock.
        injection Hstep as <-. unfold gate_inv, inside_count in *. simpl.
        split; [|reflexivity].
        pose proof (count_if_insert inside _ _ _ (Sweeping limit) Hi) as H.
        simpl in H. simpl in *. lia.
    + destruct (keeps_gate_sweep_libraries cfg limit libs (w s)) as [Hl Hb].
      destruct (sweep_libraries cfg limit libs (w s)) as [r w1].
      injection Hstep as <-. unfold gate_inv, inside_count in *. simpl in *.
      rewrite Hl, Hb. split; [|exact Hr].
      pose proof (count_if_insert inside _ _ _ (Leaving r) Hi) as H.
      simpl in H. lia.
    + assert (Hheld : batch_lock (w s) = true).
      { pose proof (inside_some s i _ Hi eq_refl) as H1.
        rewrite Hc in H1. destruct (batch_lock (w s)); [reflexivity|].
        simpl in H1. lia. }
      rewrite finally_phase_held in Hstep by exact Hheld.
      injection Hstep as <-. unfold gate_inv, inside_count in *. simpl.
      split; [|reflexivity].
      pose proof (count_if_insert inside _ _ _ (Returned r) Hi) as H.
      simpl in H. rewrite Hheld in Hc. simpl in *. lia.
Qed.

Lemma gate_inv_exec cfg libs (ls : list label) :
  forall s s', gate_inv s -> exec cfg libs ls s = Some s' -> gate_inv s'.
Proof.
  induction ls as [|l ls IH]; intros s s' Hinv Hexec; simpl in Hexec.
  - injection Hexec as <-. exact Hinv.
  - destruct (step cfg libs l s) as [s1|] eqn:Hstep; [|discriminate].
    apply (IH s1 s'); [|exact Hexec].
    apply (gate_inv_step cfg libs l s s1 Hinv Hstep).
Qed.

(** C1.  Threads race on [batch_lock] in any order.  In every state
    they can reach, at most one thread is past the gate, the gate is held
    exactly when one is, and it can be taken again as soon as none is.
    A thread that finds the gate held writes "Batch already running,
    skipping this trigger." and returns at once: no thread and no pending
    work is added, the gate is untouched.  A thread that finds it free
    takes it.  A call of [rate_new_tracks] on a free gate hands back what
    the guarded sweep returned or raised, with the gate released, so that
    the next attempt succeeds. *)
Theorem single_flight_gate (cfg : config) (music_libs : list library) :
  (forall (ls : list label) (s : state),
      exec cfg music_libs ls init = Some s ->
      (inside_count s <= 1)%nat /\
      (batch_lock (w s) = true <-> inside_count s = 1%nat) /\
      (inside_count s = 0%nat ->
       fst (lock_acquire_nonblocking (w s)) = inr true)) /\
  (forall (s : state) (i : nat) (limit : option Z),
      threads s !! i = Some (Triggered limit) ->
      batch_lock (w s) = true ->
      run_thread cfg music_libs i s
      = Some {| w := set_log_calls (w s) (log (w s) ++ [LAlreadyRunning])
                       (calls (w s));
                threads := <[i := Returned (inr tt)]> (threads s) |}) /\
  render LAlreadyRunning = "Batch already running, skipping this trigger." /\
  (forall (s : state) (i : nat) (limit : option Z),
      threads s !! i = Some (Triggered limit) ->
      batch_lock (w s) = false ->
      exists w',
        run_thread cfg music_libs i s
        = Some {| w := w'; threads := <[i := Sweeping limit]> (threads s) |}
        /\ batch_lock w' = true) /\
  (forall (limit : option Z) (w0 : world),
      batch_lock w0 = true ->
      rate_new_tracks cfg music_libs limit w0
      = (inr tt,
         set_log_calls w0 (log w0 ++ [LAlreadyRunning]) (calls w0))) /\
  (forall (limit : option Z) (w0 : world),
      batch_lock w0 = false ->
      fst (rate_new_tracks cfg music_libs limit w0)
      = fst (sweep_libraries cfg limit music_libs
               {| batch_lock := true; batch_running := true;
                  log := log w0; calls := calls w0 |}) /\
      batch_lock (snd (rate_new_tracks cfg music_libs limit w0)) = false /\
      fst (lock_acquire_nonblocking
             (snd (rate_new_tracks cfg music_libs limit w0))) = inr true).
Proof.
  split; [|split; [|split; [|split; [|split]]]].
  - intros ls s Hexec.
    destruct (gate_inv_exec cfg music_libs ls init s gate_inv_init Hexec)
      as [Hc _].
    rewrite Hc. unfold lock_acquire_nonblocking.
    destruct (batch_lock (w s)); simpl; repeat split; auto; try lia;
      discriminate.
  - intros s i limit Hi Hheld. unfold run_thread. rewrite Hi.
    rewrite acquire_phase_held by exact Hheld. reflexivity.
  - reflexivity.
  - intros s i limit Hi Hfree. unfold run_thread. rewrite Hi.
    rewrite acquire_phase_free by exact Hfree.
    eexists. split; reflexivity.
  - intros limit w0 Hheld. apply rate_new_tracks_held. exact Hheld.
  - intros limit w0 Hfree.
    rewrite (rate_new_tracks_free cfg music_libs limit w0 Hfree).
    repeat split.
Qed.

(** Three triggers: the first takes the gate, the two others are turned
    away while it sweeps, a fourth gets through once it has left. *)
Example three_triggers :
  exists s,
    exec five_stars [three_tracks]
      [Trigger None; Trigger (Some 5%Z); Trigger (Some 5%Z);
       Run 0; Run 1; Run 0; Run 2; Run 0;
       Trigger None; Run 3] init = Some s
    /\ threads s = [Returned (inr tt); Returned (inr tt); Returned (inr tt);
                    Sweeping None]
    /\ count_if is_already_running (log (w s))
       = 2%nat.
Proof. eexists. vm_compute. repeat split. Qed.

(** An exception that [except Exception] lets through leaves the sweep;
    the gate is released all the same. *)
Example release_on_exception :
  rate_new_tracks five_stars [interrupted "Music"; three_tracks] None world0
  = (inl (PyBaseException "SystemExit"),
     {| batch_lock := false; batch_running := false;
        log := [LProcessing "Music"]; calls := [] |}).
Proof. reflexivity. Qed.

End GateFacts.

(** ** The per-track decision *)

Section DecisionFacts.
Import Py RatingEngine Classify Sweep.

Lemma differs_spec (c pr : Q) :
  differs c pr = true <-> round64 (1 # 100) < Qabs (round64 (c - pr)).
Proof.
  unfold differs. rewrite Qltb_lt, py_abs_Qabs. reflexivity.
Qed.

Lemma differs_false (c pr : Q) :
  differs c pr = false <-> Qabs (round64 (c - pr)) <= round64 (1 # 100).
Proof.
  unfold differs. rewrite Qltb_ge, py_abs_Qabs. reflexivity.
Qed.

(** When the floats differ by more than the float 0.01, the exact
    values differ by more than a hundredth. *)
Lemma differs_sound (c t : Q) :
  differs c t = true -> (1 # 100) < Qabs (c - t).
Proof.
  unfold differs. intros H. apply Qltb_lt in H.
  destruct (Qlt_le_dec (1 # 100) (Qabs (c - t))) as [Hgt|Hle]; [exact Hgt|].
  exfalso.
  destruct (Qeq_dec (c - t) 0) as [H0|Hne].
  - assert (Hr : round64 (c - t) = 0).
    { unfold round64. apply Qeq_bool_iff in H0. rewrite H0. reflexivity. }
    rewrite Hr, round64_hundredth in H. vm_compute in H. discriminate.
  - rewrite (round64_abs _ Hne), round64_hundredth in H.
    assert (Hpos : 0 < Qabs (c - t)).
    { destruct (Qlt_le_dec (c - t) 0) as [Hneg|Hnn].
      - rewrite Qabs_neg by lra. lra.
      - rewrite Qabs_pos by exact Hnn.
        apply Qle_lteq in Hnn as [Hlt|Heq]; [exact Hlt|].
        exfalso. apply Hne. symmetry. exact Heq. }
    pose proof (round64_le (Qabs (c - t)) 5764607523034235 (-59) Hpos) as Hb.
    assert (HT : inject_Z 5764607523034235 * 2 ^ (-59)
                 == 5764607523034235 # 576460752303423488)
      by (vm_compute; reflexivity).
    rewrite HT in Hb.
    assert (Hb' : inject_Z (nearest_even (Qabs (c - t)
                              / 2 ^ exponent64 (Qabs (c - t))))
                  * 2 ^ exponent64 (Qabs (c - t))
                  <= 5764607523034235 # 576460752303423488).
    { apply Hb.
      - assert ((1 # 100) <= 5764607523034235 # 576460752303423488)
          by (vm_compute; discriminate). lra.
      - vm_compute. reflexivity. }
    lra.
Qed.

Lemma classify_spec (cur : option Q) (pr : Q) (ov : bool) :
  (classify cur pr ov = Decision.RATE <-> cur = None) /\
  (classify cur pr ov = Decision.UPDATE <->
   exists c, cur = Some c /\ ov = true
             /\ round64 (1 # 100) < Qabs (round64 (c - pr))) /\
  (classify cur pr ov = Decision.SKIP <->
   exists c, cur = Some c
             /\ (ov = false \/ Qabs (round64 (c - pr)) <= round64 (1 # 100))).
Proof.
  unfold classify. destruct cur as [c|].
  - destruct ov; simpl.
    + destruct (differs c pr) eqn:Hd.
      * apply differs_spec in Hd.
        repeat split; try discriminate; eauto.
        intros (c' & [= <-] & [Hf|Hle]); [discriminate|].
        exfalso. apply (Qlt_not_le _ _ Hd Hle).
      * apply differs_false in Hd.
        repeat split; try discriminate; eauto.
        intros (c' & [= <-] & _ & Hlt).
        exfalso. apply (Qlt_not_le _ _ Hlt Hd).
    + repeat split; try discriminate; eauto.
      intros (c' & _ & Hf & _). discriminate.
  - repeat split; try discriminate.
    + intros (c & Hc & _). discriminate.
    + intros (c & Hc & _). discriminate.
Qed.

Lemma attempted_split (pr : Q) (ov : bool) (tracks : list track) :
  count_if (attempted pr ov) tracks
  = (count_if (applied Decision.RATE pr ov) tracks
     + count_if (applied Decision.UPDATE pr ov) tracks
     + count_if (failed pr ov) tracks)%nat.
Proof.
  induction tracks as [|t tracks IH]; [reflexivity|].
  rewrite !count_if_cons, IH.
  unfold failed, applied, attempted.
  destruct (decision pr ov t), (returns t (Some pr)); simpl; lia.
Qed.

Lemma decisions_partition (pr : Q) (ov : bool) (tracks : list track) :
  (count_if (attempted pr ov) tracks + count_if (skips pr ov) tracks)%nat
  = length tracks.
Proof.
  induction tracks as [|t tracks IH]; [reflexivity|].
  rewrite !count_if_cons. simpl. rewrite <- IH.
  unfold attempted, skips. destruct (decision pr ov t); simpl; lia.
Qed.

Lemma rate_tracks_spec (cfg : config) (tracks : list track) (w : world) :
  Forall track_ok tracks ->
  exists added,
    rate_tracks cfg tracks w
    = (inr {| rated := count_if (applied Decision.RATE (target cfg)
                                   (OVERRIDE_RATING cfg)) tracks;
              updated := count_if (applied Decision.UPDATE (target cfg)
                                     (OVERRIDE_RATING cfg)) tracks;
              skipped := count_if (skips (target cfg) (OVERRIDE_RATING cfg))
                           tracks |},
       set_log_calls w (log w ++ added)
         (calls w ++ track_calls (target cfg) (OVERRIDE_RATING cfg) tracks))
    /\ count_if is_action added
       = (count_if (applied Decision.RATE (target cfg) (OVERRIDE_RATING cfg))
            tracks
          + count_if (applied Decision.UPDATE (target cfg) (OVERRIDE_RATING cfg))
              tracks)%nat
    /\ count_if is_track_error added
       = count_if (failed (target cfg) (OVERRIDE_RATING cfg)) tracks
    /\ length added
       = (count_if is_action added + count_if is_track_error added)%nat.
Proof.
  intros Hok. unfold rate_tracks. fold (target cfg).
  destruct (rate_loop_spec (target cfg) (OVERRIDE_RATING cfg) tracks Hok
              1%nat counts0 w) as (added & E & Ha & He & Hl & _).
  exists added. rewrite E, Ha, He, Hl, attempted_split.
  repeat split.
Qed.

Lemma library_ok_shelf (name : string) (tracks : list track) :
  Forall track_ok tracks -> library_ok (shelf name tracks).
Proof. intros H sort limit. exact H. Qed.

Lemma track_ok_healthy (name : string) (r : option Q) :
  track_ok (healthy name r).
Proof. intros v e H. discriminate. Qed.

Lemma track_ok_flaky (name : string) (r : option Q) : track_ok (flaky name r).
Proof. intros v e [= <-]. reflexivity. Qed.

Lemma library_ok_unreachable (name : string) : library_ok (unreachable name).
Proof. intros sort limit. reflexivity. Qed.

(** C2 (amended).  The decision for a track is RATE exactly when it
    has no rating, UPDATE exactly when it has one, overriding is on and
    the rating is more than 0.01 away from the target, SKIP otherwise,
    whatever the target;
    the distance and the bound are those the program computes, in
    binary64: the rounded difference of the two floats against the float
    nearest to a hundredth, which lies a little above it.  So an UPDATE
    means that the two numbers are more than a hundredth apart, and at
    the edge the floats decide: a rating equal to the float 0.01 against
    the target 0 is skipped, the float 1.99 against the target 2 is
    updated, and a difference that rounds down to the float 0.01 is
    skipped.  In [rate_tracks], a RATE or UPDATE whose [rate] call returns is
    counted as rated or updated and writes one action line; one whose call
    raises is counted nowhere and writes one error line; a SKIP is counted
    as skipped and writes nothing; the target is sent for every RATE and
    UPDATE and for no SKIP.  A sweep writes one summary line, with these
    counts, for each library whose fetch returned at least one track, and
    none for the others.  The library of three tracks (unrated, rated at
    the target, rated elsewhere with overriding on) gives rated 1,
    updated 1, skipped 1, two action lines and one summary line, after the
    line that announces the library. *)
Theorem sweep_decisions (cfg : config) (limit : option Z)
    (music_libs : list library) (w0 : world) :
  Forall library_ok music_libs ->
  (forall (cur : option Q) (pr : Q) (ov : bool),
      (classify cur pr ov = Decision.RATE <-> cur = None) /\
      (classify cur pr ov = Decision.UPDATE
       <-> exists c, cur = Some c /\ ov = true
                     /\ round64 (1 # 100) < Qabs (round64 (c - pr))) /\
      (classify cur pr ov = Decision.SKIP
       <-> exists c, cur = Some c
                     /\ (ov = false
                         \/ Qabs (round64 (c - pr)) <= round64 (1 # 100)))) /\
  (forall t : track,
      decision (target cfg) (OVERRIDE_RATING cfg) t
      = classify (userRating t) (target cfg) (OVERRIDE_RATING cfg)) /\
  (round64 (1 # 100) == 5764607523034235 # 576460752303423488
   /\ (1 # 100) < round64 (1 # 100)
   /\ (forall (c pr : Q) (ov : bool),
         classify (Some c) pr ov = Decision.UPDATE ->
         (1 # 100) < Qabs (c - pr))
   /\ (forall (c pr : Q) (ov : bool),
         Qabs (c - pr) <= (1 # 100) ->
         classify (Some c) pr ov = Decision.SKIP)
   /\ classify (Some (5764607523034235 # 576460752303423488)) 0 true
      = Decision.SKIP
   /\ classify (Some (8962163258467287 # 4503599627370496)) 2 true
      = Decision.UPDATE
   /\ classify (Some (5764607523034236 # 576460752303423488))
        (3 # 2305843009213693952) true
      = Decision.SKIP) /\
  (forall (tracks : list track) (w : world),
      Forall track_ok tracks ->
      exists added,
        rate_tracks cfg tracks w
        = (inr {| rated := count_if (applied Decision.RATE (target cfg)
                                       (OVERRIDE_RATING cfg)) tracks;
                  updated := count_if (applied Decision.UPDATE (target cfg)
                                         (OVERRIDE_RATING cfg)) tracks;
                  skipped := count_if (skips (target cfg)
                                         (OVERRIDE_RATING cfg)) tracks |},
           set_log_calls w (log w ++ added)
             (calls w
              ++ track_calls (target cfg) (OVERRIDE_RATING cfg) tracks))
        /\ count_if is_action added
           = (count_if (applied Decision.RATE (target cfg)
                          (OVERRIDE_RATING cfg)) tracks
              + count_if (applied Decision.UPDATE (target cfg)
                            (OVERRIDE_RATING cfg)) tracks)%nat
        /\ count_if is_track_error added
           = count_if (failed (target cfg) (OVERRIDE_RATING cfg)) tracks
        /\ length added
           = (count_if is_action added + count_if is_track_error added)%nat) /\
  (exists added,
      log (snd (sweep_libraries cfg limit music_libs w0)) = log w0 ++ added
      /\ count_if is_summary added = count_if (has_tracks limit) music_libs
      /\ (forall lib, lib ∈ music_libs -> has_tracks limit lib = true ->
                      library_summary cfg limit lib ∈ added)) /\
  (rate_new_tracks five_stars [three_tracks] None world0
   = (inr tt,
      {| batch_lock := false; batch_running := false;
         log := [LProcessing "Music"; LRated 1 "A"; LUpdated 3 "C";
                 LSummary "Music" 1 1 1];
         calls := [("A", Some 10); ("C", Some 10)] |})
   /\ count_if is_action
        [LProcessing "Music"; LRated 1 "A"; LUpdated 3 "C";
         LSummary "Music" 1 1 1] = 2%nat
   /\ count_if is_summary
        [LProcessing "Music"; LRated 1 "A"; LUpdated 3 "C";
         LSummary "Music" 1 1 1] = 1%nat).
Proof.
  intros Hok. split; [|split; [|split; [|split; [|split]]]].
  - intros cur pr ov. apply classify_spec.
  - intros t. reflexivity.
  - split; [exact round64_hundredth|].
    split; [rewrite round64_hundredth; reflexivity|].
    split; [|split; [|split; [|split]]].
    + intros c pr ov Hc. unfold classify in Hc.
      destruct ov; simpl in Hc; [|discriminate].
      destruct (differs c pr) eqn:Hd; [|discriminate].
      exact (differs_sound _ _ Hd).
    + intros c pr ov Hc. unfold classify.
      destruct ov; simpl; [|reflexivity].
      destruct (differs c pr) eqn:Hd; [|reflexivity].
      apply differs_sound in Hd. exfalso. exact (Qlt_not_le _ _ Hd Hc).
    + vm_compute. reflexivity.
    + vm_compute. reflexivity.
    + vm_compute. reflexivity.
  - intros tracks w Htracks. apply rate_tracks_spec. exact Htracks.
  - destruct (sweep_libraries_spec cfg limit music_libs Hok w0)
      as (added & E & _ & Hs & _ & _ & Hsum & _).
    exists added. rewrite E. repeat split; assumption.
  - split; [vm_compute; reflexivity|]. split; reflexivity.
Qed.

Lemma sweep_decisions_witness :
  Forall library_ok [three_tracks; empty_shelf; flaky_shelf] /\
  exists added,
    log (snd (sweep_libraries five_stars None
                [three_tracks; empty_shelf; flaky_shelf] world0))
    = log world0 ++ added
    /\ count_if is_summary added = 2%nat.
Proof.
  assert (H : Forall library_ok [three_tracks; empty_shelf; flaky_shelf]).
  { repeat (apply Forall_cons_2;
              [apply library_ok_shelf;
               repeat (apply Forall_cons_2;
                       [first [apply track_ok_healthy|apply track_ok_flaky]|]);
               apply Forall_nil_2|]).
    apply Forall_nil_2. }
  split; [exact H|].
  destruct (sweep_decisions five_stars None
              [three_tracks; empty_shelf; flaky_shelf] world0 H)
    as (_ & _ & _ & _ & (added & Hlog & Hcount & _) & _).
  exists added. split; [exact Hlog|]. rewrite Hcount. reflexivity.
Defined.

(** C2 as stated fails twice on one sweep over an empty library and a
    library whose first track cannot be rated: the sweep writes one
    summary line for two libraries, and the unrated track ["D"], whose
    decision is RATE, is not counted as rated. *)
Lemma sweep_decisions_counterexample :
  let libs := [empty_shelf; flaky_shelf] in
  let w := snd (rate_new_tracks five_stars libs None world0) in
  log w = [LProcessing "Empty"; LNoTracks "Empty"; LProcessing "Flaky";
           LTrackError "D" "timed out"; LRated 2 "E"; LSummary "Flaky" 1 0 0]
  /\ count_if is_summary (log w) <> length libs
  /\ decision (target five_stars) true (flaky "D" None) = Decision.RATE
  /\ count_if (fun t => Decision.eqb (decision (target five_stars) true t)
                          Decision.RATE)
       (fetched None flaky_shelf) = 2%nat
  /\ ~ (forall (cfg : config) (libs : list library),
           let w := snd (rate_new_tracks cfg libs None world0) in
           count_if is_summary (log w) = length libs
           /\ forall lib, lib ∈ libs ->
                exists u s,
                  LSummary (lib_title lib)
                    (count_if
                       (fun t => Decision.eqb
                                   (decision (target cfg) (OVERRIDE_RATING cfg) t)
                                   Decision.RATE)
                       (fetched None lib)) u s ∈ log w).
Proof.
  cbv zeta. split; [reflexivity|]. split; [vm_compute; lia|].
  split; [reflexivity|]. split; [reflexivity|].
  intros H. destruct (H five_stars [empty_shelf; flaky_shelf]) as [Hn _].
  vm_compute in Hn. discriminate.
Qed.

End DecisionFacts.

(** ** Failures stay where they happen *)

Section IsolationFacts.
Import Py RatingEngine Classify Sweep.

Lemma load_music_libs_loop_spec (plex : PlexServer) (lib_names : list string) :
  plex_ok plex ->
  forall (libs : list library) (w : world),
  exists added,
    load_music_libs_loop plex lib_names libs w
    = (inr (libs ++ resolved plex lib_names),
       set_log_calls w (log w ++ added) (calls w))
    /\ (forall name msg,
          name ∈ lib_names -> section plex name = inl (PyException msg) ->
          LLibraryFetchError name msg ∈ added /\ LLibraryWarning name ∈ added).
Proof.
  intros Hplex. induction lib_names as [|name rest IH]; intros libs w.
  - exists []. simpl. unfold mret, set_log_calls. rewrite !app_nil_r.
    split; [destruct w; reflexivity|].
    intros name msg Hin. inversion Hin.
  - cbn [load_music_libs_loop]. unfold resolved. cbn [omap list_omap].
    fold (resolved plex rest).
    unfold mbind at 1, get_music_lib, mtry_except, mbind at 1, lift.
    destruct (section plex name) as [e|lib] eqn:Hsec.
    + specialize (Hplex _ _ Hsec). destruct e as [msg|msg]; [|discriminate].
      unfold mbind at 1. cbn [add_log_entry mret fst snd].
      unfold mbind at 1. cbn [add_log_entry].
      match goal with |- context [load_music_libs_loop plex rest libs ?w'] =>
        destruct (IH libs w') as (a2 & E2 & Hm2)
      end.
      exists ([LLibraryFetchError name msg; LLibraryWarning name] ++ a2).
      rewrite E2. unfold set_log_calls. simpl. rewrite <- !app_assoc. simpl.
      split; [reflexivity|].
      intros name' msg' Hin Hsec'.
      apply elem_of_cons in Hin as [->|Hin].
      * rewrite Hsec in Hsec'. injection Hsec' as <-.
        split; apply list_elem_of_In; simpl; auto.
      * destruct (Hm2 name' msg' Hin Hsec') as [H1 H2].
        split; do 2 (apply elem_of_cons; right); assumption.
    + unfold mret at 1.
      destruct (IH (libs ++ [lib]) w) as (a2 & E2 & Hm2).
      exists a2. rewrite E2, <- app_assoc. split; [reflexivity|].
      intros name' msg' Hin Hsec'.
      apply elem_of_cons in Hin as [->|Hin]; [congruence|].
      exact (Hm2 name' msg' Hin Hsec').
Qed.

(** C8.  When the collaborator fails with [Exception]s only.
    Resolution: [load_music_libs] returns the libraries that resolve, in
    order, and writes an error and a warning for each name that does not.
    Sweep: [rate_new_tracks] on a free gate returns normally with the gate
    released; it announces every library of [music_libs] in order,
    writes a fetch error for each library whose fetch raises and a track
    error for each track whose [rate] call raises, and still sends the
    target for every track to be rated or updated in every library that
    could be fetched, whatever failed before it. *)
Theorem sweep_error_isolation (cfg : config) (limit : option Z)
    (plex : PlexServer) (lib_names : list string)
    (music_libs : list library) (w0 : world) :
  plex_ok plex ->
  Forall library_ok music_libs ->
  batch_lock w0 = false ->
  (exists added,
      load_music_libs plex lib_names w0
      = (inr (resolved plex lib_names),
         set_log_calls w0 (log w0 ++ added) (calls w0))
      /\ (forall name msg,
            name ∈ lib_names -> section plex name = inl (PyException msg) ->
            LLibraryFetchError name msg ∈ added
            /\ LLibraryWarning name ∈ added)) /\
  (exists added,
      rate_new_tracks cfg music_libs limit w0
      = (inr tt,
         {| batch_lock := false; batch_running := false;
            log := log w0 ++ added;
            calls := calls w0
                     ++ track_calls (target cfg) (OVERRIDE_RATING cfg)
                          (all_fetched limit music_libs) |})
      /\ processing_titles added = lib_title <$> music_libs
      /\ (forall lib msg,
            lib ∈ music_libs ->
            searchTracks lib (Some "addedAt:desc") limit
            = inl (PyException msg) ->
            LFetchError (lib_title lib) msg ∈ added)
      /\ (forall lib t msg,
            lib ∈ music_libs -> t ∈ fetched limit lib ->
            attempted (target cfg) (OVERRIDE_RATING cfg) t = true ->
            rate t (Some (target cfg)) = Some (PyException msg) ->
            LTrackError (title t) msg ∈ added)
      /\ count_if is_track_error added
         = count_if (failed (target cfg) (OVERRIDE_RATING cfg))
             (all_fetched limit music_libs)).
Proof.
  intros Hplex Hlibs Hfree. split.
  - destruct (load_music_libs_loop_spec plex lib_names Hplex [] w0)
      as (added & E & Hm).
    exists added. split; [exact E|exact Hm].
  - rewrite (rate_new_tracks_free cfg music_libs limit w0 Hfree).
    match goal with |- context [sweep_libraries cfg limit music_libs ?w'] =>
      destruct (sweep_libraries_spec cfg limit music_libs Hlibs w')
        as (added & E & Hp & _ & _ & He & _ & Hf & Ht)
    end.
    exists added. rewrite E. simpl. repeat split; assumption.
Qed.

Lemma sweep_error_isolation_witness :
  plex_ok one_server /\
  Forall library_ok [unreachable "Down"; flaky_shelf; three_tracks] /\
  batch_lock world0 = false /\
  exists added,
    rate_new_tracks five_stars
      [unreachable "Down"; flaky_shelf; three_tracks] None world0
    = (inr tt,
       {| batch_lock := false; batch_running := false;
          log := log world0 ++ added;
          calls := calls world0
                   ++ track_calls (target five_stars) true
                        (all_fetched None
                           [unreachable "Down"; flaky_shelf; three_tracks]) |})
    /\ processing_titles added = ["Down"; "Flaky"; "Music"].
Proof.
  assert (Hplex : plex_ok one_server).
  { intros name e. simpl. destruct (bool_decide (name = "Music")).
    - discriminate.
    - intros [= <-]. reflexivity. }
  assert (Hlibs : Forall library_ok
                    [unreachable "Down"; flaky_shelf; three_tracks]).
  { apply Forall_cons_2; [apply library_ok_unreachable|].
    repeat (apply Forall_cons_2;
              [apply library_ok_shelf;
               repeat (apply Forall_cons_2;
                       [first [apply track_ok_healthy|apply track_ok_flaky]|]);
               apply Forall_nil_2|]).
    apply Forall_nil_2. }
  assert (Hfree : batch_lock world0 = false) by reflexivity.
  split; [exact Hplex|]. split; [exact Hlibs|]. split; [exact Hfree|].
  destruct (sweep_error_isolation five_stars None one_server ["Music"; "Gone"]
              [unreachable "Down"; flaky_shelf; three_tracks] world0
              Hplex Hlibs Hfree)
    as (_ & added & E & Hp & _).
  exists added. split; [exact E|exact Hp].
Defined.

(** The same sweep, run: the unreachable library and the failing track
    leave one line each, everything after them is still done. *)
Example isolation_run :
  rate_new_tracks five_stars
    [unreachable "Down"; flaky_shelf; three_tracks] None world0
  = (inr tt,
     {| batch_lock := false; batch_running := false;
        log := [LProcessing "Down"; LFetchError "Down" "connection refused";
                LProcessing "Flaky"; LTrackError "D" "timed out";
                LRated 2 "E"; LSummary "Flaky" 1 0 0;
                LProcessing "Music"; LRated 1 "A"; LUpdated 3 "C";
                LSummary "Music" 1 1 1];
        calls := [("D", Some 10); ("E", Some 10); ("A", Some 10);
                  ("C", Some 10)] |})
  /\ fst (load_music_libs one_server ["Gone"; "Music"] world0)
     = inr [three_tracks]
  /\ log (snd (load_music_libs one_server ["Gone"; "Music"] world0))
     = [LLibraryFetchError "Gone" "NotFound"; LLibraryWarning "Gone"].
Proof. repeat split. Qed.

End IsolationFacts.

(** ** Reset *)

Section ResetFacts.
Import Py RatingEngine Classify Sweep.

Lemma reset_calls_cons (t : track) (tracks : list track) :
  reset_calls (t :: tracks)
  = (match userRating t with Some _ => [(title t, None)] | None => [] end)
      ++ reset_calls tracks.
Proof.
  unfold reset_calls. rewrite filter_cons.
  destruct (userRating t) as [r|] eqn:Hr.
  - rewrite decide_True by eauto. reflexivity.
  - rewrite decide_False; [reflexivity|].
    intros [x Hx]. discriminate.
Qed.

(** Whatever happens, the calls of [reset_tracks] are the first calls a
    full reset of these tracks would make; they are all of them when no
    call raises. *)
Lemma reset_tracks_spec (tracks : list track) :
  forall w : world,
  exists made rest,
    reset_calls tracks = made ++ rest
    /\ calls (snd (reset_tracks tracks w)) = calls w ++ made
    /\ ((forall t, t ∈ tracks -> rate t None = None) ->
        rest = [] /\ fst (reset_tracks tracks w) = inr tt).
Proof.
  induction tracks as [|t tracks IH]; intros w.
  - exists [], []. simpl. rewrite app_nil_r. auto.
  - rewrite reset_calls_cons. cbn [reset_tracks].
    destruct (userRating t) as [r|] eqn:Hr.
    + unfold mbind at 1, track_rate.
      destruct (rate t None) as [e|] eqn:Hrate.
      * exists [(title t, None)], (reset_calls tracks). simpl.
        repeat split; try reflexivity;
          exfalso; specialize (H t); rewrite Hrate in H;
          discriminate H; apply elem_of_cons; auto.
      * unfold mbind at 1. cbn [add_log_entry].
        match goal with |- context [reset_tracks tracks ?w'] =>
          destruct (IH w') as (made & rest & Hsplit & Hcalls & Hall)
        end.
        exists ((title t, None) :: made), rest. rewrite Hcalls, Hsplit.
        simpl. rewrite <- app_assoc. repeat split; try reflexivity;
          apply Hall; intros t' Hin; apply H; apply elem_of_cons; auto.
    + destruct (IH w) as (made & rest & Hsplit & Hcalls & Hall).
      exists made, rest. simpl. repeat split; try assumption;
        apply Hall; intros t' Hin; apply H; apply elem_of_cons; auto.
Qed.

(** No call ever reaches a track without a rating, and every call
    clears. *)
Lemma reset_tracks_only_rated (tracks : list track) (w : world) :
  exists made,
    calls (snd (reset_tracks tracks w)) = calls w ++ made
    /\ forall c, c ∈ made ->
         exists t, t ∈ tracks /\ is_Some (userRating t)
                   /\ c = (title t, None).
Proof.
  destruct (reset_tracks_spec tracks w) as (made & rest & Hsplit & Hcalls & _).
  exists made. split; [exact Hcalls|].
  intros c Hin.
  assert (Hc : c ∈ reset_calls tracks).
  { rewrite Hsplit. apply elem_of_app. auto. }
  unfold reset_calls in Hc. apply list_elem_of_fmap in Hc as (t & -> & Ht).
  apply list_elem_of_filter in Ht as [Hr Ht]. eauto.
Qed.

(** When every fetch and every call returns, the reset clears exactly the
    rated tracks of every library, in order. *)
Lemma reset_clears_all_rated (libs : list library) :
  (forall lib, lib ∈ libs ->
     exists tracks, searchTracks lib None None = inr tracks
                    /\ forall t, t ∈ tracks -> rate t None = None) ->
  forall w : world,
    fst (reset libs w) = inr tt
    /\ calls (snd (reset libs w))
       = calls w ++ concat ((fun lib => reset_calls (reset_fetched lib)) <$> libs).
Proof.
  induction libs as [|lib libs IH]; intros Hok w.
  - simpl. rewrite app_nil_r. auto.
  - destruct (Hok lib) as (tracks & Hfetch & Hrate);
      [apply elem_of_cons; auto|].
    destruct (reset_tracks_spec tracks w)
      as (made & rest & Hsplit & Hcalls & Hall).
    destruct (Hall Hrate) as [-> Hret]. rewrite app_nil_r in Hsplit.
    destruct (reset_tracks tracks w) as [r w1] eqn:E. simpl in Hret, Hcalls.
    subst r.
    assert (Estep : reset (lib :: libs) w = reset libs w1).
    { cbn [reset]. unfold reset_library, mtry_except, lift, mbind.
      rewrite Hfetch, E. reflexivity. }
    rewrite Estep.
    destruct (IH (fun l Hl => Hok l (proj2 (elem_of_cons _ _ _) (or_intror Hl)))
                w1) as [Hr Hc].
    split; [exact Hr|].
    rewrite Hc, Hcalls, fmap_cons. cbn [concat]. cbn beta.
    assert (Ef : reset_fetched lib = tracks).
    { unfold reset_fetched. rewrite Hfetch. reflexivity. }
    rewrite Ef, Hsplit, app_assoc. reflexivity.
Qed.

(** C10 (the code departs from it).  On a library whose first rated
    track cannot be cleared, [reset] stops at that track: the second
    track, which has a rating, gets no [rate(None)] call, although a full
    reset would call it; [rate_tracks] on the same library goes on past
    the failing track. *)
Theorem reset_stops_at_first_failure :
  reset [rated_shelf] world0
  = (inr tt,
     {| batch_lock := false; batch_running := false;
        log := [LResetError "Rated" "timed out"];
        calls := [("F", None)] |})
  /\ reset_calls (reset_fetched rated_shelf) = [("F", None); ("G", None)]
  /\ userRating (healthy "G" (Some 6)) = Some 6
  /\ (("G", None) ∉ calls (snd (reset [rated_shelf] world0)))
  /\ calls (snd (rate_new_tracks five_stars [rated_shelf] None world0))
     = [("F", Some 10); ("G", Some 10); ("H", Some 10)].
Proof.
  repeat split.
  intros Hin. apply list_elem_of_In in Hin. simpl in Hin.
  destruct Hin as [H|[]]. discriminate H.
Qed.

End ResetFacts.

(** ** The periodic scheduler *)

Section SchedulerFacts.
Import Sweep Scheduler.
Local Open Scope Z_scope.

Lemma idle_lookup (s : state) (j : nat) (p : caller_pc) :
  idle s = true -> callers s !! j = Some p -> busy p = false.
Proof.
  unfold idle. rewrite forallb_forall. intros Hall Hj.
  apply negb_true_iff. apply Hall.
  apply list_elem_of_In. apply (list_elem_of_lookup_2 _ j). exact Hj.
Qed.


Lemma not_idle_busy (s : state) :
  idle s = false -> exists j p, callers s !! j = Some p /\ busy p = true.
Proof.
  unfold idle. generalize (callers s). intros l.
  induction l as [|q l IH]; simpl; [discriminate|].
  destruct (busy q) eqn:Hq; simpl.
  - intros _. exists 0%nat, q. auto.
  - intros H. destruct (IH H) as (j & p & Hj & Hp). exists (S j), p. auto.
Qed.

Lemma early_busy (p : caller_pc) : early p = true -> busy p = true.
Proof. destruct p; auto. Qed.

Lemma stopping_busy (p : caller_pc) : stopping p = true -> busy p = true.
Proof. destruct p; auto. Qed.

(** A loop thread that moves was running, and nothing else changes but
    the log and the dispatches. *)
Lemma loop_step_shape (i : nat) (s s' : state) :
  loop_step i s = Some s' ->
  exists p p',
    threads s !! i = Some p /\ running p = true
    /\ threads s' = <[i := p']> (threads s)
    /\ callers s' = callers s
    /\ batch_thread s' = batch_thread s
    /\ batch_thread_stop_event s' = batch_thread_stop_event s
    /\ BATCH_INTERVAL_MINUTES s' = BATCH_INTERVAL_MINUTES s
    /\ now s' = now s.
Proof.
  unfold loop_step. intros Hstep.
  destruct (threads s !! i) as [p|] eqn:Hi; [|discriminate].
  destruct p; try discriminate; cbv zeta in Hstep;
    repeat match type of Hstep with
           | (if ?c then _ else _) = _ => destruct c eqn:?
           end;
    try discriminate; injection Hstep as <-;
    eexists _, _; simpl; repeat split; first [reflexivity|assumption].
Qed.

Lemma uncaught_shape (i : nat) (s s' : state) :
  uncaught i s = Some s' ->
  exists p,
    threads s !! i = Some p /\ running p = true /\ waits p = false
    /\ s' = set_thread i Exited s.
Proof.
  unfold uncaught. intros Hstep.
  destruct (threads s !! i) as [[]|]; try discriminate;
    injection Hstep as <-; eexists; repeat split.
Qed.

(** What a step of a call of [start_batch_thread] does, by the place
    the call is at. *)
Lemma start_step_cases (j : nat) (s s' : state) :
  start_step j s = Some s' ->
  exists p,
    callers s !! j = Some p /\
    match p with
    | AtStart =>
        (exists t, batch_thread s = Some t /\ is_alive s t = true
                   /\ s' = set_caller j AtSet s)
        \/ ((batch_thread s = None
             \/ exists t, batch_thread s = Some t /\ is_alive s t = false)
            /\ s' = set_caller j AtClear s)
    | AtSet => s' = set_caller j AtJoin (set_stop_event true s)
    | AtJoin =>
        exists t, batch_thread s = Some t /\ s' = set_caller j (Joining t) s
    | Joining t => is_alive s t = false /\ s' = set_caller j AtClear s
    | AtClear => s' = set_caller j AtTest (set_stop_event false s)
    | AtTest =>
        (0 < BATCH_INTERVAL_MINUTES s /\ s' = set_caller j AtSpawn s)
        \/ (BATCH_INTERVAL_MINUTES s <= 0
            /\ s' = set_caller j Done (add_log LBatchThreadNotStarted s))
    | AtSpawn => s' = set_caller j AtLog (spawn s)
    | AtLog =>
        s' = set_caller j Done
               (add_log (LBatchThreadStarted (BATCH_INTERVAL_MINUTES s)) s)
    | Done => False
    end.
Proof.
  unfold start_step. intros Hstep.
  destruct (callers s !! j) as [p|] eqn:Hj; [|discriminate].
  exists p. split; [reflexivity|].
  destruct p; try discriminate.
  - destruct (batch_thread s) as [t|] eqn:Hb.
    + destruct (is_alive s t) eqn:Ha; injection Hstep as <-; eauto 10.
    + injection Hstep as <-. auto.
  - injection Hstep as <-. reflexivity.
  - destruct (batch_thread s) as [t|]; [|discriminate].
    injection Hstep as <-. eauto.
  - destruct (is_alive s t); [discriminate|]. injection Hstep as <-. auto.
  - injection Hstep as <-. reflexivity.
  - destruct (BATCH_INTERVAL_MINUTES s >? 0) eqn:Hpos;
      injection Hstep as <-.
    + left. split; [|reflexivity]. apply Z.gtb_lt in Hpos. lia.
    + right. split; [|reflexivity]. rewrite Z.gtb_ltb in Hpos.
      apply Z.ltb_ge in Hpos. exact Hpos.
  - injection Hstep as <-. reflexivity.
  - injection Hstep as <-. reflexivity.
Qed.

(** A call that moves was under way; it touches neither the clock, nor
    the interval, nor the dispatches, and the loops only by starting
    one. *)
Lemma start_step_shape (j : nat) (s s' : state) :
  start_step j s = Some s' ->
  exists p p',
    callers s !! j = Some p /\ busy p = true
    /\ callers s' = <[j := p']> (callers s)
    /\ now s' = now s
    /\ BATCH_INTERVAL_MINUTES s' = BATCH_INTERVAL_MINUTES s
    /\ dispatches s' = dispatches s
    /\ (threads s' = threads s \/ threads s' = threads s ++ [Started]).
Proof.
  intros Hstep. destruct (start_step_cases j s s' Hstep) as (p & Hj & Hp).
  exists p.
  destruct p; try contradiction;
    repeat match goal with
           | H : _ \/ _ |- _ => destruct H
           | H : _ /\ _ |- _ => destruct H
           | H : exists _, _ |- _ => destruct H
           end; subst s';
    eexists; simpl; repeat split; auto.
Qed.

Lemma inv_init (interval : Z) : inv (init interval).
Proof.
  split; simpl.
  - intros j j' p p' Hj Hj' _ _.
    apply lookup_lt_Some in Hj, Hj'. simpl in *. lia.
  - intros i p Hi. rewrite lookup_nil in Hi. discriminate.
  - intros [|j] p Hj; simpl in Hj.
    + injection Hj as <-. exact I.
    + rewrite lookup_nil in Hj. discriminate.
  - discriminate.
  - intros i p Hi. rewrite lookup_nil in Hi. discriminate.
Qed.

Lemma inv_tick (dt : Z) (s s' : state) :
  inv s -> tick dt s = Some s' -> inv s'.
Proof.
  intros [H1 H2 H3 H4 H5] Hstep. unfold tick in Hstep.
  destruct (dt <? 0); [discriminate|]. injection Hstep as <-.
  split; simpl; assumption.
Qed.

(** What a call relies on looks at the loops only through [dead]. *)
Lemma expects_frame (s s' : state) (p : caller_pc) :
  batch_thread s' = batch_thread s ->
  batch_thread_stop_event s' = batch_thread_stop_event s ->
  BATCH_INTERVAL_MINUTES s' = BATCH_INTERVAL_MINUTES s ->
  (dead s -> dead s') ->
  expects s p -> expects s' p.
Proof.
  intros Hb He Hi Hd. destruct p; simpl; rewrite ?Hb, ?He, ?Hi; tauto.
Qed.

(** A thread that takes a step of its own, or dies, leaves the others
    as they are. *)
Lemma inv_thread (i : nat) (p p' : loop_pc) (s s' : state) :
  inv s ->
  threads s !! i = Some p -> running p = true ->
  threads s' = <[i := p']> (threads s) ->
  callers s' = callers s ->
  batch_thread s' = batch_thread s ->
  batch_thread_stop_event s' = batch_thread_stop_event s ->
  BATCH_INTERVAL_MINUTES s' = BATCH_INTERVAL_MINUTES s ->
  inv s'.
Proof.
  intros [H1 H2 H3 H4 H5] Hi Hrun Ht Hc Hb He Hint.
  assert (Hwas : forall i' q, threads s' !! i' = Some q -> running q = true ->
                 exists q0, threads s !! i' = Some q0 /\ running q0 = true).
  { intros i' q Hq Hr. rewrite Ht in Hq.
    destruct (decide (i = i')) as [<-|Hne].
    - eauto.
    - rewrite list_lookup_insert_ne in Hq by exact Hne. eauto. }
  split.
  - rewrite Hc. exact H1.
  - intros i' q Hq Hr. rewrite Hb.
    destruct (Hwas i' q Hq Hr) as (q0 & Hq0 & Hr0). eauto.
  - rewrite Hc. intros j q Hj.
    apply (expects_frame s s' q Hb He Hint); [|exact (H3 j q Hj)].
    intros Hd. rewrite (Hd i p Hi) in Hrun. discriminate.
  - rewrite He, Hc. exact H4.
  - rewrite Hc, Hint. intros i' q Hq Hr.
    destruct (Hwas i' q Hq Hr) as (q0 & Hq0 & Hr0). eauto.
Qed.

Lemma inv_loop (i : nat) (s s' : state) :
  inv s -> loop_step i s = Some s' -> inv s'.
Proof.
  intros Hinv Hstep.
  destruct (loop_step_shape i s s' Hstep)
    as (p & p' & Hi & Hrun & Ht & Hc & Hb & He & Hint & _).
  exact (inv_thread i p p' s s' Hinv Hi Hrun Ht Hc Hb He Hint).
Qed.

Lemma inv_uncaught (i : nat) (s s' : state) :
  inv s -> uncaught i s = Some s' -> inv s'.
Proof.
  intros Hinv Hstep.
  destruct (uncaught_shape i s s' Hstep) as (p & Hi & Hr & _ & ->).
  apply (inv_thread i p Exited s); auto.
Qed.

Lemma is_alive_false (s : state) (t : nat) :
  inv s -> batch_thread s = Some t -> is_alive s t = false -> dead s.
Proof.
  intros Hinv Hb Ht i p Hi. destruct (running p) eqn:Hr; [|reflexivity].
  pose proof (inv_alive s Hinv i p Hi Hr) as Hb'.
  rewrite Hb in Hb'. injection Hb' as ->.
  unfold is_alive in Ht. rewrite Hi in Ht. congruence.
Qed.

Lemma no_thread_dead (s : state) : inv s -> batch_thread s = None -> dead s.
Proof.
  intros Hinv Hb i p Hi. destruct (running p) eqn:Hr; [|reflexivity].
  pose proof (inv_alive s Hinv i p Hi Hr). congruence.
Qed.

(** The caller that moves is the only one at work. *)
Lemma other_callers_done (s : state) (j j' : nat) (p p' q : caller_pc) :
  inv s -> callers s !! j = Some p -> busy p = true ->
  <[j := p']> (callers s) !! j' = Some q -> busy q = true ->
  j' = j /\ q = p'.
Proof.
  intros Hinv Hj Hp Hq Hb.
  destruct (decide (j = j')) as [<-|Hne].
  - rewrite list_lookup_insert_eq in Hq
      by (apply lookup_lt_Some in Hj; exact Hj).
    injection Hq as <-. auto.
  - rewrite list_lookup_insert_ne in Hq by exact Hne.
    pose proof (inv_one_caller s Hinv _ _ _ _ Hq Hj Hb Hp). congruence.
Qed.

(** A call that moves from [p] to [p']: what is left to check is what
    the new place relies on. *)
Lemma inv_caller (j : nat) (p p' : caller_pc) (s s' : state) :
  inv s -> callers s !! j = Some p -> busy p = true ->
  callers s' = <[j := p']> (callers s) ->
  (forall i q, threads s' !! i = Some q -> running q = true ->
               batch_thread s' = Some i) ->
  expects s' p' ->
  (batch_thread_stop_event s' = true -> stopping p' = true) ->
  (early p' = false ->
   forall i q, threads s' !! i = Some q -> running q = true ->
               0 < BATCH_INTERVAL_MINUTES s') ->
  inv s'.
Proof.
  intros Hinv Hj Hp Hc Halive Hexp Hstop Hpos.
  assert (Hlt := lookup_lt_Some _ _ _ Hj).
  assert (Hj' : callers s' !! j = Some p')
    by (rewrite Hc; apply list_lookup_insert_eq; exact Hlt).
  split.
  - rewrite Hc. intros j1 j2 q1 q2 Hq1 Hq2 Hb1 Hb2.
    destruct (other_callers_done s j j1 p p' q1 Hinv Hj Hp Hq1 Hb1) as [-> _].
    destruct (other_callers_done s j j2 p p' q2 Hinv Hj Hp Hq2 Hb2) as [-> _].
    reflexivity.
  - exact Halive.
  - intros j1 q Hq. destruct (busy q) eqn:Hb.
    + rewrite Hc in Hq.
      destruct (other_callers_done s j j1 p p' q Hinv Hj Hp Hq Hb)
        as [_ ->]. exact Hexp.
    + destruct q; try discriminate. exact I.
  - intros He. exists j, p'. split; [exact Hj'|exact (Hstop He)].
  - intros i q Hq Hr Hall. apply (Hpos (Hall j p' Hj') i q Hq Hr).
Qed.

Lemma inv_start (j : nat) (s s' : state) :
  inv s -> start_step j s = Some s' -> inv s'.
Proof.
  intros Hinv Hstep.
  destruct (start_step_cases j s s' Hstep) as (p & Hj & Hcase).
  assert (Hquiet : forall q, stopping q = false ->
            callers s !! j = Some q -> batch_thread_stop_event s = false).
  { intros q Hq Hjq. destruct (batch_thread_stop_event s) eqn:He; [|auto].
    destruct (inv_stop s Hinv He) as (j0 & q0 & Hj0 & Hq0).
    assert (Hb : busy q = true).
    { destruct q; try reflexivity. rewrite Hj in Hjq. injection Hjq as ->.
      contradiction. }
    pose proof (inv_one_caller s Hinv _ _ _ _ Hj0 Hjq
                  (stopping_busy q0 Hq0) Hb) as ->.
    congruence. }
  pose proof (inv_pc s Hinv j p Hj) as Hexp.
  assert (Hnone_alive : dead s ->
            forall i q, threads s !! i = Some q -> running q = true ->
                        0 < BATCH_INTERVAL_MINUTES s).
  { intros Hdead i q Hq Hr. rewrite (Hdead i q Hq) in Hr. discriminate. }
  destruct p; try contradiction.
  - (* line 298 *)
    destruct Hcase as [(t & Hb & Ha & ->)|[Hnone ->]].
    + apply (inv_caller j AtStart AtSet s);
        [exact Hinv|exact Hj|reflexivity|reflexivity|..]; simpl.
      * exact (inv_alive s Hinv).
      * eauto.
      * rewrite (Hquiet AtStart eq_refl Hj). discriminate.
      * discriminate.
    + assert (Hdead : dead s).
      { destruct Hnone as [Hb|(t & Hb & Ha)].
        - exact (no_thread_dead s Hinv Hb).
        - exact (is_alive_false s t Hinv Hb Ha). }
      apply (inv_caller j AtStart AtClear s);
        [exact Hinv|exact Hj|reflexivity|reflexivity|..]; simpl.
      * exact (inv_alive s Hinv).
      * exact Hdead.
      * reflexivity.
      * intros _. exact (Hnone_alive Hdead).
  - (* line 299 *)
    subst s'. apply (inv_caller j AtSet AtJoin s);
      [exact Hinv|exact Hj|reflexivity|reflexivity|..]; simpl.
    + exact (inv_alive s Hinv).
    + split; [exact Hexp|reflexivity].
    + reflexivity.
    + discriminate.
  - (* line 300, the call *)
    destruct Hcase as (t & Hb & ->). destruct Hexp as [_ He].
    apply (inv_caller j AtJoin (Joining t) s);
      [exact Hinv|exact Hj|reflexivity|reflexivity|..]; simpl.
    + exact (inv_alive s Hinv).
    + split; assumption.
    + reflexivity.
    + discriminate.
  - (* line 300, the return *)
    destruct Hcase as [Ha ->]. destruct Hexp as [Hb He].
    pose proof (is_alive_false s t Hinv Hb Ha) as Hdead.
    apply (inv_caller j (Joining t) AtClear s);
      [exact Hinv|exact Hj|reflexivity|reflexivity|..]; simpl.
    + exact (inv_alive s Hinv).
    + exact Hdead.
    + reflexivity.
    + intros _. exact (Hnone_alive Hdead).
  - (* line 301 *)
    subst s'. apply (inv_caller j AtClear AtTest s);
      [exact Hinv|exact Hj|reflexivity|reflexivity|..]; simpl.
    + exact (inv_alive s Hinv).
    + exact Hexp.
    + discriminate.
    + intros _. exact (Hnone_alive Hexp).
  - (* line 302 *)
    destruct Hcase as [[Hpos ->]|[Hle ->]].
    + apply (inv_caller j AtTest AtSpawn s);
        [exact Hinv|exact Hj|reflexivity|reflexivity|..]; simpl.
      * exact (inv_alive s Hinv).
      * split; assumption.
      * rewrite (Hquiet AtTest eq_refl Hj). discriminate.
      * intros _. exact (Hnone_alive Hexp).
    + apply (inv_caller j AtTest Done s);
        [exact Hinv|exact Hj|reflexivity|reflexivity|..]; simpl.
      * exact (inv_alive s Hinv).
      * exact I.
      * rewrite (Hquiet AtTest eq_refl Hj). discriminate.
      * intros _. exact (Hnone_alive Hexp).
  - (* lines 303-304 *)
    subst s'. destruct Hexp as [Hdead Hpos].
    apply (inv_caller j AtSpawn AtLog s);
      [exact Hinv|exact Hj|reflexivity|reflexivity|..]; simpl.
    + intros i q Hq Hr. apply lookup_app_Some in Hq as [Hq|[Hge Hq]].
      * rewrite (Hdead i q Hq) in Hr. discriminate.
      * apply list_lookup_singleton_Some in Hq as [Hq _]. f_equal. lia.
    + exact Hpos.
    + rewrite (Hquiet AtSpawn eq_refl Hj). discriminate.
    + intros _ i q _ _. exact Hpos.
  - (* line 305 *)
    subst s'. apply (inv_caller j AtLog Done s);
      [exact Hinv|exact Hj|reflexivity|reflexivity|..]; simpl.
    + exact (inv_alive s Hinv).
    + exact I.
    + rewrite (Hquiet AtLog eq_refl Hj). discriminate.
    + intros _ i q _ _. exact Hexp.
Qed.

Lemma inv_configure (n : option Z) (s s' : state) :
  inv s -> configure false n s = Some s' -> inv s'.
Proof.
  intros Hinv Hstep. unfold configure in Hstep. simpl in Hstep.
  destruct (idle s) eqn:Hidle; [|discriminate].
  injection Hstep as <-.
  assert (Hnew : forall j q, (callers s ++ [AtStart]) !! j = Some q ->
                             busy q = true ->
                             j = length (callers s) /\ q = AtStart).
  { intros j q Hq Hb. apply lookup_app_Some in Hq as [Hq|[Hge Hq]].
    - rewrite (idle_lookup s j q Hidle Hq) in Hb. discriminate.
    - apply list_lookup_singleton_Some in Hq as [Hq <-]. split; [lia|auto]. }
  split; simpl.
  - intros j1 j2 q1 q2 H1 H2 Hb1 Hb2.
    destruct (Hnew j1 q1 H1 Hb1) as [-> _].
    destruct (Hnew j2 q2 H2 Hb2) as [-> _]. reflexivity.
  - exact (inv_alive s Hinv).
  - intros j q Hq. destruct (busy q) eqn:Hb.
    + destruct (Hnew j q Hq Hb) as [_ ->]. exact I.
    + destruct q; try discriminate. exact I.
  - intros He. destruct (inv_stop s Hinv He) as (j & p & Hj & Hp).
    exfalso. pose proof (stopping_busy p Hp) as Hb.
    rewrite (idle_lookup s j p Hidle Hj) in Hb. discriminate.
  - intros i p Hi Hr Hall. exfalso.
    specialize (Hall (length (callers s)) AtStart).
    rewrite lookup_app_r in Hall by lia. rewrite Nat.sub_diag in Hall.
    specialize (Hall eq_refl). discriminate.
Qed.

Lemma inv_step (l : label) (s s' : state) :
  inv s -> step false l s = Some s' -> inv s'.
Proof.
  intros Hinv Hstep. destruct l as [dt|i|j|n|i]; simpl in Hstep.
  - exact (inv_tick dt s s' Hinv Hstep).
  - exact (inv_loop i s s' Hinv Hstep).
  - exact (inv_start j s s' Hinv Hstep).
  - exact (inv_configure n s s' Hinv Hstep).
  - exact (inv_uncaught i s s' Hinv Hstep).
Qed.

Lemma inv_exec (ls : list label) :
  forall s s', inv s -> exec false ls s = Some s' -> inv s'.
Proof.
  induction ls as [|l ls IH]; intros s s' Hinv Hexec; simpl in Hexec.
  - injection Hexec as <-. exact Hinv.
  - destruct (step false l s) as [s1|] eqn:Hstep; [|discriminate].
    exact (IH s1 s' (inv_step l s s1 Hinv Hstep) Hexec).
Qed.

Lemma count_if_zero {A} (p : A -> bool) (l : list A) :
  (forall i x, l !! i = Some x -> p x = false) -> count_if p l = 0%nat.
Proof.
  induction l as [|x l IH]; intros H; [reflexivity|].
  rewrite count_if_cons, (H 0%nat x eq_refl), IH; [reflexivity|].
  intros i y Hy. exact (H (S i) y Hy).
Qed.

Lemma count_if_le_one {A} (p : A -> bool) (l : list A) :
  (forall i j x y, l !! i = Some x -> l !! j = Some y ->
                   p x = true -> p y = true -> i = j) ->
  (count_if p l <= 1)%nat.
Proof.
  induction l as [|x l IH]; intros H; [rewrite count_if_nil; lia|].
  rewrite count_if_cons. destruct (p x) eqn:Hx.
  - rewrite count_if_zero; [simpl; lia|].
    intros i y Hy. destruct (p y) eqn:Hpy; [|reflexivity].
    pose proof (H 0%nat (S i) x y eq_refl Hy Hx Hpy). discriminate.
  - simpl. apply IH. intros i j a b Ha Hb Hpa Hpb.
    pose proof (H (S i) (S j) a b Ha Hb Hpa Hpb). lia.
Qed.

Lemma inv_alive_count (s : state) : inv s -> (alive_count s <= 1)%nat.
Proof.
  intros Hinv. apply count_if_le_one. intros i j x y Hx Hy Hpx Hpy.
  pose proof (inv_alive s Hinv i x Hx Hpx) as H1.
  pose proof (inv_alive s Hinv j y Hy Hpy) as H2. congruence.
Qed.

Lemma alive_count_zero (s : state) : dead s -> alive_count s = 0%nat.
Proof. apply count_if_zero. Qed.


Lemma stopped_step (overlap : bool) (l : label) (s s' : state) :
  stopped s -> is_configure l = false -> step overlap l s = Some s' ->
  stopped s' /\ dispatches s' = dispatches s.
Proof.
  intros [Hidle Hdead] Hl Hstep. destruct l as [dt|i|j|n|i]; simpl in *.
  - unfold tick in Hstep. destruct (dt <? 0); [discriminate|].
    injection Hstep as <-. split; [split|]; auto.
  - destruct (loop_step_shape i s s' Hstep) as (p & _ & Hi & Hr & _).
    rewrite (Hdead i p Hi) in Hr. discriminate.
  - destruct (start_step_shape j s s' Hstep) as (p & _ & Hj & Hb & _).
    rewrite (idle_lookup s j p Hidle Hj) in Hb. discriminate.
  - discriminate.
  - destruct (uncaught_shape i s s' Hstep) as (p & Hi & Hr & _).
    rewrite (Hdead i p Hi) in Hr. discriminate.
Qed.

Lemma stopped_exec (overlap : bool) (ls : list label) :
  forall s s',
    stopped s -> forallb (fun l => negb (is_configure l)) ls = true ->
    exec overlap ls s = Some s' ->
    stopped s' /\ dispatches s' = dispatches s.
Proof.
  induction ls as [|l ls IH]; intros s s' Hs Hls Hexec; simpl in *.
  - injection Hexec as <-. auto.
  - apply andb_true_iff in Hls as [Hl Hls]. apply negb_true_iff in Hl.
    destruct (step overlap l s) as [s1|] eqn:Hstep; [|discriminate].
    destruct (stopped_step overlap l s s1 Hs Hl Hstep) as [Hs1 Hd1].
    destruct (IH s1 s' Hs1 Hls Hexec) as [Hs' Hd']. split; congruence.
Qed.

Lemma inv_stopped (s : state) :
  inv s -> idle s = true -> BATCH_INTERVAL_MINUTES s <= 0 -> stopped s.
Proof.
  intros Hinv Hidle Hint. split; [exact Hidle|].
  intros i p Hi. destruct (running p) eqn:Hr; [|reflexivity].
  assert (0 < BATCH_INTERVAL_MINUTES s); [|lia].
  apply (inv_idle s Hinv i p Hi Hr). intros j q Hj.
  destruct (early q) eqn:Hq; [|reflexivity].
  pose proof (early_busy q Hq) as Hb.
  rewrite (idle_lookup s j q Hidle Hj) in Hb. discriminate.
Qed.







Lemma timing_init (interval : Z) : timing (init interval).
Proof.
  split; simpl; intros; rewrite lookup_nil in *; discriminate.
Qed.

(** Steps that touch neither the clock nor the triggers, and send no
    thread to sleep. *)
Lemma timing_frame (s s' : state) :
  timing s ->
  now s' = now s -> dispatches s' = dispatches s ->
  (forall i p, threads s' !! i = Some p -> waits p = true ->
               threads s !! i = Some p) ->
  timing s'.
Proof.
  intros [T1 T2 T3 T4] Hnow Hd Ht. split; rewrite ?Hnow, ?Hd.
  - exact T1.
  - intros i secs wake Hi. apply (T2 i). apply Ht; [exact Hi|reflexivity].
  - intros i secs Hi. apply (T3 i). apply Ht; [exact Hi|reflexivity].
  - exact T4.
Qed.

Lemma insert_waits (l : list loop_pc) (i i' : nat) (p' p : loop_pc) :
  waits p' = false -> <[i := p']> l !! i' = Some p -> waits p = true ->
  l !! i' = Some p.
Proof.
  intros Hp' Hi' Hp. destruct (decide (i = i')) as [<-|Hne].
  - destruct (decide (i < length l)%nat) as [Hlt|Hge].
    + rewrite list_lookup_insert_eq in Hi' by exact Hlt.
      injection Hi' as <-. congruence.
    + rewrite list_insert_ge in Hi' by lia. exact Hi'.
  - rewrite list_lookup_insert_ne in Hi' by exact Hne. exact Hi'.
Qed.

Lemma timing_tick (dt : Z) (s s' : state) :
  timing s -> tick dt s = Some s' -> timing s'.
Proof.
  intros [T1 T2 T3 T4] Hstep. unfold tick in Hstep.
  destruct (dt <? 0) eqn:Hdt; [discriminate|]. apply Z.ltb_ge in Hdt.
  injection Hstep as <-. split; simpl.
  - intros k d Hk. destruct (T1 k d Hk). split; lia.
  - exact T2.
  - intros i secs Hi. destruct (T3 i secs Hi) as [Hs Hall].
    split; [exact Hs|]. intros k d Hk. specialize (Hall k d Hk). lia.
  - exact T4.
Qed.

Ltac timing_still HT :=
  match goal with
  | Hstep : Some _ = Some _ |- _ =>
      injection Hstep as <-;
      apply (timing_frame _ _ HT); [reflexivity|reflexivity|];
      simpl; intros ? ?; apply insert_waits; reflexivity
  end.

Lemma timing_loop (i : nat) (s s' : state) :
  inv s -> timing s -> loop_step i s = Some s' -> timing s'.
Proof.
  intros Hinv HT Hstep. unfold loop_step in Hstep.
  destruct (threads s !! i) as [p|] eqn:Hi; [|discriminate].
  assert (Hlt := lookup_lt_Some _ _ _ Hi).
  destruct p as [| | | |secs wake|secs| |]; try discriminate.
  - timing_still HT.
  - destruct (batch_thread_stop_event s); timing_still HT.
  - destruct (BATCH_INTERVAL_MINUTES s =? 0); timing_still HT.
  - cbv zeta in Hstep.
    destruct (BATCH_INTERVAL_MINUTES s * 60 <? 0) eqn:Hneg;
      [timing_still HT|].
    destruct (sleep_limit <? BATCH_INTERVAL_MINUTES s * 60);
      [timing_still HT|].
    apply Z.ltb_ge in Hneg.
    injection Hstep as <-. destruct HT as [T1 T2 T3 T4]. split; simpl.
    + exact T1.
    + intros i' secs wake Hi'.
      destruct (decide (i = i')) as [<-|Hne].
      * rewrite list_lookup_insert_eq in Hi' by exact Hlt.
        injection Hi' as <- <-. split; [lia|].
        intros k d Hk. destruct (T1 k d Hk). lia.
      * rewrite list_lookup_insert_ne in Hi' by exact Hne.
        exact (T2 i' secs wake Hi').
    + intros i' secs Hi'.
      destruct (decide (i = i')) as [<-|Hne].
      * rewrite list_lookup_insert_eq in Hi' by exact Hlt. discriminate.
      * rewrite list_lookup_insert_ne in Hi' by exact Hne.
        exact (T3 i' secs Hi').
    + exact T4.
  - destruct (now s <? wake) eqn:Hw; [discriminate|]. apply Z.ltb_ge in Hw.
    injection Hstep as <-. destruct HT as [T1 T2 T3 T4]. split; simpl.
    + exact T1.
    + intros i' secs' wake' Hi'.
      destruct (decide (i = i')) as [<-|Hne].
      * rewrite list_lookup_insert_eq in Hi' by exact Hlt. discriminate.
      * rewrite list_lookup_insert_ne in Hi' by exact Hne.
        exact (T2 i' secs' wake' Hi').
    + intros i' secs' Hi'.
      destruct (decide (i = i')) as [<-|Hne].
      * rewrite list_lookup_insert_eq in Hi' by exact Hlt.
        injection Hi' as <-. destruct (T2 i secs wake Hi) as [Hs Hall].
        split; [exact Hs|]. intros k d Hk. specialize (Hall k d Hk). lia.
      * rewrite list_lookup_insert_ne in Hi' by exact Hne.
        exact (T3 i' secs' Hi').
    + exact T4.
  - destruct (batch_thread_stop_event s); [timing_still HT|].
    injection Hstep as <-. destruct HT as [T1 T2 T3 T4].
    destruct (T3 i secs Hi) as [Hsecs Hall].
    assert (Honly : forall i' p, threads s !! i' = Some p ->
                                 running p = true -> i' = i).
    { intros i' p Hi' Hr.
      pose proof (inv_alive s Hinv i' p Hi' Hr) as H1.
      pose proof (inv_alive s Hinv i (Woken secs) Hi eq_refl) as H2.
      congruence. }
    split; simpl.
    + intros k d Hk. apply lookup_app_Some in Hk as [Hk|[_ Hk]].
      * exact (T1 k d Hk).
      * apply list_lookup_singleton_Some in Hk as [_ <-]. simpl. lia.
    + intros i' secs' wake' Hi'.
      destruct (decide (i = i')) as [<-|Hne].
      * rewrite list_lookup_insert_eq in Hi' by exact Hlt. discriminate.
      * rewrite list_lookup_insert_ne in Hi' by exact Hne.
        pose proof (Honly i' _ Hi' eq_refl). congruence.
    + intros i' secs' Hi'.
      destruct (decide (i = i')) as [<-|Hne].
      * rewrite list_lookup_insert_eq in Hi' by exact Hlt. discriminate.
      * rewrite list_lookup_insert_ne in Hi' by exact Hne.
        pose proof (Honly i' _ Hi' eq_refl). congruence.
    + intros a b d1 d2 Hab Ha Hb.
      apply lookup_app_Some in Hb as [Hb|[Hge Hb]].
      * assert (Ha' : dispatches s !! a = Some d1).
        { apply lookup_lt_Some in Hb.
          rewrite lookup_app_l in Ha by lia. exact Ha. }
        exact (T4 a b d1 d2 Hab Ha' Hb).
      * apply list_lookup_singleton_Some in Hb as [Hb <-]. simpl.
        assert (Ha' : dispatches s !! a = Some d1).
        { rewrite lookup_app_l in Ha by lia. exact Ha. }
        exact (Hall a d1 Ha').
  - timing_still HT.
Qed.

Lemma timing_start (j : nat) (s s' : state) :
  timing s -> start_step j s = Some s' -> timing s'.
Proof.
  intros HT Hstep.
  destruct (start_step_shape j s s' Hstep)
    as (_ & _ & _ & _ & _ & Hnow & _ & Hd & Ht).
  apply (timing_frame s s' HT Hnow Hd).
  intros i p Hi Hw. destruct Ht as [Ht|Ht]; rewrite Ht in Hi; [exact Hi|].
  apply lookup_app_Some in Hi as [Hi|[_ Hi]]; [exact Hi|].
  apply list_lookup_singleton_Some in Hi as [_ <-]. discriminate.
Qed.

Lemma timing_configure (overlap : bool) (n : option Z) (s s' : state) :
  timing s -> configure overlap n s = Some s' -> timing s'.
Proof.
  intros HT Hstep. unfold configure in Hstep.
  destruct (overlap || idle s); [|discriminate]. injection Hstep as <-.
  apply (timing_frame s); [exact HT|reflexivity|reflexivity|].
  simpl. intros i p Hi _. exact Hi.
Qed.

Lemma timing_uncaught (i : nat) (s s' : state) :
  timing s -> uncaught i s = Some s' -> timing s'.
Proof.
  intros HT Hstep.
  destruct (uncaught_shape i s s' Hstep) as (_ & _ & _ & _ & ->).
  apply (timing_frame s); [exact HT|reflexivity|reflexivity|].
  simpl. intros i' p. apply insert_waits. reflexivity.
Qed.

Lemma timing_exec (ls : list label) :
  forall s s', inv s -> timing s -> exec false ls s = Some s' -> timing s'.
Proof.
  induction ls as [|l ls IH]; intros s s' Hinv HT Hexec; simpl in Hexec.
  - injection Hexec as <-. exact HT.
  - destruct (step false l s) as [s1|] eqn:Hstep; [|discriminate].
    apply (IH s1 s'); [exact (inv_step l s s1 Hinv Hstep)| |exact Hexec].
    destruct l as [dt|i|j|n|i]; simpl in Hstep.
    + exact (timing_tick dt s s1 HT Hstep).
    + exact (timing_loop i s s1 Hinv HT Hstep).
    + exact (timing_start j s s1 HT Hstep).
    + exact (timing_configure false n s s1 HT Hstep).
    + exact (timing_uncaught i s s1 HT Hstep).
Qed.

Lemma inv_reachable (interval : Z) (ls : list label) (s : state) :
  exec false ls (init interval) = Some s -> inv s /\ timing s.
Proof.
  intros Hexec. split.
  - exact (inv_exec ls _ s (inv_init interval) Hexec).
  - exact (timing_exec ls _ s (inv_init interval) (timing_init interval) Hexec).
Qed.

(** X1.  The discipline of [start_batch_thread], for calls that do not
    overlap.  In every state the scheduler reaches from module load: at
    most one loop is alive, and it is the one [batch_thread] names; a call
    blocked in [join] waits for that loop and the stop event is set; a
    call that is past its [join] and has not yet started a loop finds
    none alive; once a call has completed with the interval at 0 no loop
    is alive and, until the next settings request, none appears and
    nothing is dispatched; and any two dispatches are at least as far
    apart as the time the loop of the later one slept before it - which
    is not negative, and can be 0. *)
Lemma serial_starts_single_loop (interval : Z) (ls : list label) (s : state) :
  exec false ls (init interval) = Some s ->
  (alive_count s <= 1)%nat /\
  (forall i, is_alive s i = true -> batch_thread s = Some i) /\
  (forall j t,
      callers s !! j = Some (Joining t) ->
      batch_thread s = Some t /\ batch_thread_stop_event s = true) /\
  (forall j p,
      callers s !! j = Some p -> p = AtClear \/ p = AtTest \/ p = AtSpawn ->
      alive_count s = 0%nat) /\
  (idle s = true -> BATCH_INTERVAL_MINUTES s = 0 ->
   alive_count s = 0%nat /\
   forall ls' s',
     forallb (fun l => negb (is_configure l)) ls' = true ->
     exec false ls' s = Some s' ->
     alive_count s' = 0%nat /\ dispatches s' = dispatches s) /\
  (forall a b d1 d2,
      (a < b)%nat -> dispatches s !! a = Some d1 ->
      dispatches s !! b = Some d2 ->
      0 <= slept d2 /\ at_time d1 + slept d2 <= at_time d2).
Proof.
  intros Hexec. destruct (inv_reachable interval ls s Hexec) as [Hinv HT].
  split; [|split; [|split; [|split; [|split]]]].
  - exact (inv_alive_count s Hinv).
  - intros i Hi. unfold is_alive in Hi.
    destruct (threads s !! i) as [p|] eqn:Hp; [|discriminate].
    exact (inv_alive s Hinv i p Hp Hi).
  - intros j t Hj. exact (inv_pc s Hinv j _ Hj).
  - intros j p Hj Hp. apply alive_count_zero.
    pose proof (inv_pc s Hinv j p Hj) as Hexp.
    destruct Hp as [->|[->| ->]]; simpl in Hexp; tauto.
  - intros Hidle H0.
    assert (Hs : stopped s) by (apply inv_stopped; [assumption..|lia]).
    split; [apply alive_count_zero; exact (proj2 Hs)|].
    intros ls' s' Hls' Hexec'.
    destruct (stopped_exec false ls' s s' Hs Hls' Hexec') as [Hs' Hd].
    split; [apply alive_count_zero; exact (proj2 Hs')|exact Hd].
  - intros a b d1 d2 Hab Ha Hb. split.
    + exact (proj2 (t_past s HT b d2 Hb)).
    + exact (t_gap s HT a b d1 d2 Hab Ha Hb).
Qed.

(** Two runs of requests that do not overlap.  In the first the
    interval is set to 0 while the loop sleeps: the loop ends when it
    wakes and none is started.  In the second the interval is set to 0
    between the test of line 285 and the sleep of line 289: the loop
    sleeps for 0 seconds and sweeps again, in the second of the sweep
    before. *)
Lemma serial_starts_switch_off :
  exec false switch_off (init 1) = Some switched_off /\
  (alive_count switched_off <= 1)%nat /\ alive_count switched_off = 0%nat /\
  exec false zero_sleep (init 1) = Some slept_zero /\
  dispatches slept_zero = [{| at_time := 60; slept := 60 |};
                           {| at_time := 60; slept := 0 |}] /\
  (forall a b d1 d2,
      (a < b)%nat -> dispatches slept_zero !! a = Some d1 ->
      dispatches slept_zero !! b = Some d2 ->
      0 <= slept d2 /\ at_time d1 + slept d2 <= at_time d2).
Proof.
  assert (H : exec false switch_off (init 1) = Some switched_off)
    by (vm_compute; reflexivity).
  assert (Hz : exec false zero_sleep (init 1) = Some slept_zero)
    by (vm_compute; reflexivity).
  split; [exact H|].
  destruct (serial_starts_single_loop 1 switch_off switched_off H)
    as (H1 & _ & _ & _ & H0 & _).
  split; [exact H1|]. split; [apply H0; reflexivity|].
  split; [exact Hz|]. split; [reflexivity|].
  destruct (serial_starts_single_loop 1 zero_sleep slept_zero Hz)
    as (_ & _ & _ & _ & _ & Hgap).
  exact Hgap.
Defined.

(** C5 (the code departs from it).  Nothing serialises calls of
    [start_batch_thread].  When two settings requests overlap, both calls
    find the old loop alive, both set the stop event and join it, and once
    it is over each clears the event and starts a loop of its own: two
    loops are alive at once, and both dispatch at the same second. *)
Theorem overlapping_starts_two_loops :
  exec true two_posts (init 1) = Some two_loops
  /\ threads two_loops = [Exited; InSweep; InSweep]
  /\ alive_count two_loops = 2%nat
  /\ dispatches two_loops = [{| at_time := 180; slept := 120 |};
                             {| at_time := 180; slept := 120 |}]
  /\ ~ (forall ls s, exec true ls (init 1) = Some s ->
                     (alive_count s <= 1)%nat).
Proof.
  assert (H : exec true two_posts (init 1) = Some two_loops)
    by (vm_compute; reflexivity).
  split; [exact H|]. repeat split.
  intros Hall. specialize (Hall two_posts two_loops H).
  vm_compute in Hall. lia.
Qed.






End SchedulerFacts.

(** ** Webhook *)

Section WebhookFacts.
Import Py Webhook.
Variable json_loads : string -> option json.
Variable SELECTED_LIBRARIES : list string.













End WebhookFacts.

Section WebhookRuns.
Import Py Webhook.


Example webhook_runs :
  let hook := plex_webhook (table_loads documents) ["Music"; "Jazz"] in
  (status (hook (Some "new music")), dispatched (hook (Some "new music")))
  = (204%nat, true) /\
  (status (hook (Some "NEW music")), dispatched (hook (Some "NEW music")))
  = (204%nat, true) /\
  (status (hook (Some "new films")), body (hook (Some "new films")))
  = (200%nat, "Ignored") /\
  (status (hook (Some "play music")), dispatched (hook (Some "play music")))
  = (200%nat, false) /\
  status (hook (Some "no fields")) = 200%nat /\
  status (hook (Some "a list")) = 500%nat /\
  status (hook (Some "event 5")) = 500%nat /\
  status (hook (Some "metadata null")) = 500%nat /\
  status (hook (Some "not a document")) = 500%nat /\
  status (hook (Some "")) = 400%nat /\
  status (hook None) = 400%nat.
Proof. vm_compute. repeat split. Qed.

End WebhookRuns.

(** ** Settings *)

Section SettingsFacts.
Import Py Settings.
Variable py_float : string -> option Py.pyfloat.
Variable py_int : string -> option Z.

Lemma is_whole_spec (q : Q) :
  is_whole q = true <-> exists k : Z, q == inject_Z k.
Proof.
  unfold is_whole, Qeq, inject_Z. simpl. rewrite Z.eqb_eq.
  rewrite Z.mod_divide by discriminate.
  split.
  - intros [k Hk]. exists k. rewrite Hk. ring.
  - intros [k Hk]. exists k. rewrite Z.mul_1_r in Hk. exact Hk.
Qed.






(** The check of ['1star'] lets through any number from 0 to 1, though
    its own message reads "must be 0 or 1". *)
Remark one_star_half_accepted :
  py_float "0.5" = Some (Finite (1 # 2)) ->
  check_rating_value py_float py_int (PStr "1star") (Some "0.5")
  = inr (PNum (1 # 2)).
Proof.
  intros H. unfold check_rating_value, to_float. simpl. rewrite H.
  reflexivity.
Qed.

End SettingsFacts.

Section SettingsRuns.
Import Py Settings.


Example settings_runs :
  rating (fst (settings_post float_of_digits int_of_digits ["Music"]
                 seven_for_five five_stars_prior))
  = {| Sweep.TARGET_RATING_STYLE := PStr "5stars";
       Sweep.TARGET_RATING_VALUE := PNum 3;
       Sweep.OVERRIDE_RATING := true |}
  /\ rating (fst (settings_post float_of_digits int_of_digits ["Music"]
                    four_for_five five_stars_prior))
     = {| Sweep.TARGET_RATING_STYLE := PStr "5stars";
          Sweep.TARGET_RATING_VALUE := PInt 4;
          Sweep.OVERRIDE_RATING := false |}.
Proof. split; reflexivity. Qed.


End SettingsRuns.

(** ** Environment variables *)

Section EnvFacts.
Import Env.

Lemma split_comma_nonempty (s : string) : split_comma s <> [].
Proof.
  destruct s as [|c rest]; simpl; [discriminate|].
  destruct (Ascii.eqb c comma); [discriminate|].
  destruct (split_comma rest); discriminate.
Qed.

Lemma split_comma_no_comma (s piece : string) :
  piece ∈ split_comma s -> has_char comma piece = false.
Proof.
  revert piece. induction s as [|c rest IH]; intros piece Hin; simpl in Hin.
  - apply list_elem_of_singleton in Hin as ->. reflexivity.
  - destruct (Ascii.eqb c comma) eqn:Hc.
    + apply elem_of_cons in Hin as [->|Hin]; [reflexivity|auto].
    + destruct (split_comma rest) as [|p ps] eqn:Hs.
      * apply list_elem_of_singleton in Hin as ->. simpl. rewrite Hc.
        reflexivity.
      * apply elem_of_cons in Hin as [->|Hin].
        -- simpl. rewrite Hc. apply IH. apply elem_of_cons. auto.
        -- apply IH. apply elem_of_cons. auto.
Qed.

Lemma has_char_lstrip (c : ascii) (s : string) :
  has_char c (lstrip s) = true -> has_char c s = true.
Proof.
  induction s as [|d rest IH]; simpl; [auto|].
  destruct (is_space d); simpl; [|auto].
  intros H. rewrite (IH H). apply orb_true_r.
Qed.

Lemma has_char_rstrip (c : ascii) (s : string) :
  has_char c (rstrip s) = true -> has_char c s = true.
Proof.
  induction s as [|d rest IH]; simpl; [auto|].
  destruct (rstrip rest) as [|e kept] eqn:Hr.
  - destruct (is_space d); simpl; [discriminate|].
    rewrite orb_false_r. intros ->. reflexivity.
  - simpl. intros H. apply orb_true_iff in H as [H|H].
    + rewrite H. reflexivity.
    + rewrite IH by exact H. apply orb_true_r.
Qed.

Lemma rstrip_idem (s : string) : rstrip (rstrip s) = rstrip s.
Proof.
  induction s as [|d rest IH]; simpl; [reflexivity|].
  destruct (rstrip rest) as [|e kept] eqn:Hr.
  - destruct (is_space d) eqn:Hd; simpl; [reflexivity|]. rewrite Hd.
    reflexivity.
  - simpl in *. rewrite IH. reflexivity.
Qed.

Lemma lstrip_fixed (s : string) :
  match s with
  | EmptyString => True
  | String c _ => is_space c = false
  end -> lstrip s = s.
Proof. destruct s as [|c rest]; simpl; [auto|]. intros ->. reflexivity. Qed.

Lemma lstrip_head (s : string) :
  match lstrip s with
  | EmptyString => True
  | String c _ => is_space c = false
  end.
Proof.
  induction s as [|c rest IH]; simpl; [exact I|].
  destruct (is_space c) eqn:Hc; [exact IH|exact Hc].
Qed.

Lemma rstrip_head (s : string) :
  match s with
  | EmptyString => True
  | String c _ => is_space c = false
  end ->
  match rstrip s with
  | EmptyString => True
  | String c _ => is_space c = false
  end.
Proof.
  destruct s as [|c rest]; simpl; [auto|]. intros Hc.
  destruct (rstrip rest); [rewrite Hc|]; exact Hc.
Qed.

Lemma strip_idem (s : string) : strip (strip s) = strip s.
Proof.
  unfold strip.
  rewrite (lstrip_fixed (rstrip (lstrip s)))
    by (apply rstrip_head, lstrip_head).
  apply rstrip_idem.
Qed.


Lemma is_space_white (c : ascii) : c ∈ white_space -> is_space c = true.
Proof.
  intros Hin. apply list_elem_of_In in Hin. cbn in Hin.
  repeat (destruct Hin as [<-|Hin]; [reflexivity|]). destruct Hin.
Qed.

Lemma rstrip_last (s : string) (c : ascii) :
  last_char (rstrip s) = Some c -> is_space c = false.
Proof.
  revert c. induction s as [|d rest IH]; intros c; simpl; [discriminate|].
  destruct (rstrip rest) as [|e kept] eqn:Hr.
  - destruct (is_space d) eqn:Hd; simpl; [discriminate|].
    intros [= <-]. exact Hd.
  - change (last_char (String d (String e kept)))
      with (match last_char (String e kept) with
            | Some x => Some x
            | None => Some d
            end).
    destruct (last_char (String e kept)) as [x|] eqn:Hl.
    + intros [= <-]. apply IH. reflexivity.
    + simpl in Hl. destruct (last_char kept); discriminate.
Qed.

Lemma strip_ends (s : string) (c : ascii) :
  head_char (strip s) = Some c \/ last_char (strip s) = Some c ->
  c ∉ white_space.
Proof.
  intros Hc Hwhite. apply is_space_white in Hwhite.
  destruct Hc as [Hhead|Hlast].
  - pose proof (rstrip_head (lstrip s) (lstrip_head s)) as H.
    unfold strip in Hhead. destruct (rstrip (lstrip s)); [discriminate|].
    injection Hhead as ->. congruence.
  - apply rstrip_last in Hlast. congruence.
Qed.

Lemma has_char_split (c : ascii) (pre post : string) :
  has_char c (pre +:+ String c post) = true.
Proof.
  induction pre as [|d pre IH]; simpl.
  - rewrite Ascii.eqb_refl. reflexivity.
  - rewrite IH. apply orb_true_r.
Qed.

(** X2.  What [getenv_list] returns is made of names that are not empty,
    hold no comma and neither begin nor end with white space (a blank, a
    tab, a line break and the like), whatever the variable holds. *)
Theorem getenv_list_clean (env : environ) (name : string) :
  Forall (fun n => clean n /\ plain n) (getenv_list env name).
Proof.
  unfold getenv_list. destruct (getenv_str env name) as [val|]; [|constructor].
  apply Forall_fmap. apply Forall_forall. intros v Hv.
  apply list_elem_of_filter in Hv as [Hne Hin].
  assert (Hcomma : has_char comma (strip v) = false).
  { destruct (has_char comma (strip v)) eqn:Hc; [|reflexivity].
    unfold strip in Hc. apply has_char_rstrip, has_char_lstrip in Hc.
    rewrite (split_comma_no_comma val v Hin) in Hc. discriminate. }
  split; [|split; [|split]].
  - repeat split; [exact Hne|exact Hcomma|apply strip_idem].
  - exact Hne.
  - intros pre post Heq. rewrite Heq in Hcomma.
    change (String "," post) with (String comma post) in Hcomma.
    rewrite has_char_split in Hcomma. discriminate.
  - apply strip_ends.
Qed.

Lemma getenv_list_clean_witness :
  getenv_list (fun _ => Some "  Music ,, Jazz Club ,") "LIBRARY_NAME"
  = ["Music"; "Jazz Club"]
  /\ Forall plain ["Music"; "Jazz Club"].
Proof.
  assert (H : getenv_list (fun _ => Some "  Music ,, Jazz Club ,")
                "LIBRARY_NAME" = ["Music"; "Jazz Club"]) by reflexivity.
  split; [exact H|].
  pose proof (getenv_list_clean (fun _ => Some "  Music ,, Jazz Club ,")
                "LIBRARY_NAME") as Hthm.
  rewrite H in Hthm. eapply Forall_impl; [exact Hthm|].
  intros n [_ Hn]. exact Hn.
Defined.

Lemma split_comma_single (s : string) :
  has_char comma s = false -> split_comma s = [s].
Proof.
  induction s as [|c rest IH]; simpl; [reflexivity|].
  intros H. apply orb_false_iff in H as [Hc Hrest].
  rewrite Hc, (IH Hrest). reflexivity.
Qed.

Lemma split_comma_app (s rest : string) :
  has_char comma s = false ->
  split_comma (s +:+ String comma rest) = s :: split_comma rest.
Proof.
  induction s as [|c s IH]; simpl.
  - intros _. reflexivity.
  - intros H. apply orb_false_iff in H as [Hc Hs].
    rewrite Hc, (IH Hs). reflexivity.
Qed.

Lemma split_join (names : list string) :
  names <> [] ->
  Forall (fun n => has_char comma n = false) names ->
  split_comma (join_comma names) = names.
Proof.
  induction names as [|n [|n' ns] IH]; intros Hne Hall.
  - contradiction.
  - simpl. apply split_comma_single. exact (Forall_inv Hall).
  - change (join_comma (n :: n' :: ns))
      with (n +:+ String comma (join_comma (n' :: ns))).
    rewrite split_comma_app by exact (Forall_inv Hall).
    rewrite IH; [reflexivity|discriminate|exact (Forall_inv_tail Hall)].
Qed.

Lemma join_comma_nonempty (n : string) (ns : list string) :
  n <> "" -> join_comma (n :: ns) <> "".
Proof.
  intros Hn. unfold join_comma. simpl. destruct ns as [|n' ns]; [exact Hn|].
  destruct n; [contradiction|discriminate].
Qed.

(** X3.  A variable set to clean names joined by commas reads back as these
    names, in order. *)
Theorem getenv_list_join (env : environ) (name : string)
    (names : list string) :
  Forall clean names ->
  env name = Some (join_comma names) ->
  getenv_list env name = names.
Proof.
  intros Hclean Henv. unfold getenv_list, getenv_str. rewrite Henv.
  destruct names as [|n ns]; [reflexivity|].
  rewrite bool_decide_eq_false_2
    by (apply join_comma_nonempty; exact (proj1 (Forall_inv Hclean))).
  rewrite split_join; [|discriminate|].
  2:{ eapply Forall_impl; [exact Hclean|]. intros x (_ & Hx & _). exact Hx. }
  assert (Hkeep : filter (fun v => strip v <> "") (n :: ns) = n :: ns).
  { generalize (n :: ns), Hclean. clear. intros l Hl.
    induction Hl as [|x l (Hx & _ & Hs) _ IH]; [reflexivity|].
    rewrite filter_cons, decide_True by (rewrite Hs; exact Hx).
    rewrite IH. reflexivity. }
  rewrite Hkeep.
  generalize (n :: ns), Hclean. clear. intros l Hl.
  induction Hl as [|x l (_ & _ & Hs) _ IH]; [reflexivity|].
  rewrite fmap_cons, Hs, IH. reflexivity.
Qed.

Lemma getenv_list_join_witness :
  Forall clean ["Music"; "Jazz Club"] /\
  getenv_list (fun _ => Some "Music,Jazz Club") "LIBRARY_NAME"
  = ["Music"; "Jazz Club"].
Proof.
  assert (H : Forall clean ["Music"; "Jazz Club"]).
  { repeat apply Forall_cons_2; try apply Forall_nil_2;
      (split; [discriminate|split; reflexivity]). }
  split; [exact H|].
  apply (getenv_list_join (fun _ => Some "Music,Jazz Club") "LIBRARY_NAME"
           ["Music"; "Jazz Club"] H).
  reflexivity.
Defined.

Example getenv_list_runs :
  getenv_list (fun _ => Some " Music , ,Jazz Club,,") "LIBRARY_NAME"
  = ["Music"; "Jazz Club"] /\
  getenv_list (fun _ => Some " , ,") "LIBRARY_NAME" = [] /\
  getenv_list (fun _ => Some "") "LIBRARY_NAME" = [] /\
  getenv_list (fun _ => None) "LIBRARY_NAME" = [].
Proof. vm_compute. repeat split. Qed.

End EnvFacts.

(** ** Sessions and login *)

Section AuthFacts.
Import Auth.
Variable start : Q.
Variable APP_USERNAME APP_PASSWORD : option string.

(** X4.  A protected view runs exactly for a session that carries the start
    time of this process and is logged in; any other session is sent to
    the login page and comes back stamped with this start time and logged
    out. *)
Theorem protected_access (route : string) (s : session) :
  let r := handle start APP_USERNAME APP_PASSWORD (Protected route) s in
  (fst r = View route <->
   (exists t, app_start_time s = Some t /\ t == start)
   /\ logged_in s = true) /\
  (fst r = View route -> snd r = s) /\
  (fst r <> View route ->
   fst r = RedirectLoginNext (Protected route)
   /\ logged_in (snd r) = false
   /\ ((exists t, app_start_time s = Some t /\ t == start) -> snd r = s)
   /\ (~ (exists t, app_start_time s = Some t /\ t == start) ->
       snd r = {| app_start_time := Some start; logged_in := false |})).
Proof.
  cbv zeta. unfold handle, force_logout_on_restart, view.
  destruct s as [[t|] li]; simpl.
  - destruct (Qeq_bool t start) eqn:Ht; simpl.
    + apply Qeq_bool_iff in Ht.
      destruct li; simpl; repeat split; eauto; try discriminate;
        try contradiction; try (intros [_ H]; discriminate).
      intros Hno. exfalso. apply Hno. eauto.
    + assert (Hne : ~ exists t', Some t = Some t' /\ t' == start).
      { intros (t' & [= <-] & Heq). apply Qeq_bool_iff in Heq. congruence. }
      repeat split; try discriminate; try contradiction; auto.
      intros [H _]. contradiction.
  - assert (Hne : ~ exists t', @None Q = Some t' /\ t' == start).
    { intros (t' & H & _). discriminate. }
    repeat split; try discriminate; try contradiction; auto.
    intros [H _]. contradiction.
Qed.


Lemma force_logout_on_restart_logged_out (s : session) :
  logged_in s = false -> logged_in (force_logout_on_restart start s) = false.
Proof.
  unfold force_logout_on_restart.
  destruct (match app_start_time s with
            | Some last_start => Qeq_bool last_start start
            | None => false
            end); auto.
Qed.

Lemma handle_not_accepted (req : request) (s : session) :
  logged_in s = false ->
  accepted APP_USERNAME APP_PASSWORD req = false ->
  is_view (fst (handle start APP_USERNAME APP_PASSWORD req s)) = false
  /\ logged_in (snd (handle start APP_USERNAME APP_PASSWORD req s)) = false.
Proof.
  intros Hs Hreq. unfold handle.
  pose proof (force_logout_on_restart_logged_out s Hs) as H1.
  destruct req as [|u p next| |route]; simpl in *.
  - auto.
  - rewrite Hreq. auto.
  - rewrite H1. auto.
  - rewrite H1. auto.
Qed.

Lemma browse_locked (reqs : list request) (s : session) :
  logged_in s = false ->
  (forall req, req ∈ reqs ->
               accepted APP_USERNAME APP_PASSWORD req = false) ->
  forallb (fun r => negb (is_view r))
    (fst (browse start APP_USERNAME APP_PASSWORD reqs s)) = true
  /\ logged_in (snd (browse start APP_USERNAME APP_PASSWORD reqs s)) = false.
Proof.
  revert s. induction reqs as [|req reqs IH]; intros s Hs Hreqs; simpl.
  - auto.
  - assert (Hreq : accepted APP_USERNAME APP_PASSWORD req = false)
      by (apply Hreqs, elem_of_cons; auto).
    destruct (handle_not_accepted req s Hs Hreq) as [Hv Hl].
    destruct (handle start APP_USERNAME APP_PASSWORD req s) as [resp s1].
    simpl in Hv, Hl.
    destruct (IH s1 Hl) as [Hvs Hls].
    { intros r Hr. apply Hreqs, elem_of_cons. auto. }
    destruct (browse start APP_USERNAME APP_PASSWORD reqs s1) as [resps s2].
    simpl in *. rewrite Hv, Hvs. auto.
Qed.

(** X5.  Without a login that passes [check_auth], nothing a browser sends
    gets through to a protected view, and the session stays logged
    out. *)
Theorem no_view_without_login (reqs : list request) (s : session) :
  logged_in s = false ->
  forallb (fun req => negb (accepted APP_USERNAME APP_PASSWORD req)) reqs
  = true ->
  forallb (fun r => negb (is_view r))
    (fst (browse start APP_USERNAME APP_PASSWORD reqs s)) = true
  /\ logged_in (snd (browse start APP_USERNAME APP_PASSWORD reqs s)) = false.
Proof.
  intros Hs Hreqs. apply browse_locked; [exact Hs|].
  intros req Hin. rewrite forallb_forall in Hreqs.
  apply negb_true_iff, Hreqs. apply list_elem_of_In. exact Hin.
Qed.

(** X6.  Log in, use, log out: a login that passes [check_auth]
    redirects to the page named by [next], or to the home page when
    [next] is absent or empty, and opens the protected views to the
    session it returns, whatever the session was before; they stay open
    request after request; a logout closes them again. *)
Theorem login_then_logout (username password : string)
    (next : option string) (route : string) (s : session) :
  check_auth APP_USERNAME APP_PASSWORD username password = true ->
  let h := handle start APP_USERNAME APP_PASSWORD in
  let s1 := snd (h (PostLogin (Some username) (Some password) next) s) in
  let s3 := snd (h Logout s1) in
  (forall url, next = Some url -> url <> "" ->
     fst (h (PostLogin (Some username) (Some password) next) s)
     = RedirectTo url) /\
  (next = None \/ next = Some "" ->
   fst (h (PostLogin (Some username) (Some password) next) s)
   = RedirectTo "/") /\
  h (Protected route) s1 = (View route, s1) /\
  h Logout s1 = (RedirectLogin, cleared) /\
  fst (h (Protected route) s3) = RedirectLoginNext (Protected route) /\
  logged_in (snd (h (Protected route) s3)) = false.
Proof.
  intros Hok. cbv zeta. unfold handle.
  assert (Hstamp : forall s',
    app_start_time (force_logout_on_restart start s') = Some start
    \/ exists t, app_start_time (force_logout_on_restart start s') = Some t
                 /\ Qeq_bool t start = true).
  { intros s'. unfold force_logout_on_restart.
    destruct (app_start_time s') as [t|] eqn:Ht; simpl; [|auto].
    destruct (Qeq_bool t start) eqn:Hq; simpl; [|auto].
    right. exists t. auto. }
  assert (Hfix : forall s', 
    (exists t, app_start_time s' = Some t /\ Qeq_bool t start = true) ->
    force_logout_on_restart start s' = s').
  { intros s' (t & Ht & Hq). unfold force_logout_on_restart.
    rewrite Ht, Hq. reflexivity. }
  assert (Hself : Qeq_bool start start = true)
    by (apply Qeq_bool_iff; reflexivity).
  set (s0 := force_logout_on_restart start s).
  assert (H0 : exists t, app_start_time s0 = Some t /\ Qeq_bool t start = true).
  { destruct (Hstamp s) as [H|H]; [exists start; auto|exact H]. }
  assert (Hs1 : snd (view APP_USERNAME APP_PASSWORD
                       (PostLogin (Some username) (Some password) next) s0)
                = {| app_start_time := app_start_time s0; logged_in := true |}).
  { simpl. rewrite Hok. destruct next as [url|]; [|reflexivity].
    destruct (bool_decide (url = "")); reflexivity. }
  rewrite Hs1.
  set (s1 := {| app_start_time := app_start_time s0; logged_in := true |}).
  assert (Hfix1 : force_logout_on_restart start s1 = s1)
    by (apply Hfix; exact H0).
  split; [|split; [|split; [|split; [|split]]]].
  - intros url -> Hurl. simpl. rewrite Hok.
    rewrite bool_decide_eq_false_2 by exact Hurl. reflexivity.
  - intros [-> | ->]; simpl; rewrite Hok; reflexivity.
  - rewrite Hfix1. reflexivity.
  - rewrite Hfix1. reflexivity.
  - rewrite Hfix1. reflexivity.
  - rewrite Hfix1. reflexivity.
Qed.

End AuthFacts.

Section CredentialFacts.
Import Env Auth.
Variable start : Q.

(** X7.  When [APP_USERNAME] or [APP_PASSWORD] is unset or empty in the
    environment, no username and password pass [check_auth] - not even
    the empty ones of a form sent without them - so that nobody logs
    in and no protected view ever runs. *)
Theorem no_login_without_credentials (env : environ)
    (reqs : list request) (s : session) :
  env "APP_USERNAME" = None \/ env "APP_USERNAME" = Some ""
  \/ env "APP_PASSWORD" = None \/ env "APP_PASSWORD" = Some "" ->
  logged_in s = false ->
  let APP_USERNAME := getenv_str env "APP_USERNAME" in
  let APP_PASSWORD := getenv_str env "APP_PASSWORD" in
  (forall username password,
      check_auth APP_USERNAME APP_PASSWORD username password = false) /\
  forallb (fun r => negb (is_view r))
    (fst (browse start APP_USERNAME APP_PASSWORD reqs s)) = true /\
  logged_in (snd (browse start APP_USERNAME APP_PASSWORD reqs s)) = false.
Proof.
  intros Hunset Hs. cbv zeta.
  assert (Hnone : getenv_str env "APP_USERNAME" = None
                  \/ getenv_str env "APP_PASSWORD" = None).
  { unfold getenv_str.
    destruct Hunset as [H|[H|[H|H]]]; rewrite H; auto. }
  assert (Hcheck : forall username password,
            check_auth (getenv_str env "APP_USERNAME")
              (getenv_str env "APP_PASSWORD") username password = false).
  { intros username password. unfold check_auth.
    destruct Hnone as [-> | ->].
    - reflexivity.
    - apply andb_false_r. }
  split; [exact Hcheck|].
  apply browse_locked; [exact Hs|].
  intros [|username password next| |route] _; simpl; auto.
Qed.

End CredentialFacts.

Section AuthRuns.
Import Auth.

Lemma no_login_without_credentials_witness :
  logged_in cleared = false /\
  check_auth (Env.getenv_str (fun _ => Some "") "APP_USERNAME")
    (Env.getenv_str (fun _ => Some "") "APP_PASSWORD") "" "" = false /\
  forallb (fun r => negb (is_view r))
    (fst (browse 7 (Env.getenv_str (fun _ => Some "") "APP_USERNAME")
            (Env.getenv_str (fun _ => Some "") "APP_PASSWORD")
            [PostLogin (Some "") (Some "") None; PostLogin None None None;
             Protected "/settings"] cleared)) = true.
Proof.
  assert (H : logged_in cleared = false) by reflexivity.
  split; [exact H|].
  pose proof (no_login_without_credentials 7 (fun _ => Some "")
                [PostLogin (Some "") (Some "") None; PostLogin None None None;
                 Protected "/settings"] cleared
                (or_intror (or_introl eq_refl)) H) as Hthm.
  cbv zeta in Hthm. destruct Hthm as (Hcheck & Hviews & _).
  split; [exact (Hcheck "" "")|exact Hviews].
Defined.

Lemma no_view_without_login_witness :
  logged_in {| app_start_time := Some 5; logged_in := false |} = false /\
  forallb (fun r => negb (is_view r))
    (fst (browse 7 (Some "admin") None
            [Protected "/"; PostLogin (Some "admin") (Some "") None;
             Protected "/settings"; PostLogin (Some "admin") None None;
             Logout; Protected "/stream"]
            {| app_start_time := Some 5; logged_in := false |})) = true.
Proof.
  assert (H : logged_in {| app_start_time := Some 5; logged_in := false |}
              = false) by reflexivity.
  split; [exact H|].
  apply (no_view_without_login 7 (Some "admin") None
           [Protected "/"; PostLogin (Some "admin") (Some "") None;
            Protected "/settings"; PostLogin (Some "admin") None None;
            Logout; Protected "/stream"]
           {| app_start_time := Some 5; logged_in := false |} H).
  reflexivity.
Defined.

Lemma login_then_logout_witness :
  check_auth (Some "admin") (Some "s3cret") "admin" "s3cret" = true /\
  fst (handle 7 (Some "admin") (Some "s3cret")
         (PostLogin (Some "admin") (Some "s3cret") (Some "/settings"))
         cleared)
  = RedirectTo "/settings" /\
  handle 7 (Some "admin") (Some "s3cret") (Protected "/settings")
    (snd (handle 7 (Some "admin") (Some "s3cret")
            (PostLogin (Some "admin") (Some "s3cret") (Some "/settings"))
            cleared))
  = (View "/settings",
     snd (handle 7 (Some "admin") (Some "s3cret")
            (PostLogin (Some "admin") (Some "s3cret") (Some "/settings"))
            cleared)).
Proof.
  assert (H : check_auth (Some "admin") (Some "s3cret") "admin" "s3cret"
              = true) by reflexivity.
  split; [exact H|].
  destruct (login_then_logout 7 (Some "admin") (Some "s3cret") "admin"
              "s3cret" (Some "/settings") "/settings" cleared H)
    as (Hnext & _ & Hview & _).
  split; [apply Hnext; [reflexivity|discriminate]|exact Hview].
Defined.

End AuthRuns.

(** ** The settings file *)

Section SettingsFileFacts.
Import Webhook SettingsFile.

Lemma dict_of_dump (s : settings) : dict_of (map_to_list s) = s.
Proof. apply list_to_map_to_list. Qed.

Lemma merge_lookup (DEFAULT_SETTINGS data : settings) (key : string) :
  key <> "override_rating" ->
  merge DEFAULT_SETTINGS data !! key
  = match data !! key with
    | Some v => Some v
    | None => DEFAULT_SETTINGS !! key
    end.
Proof.
  intros Hkey. unfold merge.
  rewrite lookup_insert_ne by congruence.
  rewrite lookup_union. destruct (data !! key), (DEFAULT_SETTINGS !! key);
    reflexivity.
Qed.

Lemma merge_override (DEFAULT_SETTINGS data : settings) :
  merge DEFAULT_SETTINGS data !! "override_rating"
  = Some (JBool (truthy
       match data !! "override_rating" with
       | Some v => v
       | None => default (JBool false) (DEFAULT_SETTINGS !! "override_rating")
       end)).
Proof.
  unfold merge. rewrite lookup_insert_eq, lookup_union.
  destruct (data !! "override_rating"),
    (DEFAULT_SETTINGS !! "override_rating"); reflexivity.
Qed.

(** Settings that hold a [bool] under ['override_rating'] and every key
    of the defaults come out of the merge as they are. *)
Lemma merge_complete (DEFAULT_SETTINGS s : settings) (b : bool) :
  s !! "override_rating" = Some (JBool b) ->
  dom DEFAULT_SETTINGS ⊆ dom s ->
  merge DEFAULT_SETTINGS s = s.
Proof.
  intros Hb Hdom. apply map_eq. intros key.
  destruct (decide (key = "override_rating")) as [->|Hkey].
  - rewrite merge_override, Hb. reflexivity.
  - rewrite merge_lookup by exact Hkey.
    destruct (s !! key) eqn:Hs; [reflexivity|].
    apply not_elem_of_dom in Hs.
    apply not_elem_of_dom. set_solver.
Qed.

Lemma merge_has (DEFAULT_SETTINGS data : settings) (key : string) :
  is_Some (DEFAULT_SETTINGS !! key) ->
  is_Some (merge DEFAULT_SETTINGS data !! key).
Proof.
  intros Hkey. destruct (decide (key = "override_rating")) as [->|Hne].
  - rewrite merge_override. eauto.
  - rewrite merge_lookup by exact Hne.
    destruct (data !! key); [eauto|exact Hkey].
Qed.

Lemma load_settings_cases (DEFAULT_SETTINGS : settings) (d : disk) :
  fst (fst (load_settings DEFAULT_SETTINGS d)) = DEFAULT_SETTINGS
  \/ exists items,
       fst (fst (load_settings DEFAULT_SETTINGS d))
       = merge DEFAULT_SETTINGS (dict_of items).
Proof.
  unfold load_settings, save_settings.
  destruct (content d) as [| |[| | | | |items| |]]; simpl; eauto.
  destruct (writable d); auto.
Qed.

(** X8.  What is saved is what the next start reads: after a save that went
    through, [load_settings] returns every saved key with the saved
    value, fills the keys that were not saved from the defaults, turns
    ['override_rating'] into a [bool], and leaves the file alone. *)
Theorem save_then_load (DEFAULT_SETTINGS s : settings) (d : disk) :
  writable d = true ->
  let d1 := fst (save_settings s d) in
  let '(loaded, d2, l) := load_settings DEFAULT_SETTINGS d1 in
  d2 = d1 /\ l = [LLoaded] /\
  (forall key, key <> "override_rating" ->
     loaded !! key = match s !! key with
                     | Some v => Some v
                     | None => DEFAULT_SETTINGS !! key
                     end) /\
  loaded !! "override_rating"
  = Some (JBool (truthy
       match s !! "override_rating" with
       | Some v => v
       | None => default (JBool false) (DEFAULT_SETTINGS !! "override_rating")
       end)) /\
  (forall b, s !! "override_rating" = Some (JBool b) ->
             dom DEFAULT_SETTINGS ⊆ dom s -> loaded = s).
Proof.
  intros Hw. unfold save_settings. rewrite Hw. cbv zeta. simpl.
  unfold load_settings. simpl. rewrite dict_of_dump.
  split; [reflexivity|]. split; [reflexivity|].
  split; [intros key Hkey; apply merge_lookup; exact Hkey|].
  split; [apply merge_override|].
  intros b Hb Hdom. exact (merge_complete DEFAULT_SETTINGS s b Hb Hdom).
Qed.


Lemma save_then_load_witness :
  writable {| content := Unreadable; writable := true |} = true /\
  fst (fst (load_settings
              {[ "override_rating" := JBool false;
                 "rating_style" := JStr "5stars" ]}
              (fst (save_settings
                      {[ "override_rating" := JBool true;
                         "rating_style" := JStr "1star" ]}
                      {| content := Unreadable; writable := true |}))))
  = {[ "override_rating" := JBool true; "rating_style" := JStr "1star" ]}.
Proof.
  assert (H : writable {| content := Unreadable; writable := true |} = true)
    by reflexivity.
  split; [exact H|].
  pose proof (save_then_load
                {[ "override_rating" := JBool false;
                   "rating_style" := JStr "5stars" ]}
                {[ "override_rating" := JBool true;
                   "rating_style" := JStr "1star" ]}
                {| content := Unreadable; writable := true |} H) as Hthm.
  cbv zeta in Hthm.
  destruct (load_settings _ _) as [[loaded d2] l].
  destruct Hthm as (_ & _ & _ & _ & Hsame).
  apply (Hsame true).
  - reflexivity.
  - rewrite !dom_insert_L. set_solver.
Defined.



(** X10.  [load_settings] never writes to a file that is there: whatever it
    holds, the disk is left as it was; and when the file cannot be read,
    or holds something that is not an object, the defaults are returned
    and the failure is logged. *)
Theorem load_settings_keeps_file (DEFAULT_SETTINGS : settings) (d : disk) :
  content d <> Missing ->
  let '(loaded, d1, l) := load_settings DEFAULT_SETTINGS d in
  d1 = d /\
  (content d = Unreadable
   \/ (exists doc, content d = Holds doc /\ is_object doc = false) ->
   loaded = DEFAULT_SETTINGS /\ LLoadFailed ∈ l) /\
  (forall items, content d = Holds (JObj items) ->
                 loaded = merge DEFAULT_SETTINGS (dict_of items)
                 /\ l = [LLoaded]).
Proof.
  intros Hthere. unfold load_settings.
  destruct (content d) as [| |doc] eqn:Hc; [contradiction| |].
  - split; [reflexivity|]. split.
    + intros _. split; [reflexivity|]. apply list_elem_of_In. simpl. auto.
    + intros items [=].
  - destruct doc as [| | | | |items| |];
      (split; [reflexivity|]); split;
      try (intros _; split; [reflexivity|];
           apply list_elem_of_In; simpl; auto; fail);
      try (intros ? [=]; fail).
    + intros [H|(doc & H & Hobj)]; [discriminate H|].
      injection H as <-. discriminate Hobj.
    + intros items' [= <-]. auto.
Qed.

Lemma load_settings_keeps_file_witness :
  content {| content := Holds (JArr []); writable := true |} <> Missing /\
  snd (fst (load_settings ∅
              {| content := Holds (JArr []); writable := true |}))
  = {| content := Holds (JArr []); writable := true |}.
Proof.
  assert (H : content {| content := Holds (JArr []); writable := true |}
              <> Missing) by discriminate.
  split; [exact H|].
  pose proof (load_settings_keeps_file ∅
                {| content := Holds (JArr []); writable := true |} H) as Hthm.
  destruct (load_settings _ _) as [[loaded d1] l].
  exact (proj1 Hthm).
Defined.

End SettingsFileFacts.

Section StartupFacts.
Import Webhook SettingsFile.
Variable py_float : string -> option Py.pyfloat.
Variable py_int : string -> option Z.

Lemma default_settings_keys (env : Env.environ) (key : string) :
  key ∈ keys -> is_Some (DEFAULT_SETTINGS py_float py_int env !! key).
Proof.
  intros Hin. apply list_elem_of_In in Hin. simpl in Hin.
  unfold DEFAULT_SETTINGS.
  destruct Hin as [<-|[<-|[<-|[<-|[<-|[]]]]]];
    rewrite ?lookup_insert_ne by discriminate;
    first [rewrite lookup_insert_eq|rewrite lookup_singleton_eq]; eauto.
Qed.

Lemma default_settings_dom (env : Env.environ) (g : Settings.globals) :
  dom (DEFAULT_SETTINGS py_float py_int env) ⊆ dom (new_settings g).
Proof.
  unfold DEFAULT_SETTINGS, new_settings.
  rewrite !dom_insert_L, !dom_singleton_L. reflexivity.
Qed.

(** X11.  Whatever the environment and the settings file hold, the settings
    [load_settings] returns have all five keys: the reads of lines
    167-171 raise no [KeyError], and the fallback 60 of
    [settings.get("batch_interval_minutes", 60)] is never used.  On a
    first start without ['BATCH_INTERVAL_MINUTES'] in the environment the
    interval is [None], not 60. *)
Theorem load_settings_all_keys (env : Env.environ) (d : disk)
    (key : string) :
  key ∈ keys ->
  let loaded :=
    fst (fst (load_settings (DEFAULT_SETTINGS py_float py_int env) d)) in
  is_Some (loaded !! key) /\
  (forall fallback, loaded !! key = Some (settings_get loaded key fallback)) /\
  (content d = Missing ->
   Env.getenv_str env "BATCH_INTERVAL_MINUTES" = None ->
   settings_get loaded "batch_interval_minutes" (json_int 60) = JNull).
Proof.
  intros Hkey. cbv zeta.
  assert (Hsome : is_Some
            (fst (fst (load_settings (DEFAULT_SETTINGS py_float py_int env) d))
               !! key)).
  { destruct (load_settings_cases (DEFAULT_SETTINGS py_float py_int env) d)
      as [-> | [items ->]].
    - apply default_settings_keys. exact Hkey.
    - apply merge_has, default_settings_keys. exact Hkey. }
  split; [exact Hsome|]. split.
  - intros fallback. unfold settings_get.
    destruct Hsome as [v ->]. reflexivity.
  - intros Hmiss Henv. unfold load_settings, save_settings. rewrite Hmiss.
    destruct (writable d); simpl; unfold settings_get, DEFAULT_SETTINGS;
      rewrite !lookup_insert_ne by discriminate;
      rewrite lookup_singleton_eq; unfold Env.getenv_int; rewrite Henv;
      reflexivity.
Qed.

(** X12.  The settings a request saves are the settings the next start loads,
    whatever the environment says by then. *)
Theorem posted_settings_survive_restart (env : Env.environ)
    (g : Settings.globals) (d : disk) :
  writable d = true ->
  let d1 := fst (save_settings (new_settings g) d) in
  load_settings (DEFAULT_SETTINGS py_float py_int env) d1
  = (new_settings g, d1, [LLoaded]).
Proof.
  intros Hw. unfold save_settings. rewrite Hw. cbv zeta. simpl.
  unfold load_settings. simpl. rewrite dict_of_dump.
  rewrite (merge_complete _ (new_settings g)
             (Sweep.OVERRIDE_RATING (Settings.rating g))).
  - reflexivity.
  - unfold new_settings. rewrite !lookup_insert_ne by discriminate.
    apply lookup_insert_eq.
  - apply default_settings_dom.
Qed.

End StartupFacts.

Section StartupRuns.
Import Webhook SettingsFile.

Lemma load_settings_all_keys_witness :
  "batch_interval_minutes" ∈ keys /\
  settings_get
    (fst (fst (load_settings
                 (DEFAULT_SETTINGS Settings.float_of_digits
                    Settings.int_of_digits (fun _ => None))
                 {| content := Missing; writable := false |})))
    "batch_interval_minutes" (json_int 60)
  = JNull.
Proof.
  assert (H : "batch_interval_minutes" ∈ keys)
    by (apply list_elem_of_In; simpl; auto 10).
  split; [exact H|].
  apply (load_settings_all_keys Settings.float_of_digits
           Settings.int_of_digits (fun _ => None)
           {| content := Missing; writable := false |}
           "batch_interval_minutes" H); reflexivity.
Defined.

Lemma posted_settings_survive_restart_witness :
  writable {| content := Missing; writable := true |} = true /\
  fst (fst (load_settings
              (DEFAULT_SETTINGS Settings.float_of_digits
                 Settings.int_of_digits (fun _ => None))
              (fst (save_settings (new_settings Settings.five_stars_prior)
                      {| content := Missing; writable := true |}))))
  = new_settings Settings.five_stars_prior.
Proof.
  assert (H : writable {| content := Missing; writable := true |} = true)
    by reflexivity.
  split; [exact H|].
  pose proof (posted_settings_survive_restart Settings.float_of_digits
                Settings.int_of_digits (fun _ => None)
                Settings.five_stars_prior
                {| content := Missing; writable := true |} H) as Hthm.
  cbv zeta in Hthm. rewrite Hthm. reflexivity.
Defined.

End StartupRuns.

(** ** Settings requests, continued *)

Section SettingsMore.
Import Py Settings Libraries.
Variable py_float : string -> option Py.pyfloat.
Variable py_int : string -> option Z.

Lemma settings_post_selected (libraries : list string) (f : form)
    (g : globals) :
  SELECTED_LIBRARIES (fst (settings_post py_float py_int libraries f g))
  = match filter (fun lib => lib ∈ libraries) (libs f) with
    | [] => SELECTED_LIBRARIES g
    | valid => valid
    end.
Proof.
  unfold settings_post.
  destruct (filter _ (libs f)) as [|lib0 libs0];
    destruct (style f) as [s|]; try destruct (valid_style s);
    destruct (check_rating_value _ _ _ _);
    destruct (check_batch_interval _ _); reflexivity.
Qed.

(** X13.  The selection after a settings request is made of names that were
    selected before or are music libraries of the server named in the
    form; it is never emptied by a request; and when the server cannot
    list its libraries it is left as it was. *)
Theorem settings_post_libraries (sections : string + list section_info)
    (f : form) (g : globals) :
  let libraries := fst (get_music_libraries sections) in
  let selected :=
    SELECTED_LIBRARIES (fst (settings_post py_float py_int libraries f g)) in
  (selected = SELECTED_LIBRARIES g
   \/ (selected <> []
       /\ forall name, name ∈ selected ->
            name ∈ libs f
            /\ exists secs s, sections = inr secs /\ s ∈ secs
                              /\ sec_title s = name
                              /\ (sec_type s = "music"
                                  \/ sec_type s = "artist"))) /\
  (SELECTED_LIBRARIES g <> [] -> selected <> []) /\
  (forall msg, sections = inl msg -> selected = SELECTED_LIBRARIES g).
Proof.
  cbv zeta. rewrite settings_post_selected.
  destruct (filter _ (libs f)) as [|lib0 libs0] eqn:Hvalid.
  - split; [auto|]. split; auto.
  - split; [|split].
    + right. split; [discriminate|]. intros name Hin.
      rewrite <- Hvalid in Hin.
      apply list_elem_of_filter in Hin as [Havail Hform].
      split; [exact Hform|].
      destruct sections as [msg|secs]; simpl in Havail.
      { inversion Havail. }
      apply list_elem_of_fmap in Havail as (s & -> & Hs).
      apply list_elem_of_filter in Hs as [Hmusic Hs].
      exists secs, s. repeat split; auto.
      unfold is_music in Hmusic. apply bool_decide_eq_true in Hmusic.
      apply list_elem_of_In in Hmusic. simpl in Hmusic. intuition.
    + discriminate.
    + intros msg ->. simpl in Hvalid.
      assert (Hin : lib0 ∈ filter (fun lib => lib ∈ []) (libs f))
        by (rewrite Hvalid; apply elem_of_cons; auto).
      apply list_elem_of_filter in Hin as [Hin _]. inversion Hin.
Qed.

(** X14.  A settings request never stores a negative interval: the interval
    after it is the one before it, or not below zero. *)
Theorem settings_post_interval (libraries : list string) (f : form)
    (g : globals) :
  let after :=
    BATCH_INTERVAL_MINUTES
      (fst (settings_post py_float py_int libraries f g)) in
  after = BATCH_INTERVAL_MINUTES g
  \/ exists s n, batch_interval f = Some s /\ py_int s = Some n
                 /\ (0 <= n)%Z /\ after = Some n.
Proof.
  cbv zeta.
  assert (H : BATCH_INTERVAL_MINUTES
                (fst (settings_post py_float py_int libraries f g))
              = match check_batch_interval py_int (batch_interval f) with
                | inr n => Some n
                | inl _ => BATCH_INTERVAL_MINUTES g
                end).
  { unfold settings_post.
    destruct (filter _ (libs f)) as [|lib0 libs0];
      destruct (style f) as [s|]; try destruct (valid_style s);
      destruct (check_rating_value _ _ _ _);
      destruct (check_batch_interval _ _); reflexivity. }
  rewrite H. unfold check_batch_interval, to_int.
  destruct (batch_interval f) as [s|]; [|auto].
  destruct (py_int s) as [n|] eqn:Hn; [|auto].
  destruct (n <? 0)%Z eqn:Hneg; [auto|].
  right. exists s, n. apply Z.ltb_ge in Hneg. auto.
Qed.

(** X15.  Sending the same form twice changes nothing more than sending it
    once: same globals, same log lines. *)
Theorem settings_post_idempotent (libraries : list string) (f : form)
    (g : globals) :
  settings_post py_float py_int libraries f
    (fst (settings_post py_float py_int libraries f g))
  = settings_post py_float py_int libraries f g.
Proof.
  unfold settings_post.
  destruct (check_batch_interval py_int (batch_interval f)) eqn:Hb;
    destruct (filter _ (libs f)) as [|lib0 libs0] eqn:Hvalid;
    destruct (check_rating_value py_float py_int
                (Sweep.TARGET_RATING_STYLE (rating g)) (val f)) eqn:Hold;
    (destruct (style f) as [sty|];
     [destruct (valid_style sty);
      [destruct (check_rating_value py_float py_int (PStr sty) (val f))
         eqn:Hnew|]|]);
    repeat (progress (cbn; rewrite ?Hold, ?Hnew)); reflexivity.
Qed.

End SettingsMore.

Section AcceptedValue.
Import Py Settings RatingEngine.
Variable py_float : string -> option Py.pyfloat.
Variable py_int : string -> option Z.

Lemma five_stars_inside (q : Q) :
  1 <= q <= 5 -> py_max 2 (py_min 10 (q / 5 * 10)) == 2 * q.
Proof.
  intros [H1 H5]. rewrite py_max_Qmax, py_min_Qmin.
  assert (E : q / 5 * 10 == 2 * q) by field. rewrite E.
  rewrite (Q.min_r 10 (2 * q)) by lra. apply Q.max_r. lra.
Qed.

(** X16.  A value the settings form accepts is the one read from the
    field, and never meets the clamp or the fallback of
    [convert_to_plex_rating]: under ['5stars'] it is an [int] from 1 to
    5, under ['5stars_half'] a float from 1 to 5 whose double is whole,
    and the target is twice the value; under ['1star'] it is a float from
    0 to 1, with target 10 for the value 1 and 0 for any smaller one, or
    NaN, with target 0. *)
Theorem accepted_value_target (s : string) (val : option string)
    (v : pyval) :
  valid_style s = true ->
  check_rating_value py_float py_int (PStr s) val = inr v ->
  convert_body (PStr s) v
  = inr (convert_to_plex_rating (PStr s) v) /\
  (s = "5stars" ->
   exists str n, val = Some str /\ py_int str = Some n
                 /\ v = PInt n /\ (1 <= n <= 5)%Z
                 /\ convert_to_plex_rating (PStr s) v == 2 * inject_Z n) /\
  (s = "5stars_half" ->
   exists str q, val = Some str /\ py_float str = Some (Finite q)
                 /\ v = PNum q /\ 1 <= q <= 5
                 /\ (exists k, q * 2 == inject_Z k)
                 /\ convert_to_plex_rating (PStr s) v == 2 * q) /\
  (s = "1star" ->
   (exists str, val = Some str /\ py_float str = Some NaN
                /\ v = PNaN /\ convert_to_plex_rating (PStr s) v = 0)
   \/ exists str q,
        val = Some str /\ py_float str = Some (Finite q)
        /\ v = PNum q /\ 0 <= q <= 1
        /\ (q == 1 -> convert_to_plex_rating (PStr s) v = 10)
        /\ (q < 1 -> convert_to_plex_rating (PStr s) v = 0)).
Proof.
  intros Hvalid Hcheck.
  unfold valid_style in Hvalid. apply bool_decide_eq_true in Hvalid.
  apply list_elem_of_In in Hvalid. simpl in Hvalid.
  destruct Hvalid as [<-|[<-|[<-|[]]]].
  - (* 1star *)
    unfold check_rating_value, to_float in Hcheck. simpl in Hcheck.
    destruct val as [str|]; [|discriminate].
    destruct (py_float str) as [[q|b|]|] eqn:Hstr; [| | |discriminate];
      simpl in Hcheck.
    + destruct (Qltb q 0 || Qltb 1 q) eqn:Hr; [discriminate|].
      injection Hcheck as <-. apply orb_false_iff in Hr as [H0 H1].
      apply Qltb_ge in H0, H1.
      split; [reflexivity|].
      split; [intros [=]|]. split; [intros [=]|]. intros _.
      right. exists str, q. split; [reflexivity|]. split; [exact Hstr|].
      split; [reflexivity|]. split; [auto|].
      rewrite convert_one_star. split.
      * intros Heq. assert (Hle : Qle_bool 1 q = true)
          by (apply Qle_bool_iff; lra). rewrite Hle. reflexivity.
      * intros Hlt. destruct (Qle_bool 1 q) eqn:Hle; [|reflexivity].
        apply Qle_bool_iff in Hle. lra.
    + destruct b; discriminate.
    + injection Hcheck as <-.
      split; [reflexivity|].
      split; [intros [=]|]. split; [intros [=]|]. intros _.
      left. exists str. repeat split. exact Hstr.
  - (* 5stars *)
    unfold check_rating_value, to_int in Hcheck. simpl in Hcheck.
    destruct val as [str|]; [|discriminate].
    destruct (py_int str) as [n|] eqn:Hstr; [|discriminate].
    destruct ((n <? 1) || (n >? 5))%Z eqn:Hr; [discriminate|].
    injection Hcheck as <-. apply orb_false_iff in Hr as [H1 H5].
    apply Z.ltb_ge in H1. rewrite Z.gtb_ltb in H5. apply Z.ltb_ge in H5.
    assert (Hv : 1 <= inject_Z n <= 5).
    { split; [change 1 with (inject_Z 1)|change 5 with (inject_Z 5)];
        rewrite <- Zle_Qle; assumption. }
    assert (Hsmall : too_large n = false) by (apply too_large_small; lia).
    assert (Hbody : convert_body (PStr "5stars") (PInt n)
                    = inr (py_max 2 (py_min 10 (inject_Z n / 5 * 10)))).
    { unfold convert_body, div_num. simpl. rewrite Hsmall. reflexivity. }
    unfold convert_to_plex_rating. rewrite Hbody.
    split; [reflexivity|].
    split; [|split; intros [=]]. intros _.
    exists str, n. split; [reflexivity|]. split; [exact Hstr|].
    split; [reflexivity|]. split; [lia|].
    apply five_stars_inside. exact Hv.
  - (* 5stars_half *)
    unfold check_rating_value, to_float in Hcheck. simpl in Hcheck.
    destruct val as [str|]; [|discriminate].
    destruct (py_float str) as [[q|b|]|] eqn:Hstr; [| | |discriminate];
      simpl in Hcheck.
    + destruct (Qltb q 1 || Qltb 5 q || negb (is_whole (q * 2))) eqn:Hr;
        [discriminate|].
      injection Hcheck as <-. apply orb_false_iff in Hr as [Hr Hw].
      apply orb_false_iff in Hr as [H1 H5]. apply Qltb_ge in H1, H5.
      apply negb_false_iff in Hw.
      apply (is_whole_spec (q * 2)) in Hw.
      split; [reflexivity|].
      split; [intros [=]|]. split; [|intros [=]]. intros _.
      exists str, q. split; [reflexivity|]. split; [exact Hstr|].
      split; [reflexivity|]. split; [auto|]. split; [exact Hw|].
      rewrite convert_five_stars by discriminate.
      apply five_stars_inside. auto.
    + rewrite orb_true_r in Hcheck. discriminate.
    + discriminate.
Qed.

End AcceptedValue.

Section AcceptedValueRuns.
Import Py Settings RatingEngine.

Lemma accepted_value_target_witness :
  valid_style "5stars_half" = true /\
  check_rating_value float_of_text int_of_digits (PStr "5stars_half")
    (Some "4") = inr (PNum 4) /\
  convert_to_plex_rating (PStr "5stars_half") (PNum 4) == 8 /\
  check_rating_value float_of_text int_of_digits (PStr "1star")
    (Some "nan") = inr PNaN /\
  convert_to_plex_rating (PStr "1star") PNaN = 0.
Proof.
  assert (H1 : valid_style "5stars_half" = true) by reflexivity.
  assert (H2 : check_rating_value float_of_text int_of_digits
                 (PStr "5stars_half") (Some "4") = inr (PNum 4))
    by (vm_compute; reflexivity).
  assert (H3 : valid_style "1star" = true) by reflexivity.
  assert (H4 : check_rating_value float_of_text int_of_digits
                 (PStr "1star") (Some "nan") = inr PNaN)
    by (vm_compute; reflexivity).
  split; [exact H1|]. split; [exact H2|].
  destruct (accepted_value_target float_of_text int_of_digits
              "5stars_half" (Some "4") (PNum 4) H1 H2) as (_ & _ & H5 & _).
  destruct (H5 eq_refl) as (str & q & _ & _ & [= <-] & _ & _ & Heq).
  split; [rewrite Heq; reflexivity|].
  split; [exact H4|].
  destruct (accepted_value_target float_of_text int_of_digits
              "1star" (Some "nan") PNaN H3 H4) as (_ & _ & _ & H6).
  destruct (H6 eq_refl)
    as [(str1 & _ & _ & _ & Hz)|(str2 & q2 & _ & _ & [=] & _)].
  exact Hz.
Defined.

End AcceptedValueRuns.

(** ** Calls that reach the server *)

Section TrafficFacts.
Import Py RatingEngine Classify Sweep Traffic.

Lemma sends_mret {A} P (a : A) : sends P (mret a).
Proof. intros w. exists []. simpl. rewrite app_nil_r. auto. Qed.

Lemma sends_lift {A} P (r : result A) : sends P (lift r).
Proof. intros w. exists []. simpl. rewrite app_nil_r. auto. Qed.

Lemma sends_add_log_entry P (e : log_event) : sends P (add_log_entry e).
Proof. intros w. exists []. simpl. rewrite app_nil_r. auto. Qed.

Lemma sends_set_batch_running P (b : bool) : sends P (set_batch_running b).
Proof. intros w. exists []. simpl. rewrite app_nil_r. auto. Qed.

Lemma sends_lock_acquire P : sends P lock_acquire_nonblocking.
Proof.
  intros w. exists []. unfold lock_acquire_nonblocking.
  destruct (batch_lock w); simpl; rewrite app_nil_r; auto.
Qed.

Lemma sends_lock_release P : sends P lock_release.
Proof.
  intros w. exists []. unfold lock_release.
  destruct (batch_lock w); simpl; rewrite app_nil_r; auto.
Qed.

Lemma sends_track_rate (P : string * option Q -> Prop) (t : track)
    (v : option Q) :
  P (title t, v) -> sends P (track_rate t v).
Proof.
  intros HP w. exists [(title t, v)]. unfold track_rate.
  destruct (rate t v); simpl; auto.
Qed.

Lemma sends_mbind {A B} P (m : M A) (k : A -> M B) :
  sends P m -> (forall a, sends P (k a)) -> sends P (mbind m k).
Proof.
  intros Hm Hk w. unfold mbind.
  destruct (Hm w) as (a1 & E1 & F1).
  destruct (m w) as [[e|a] w1]; simpl in *.
  - exists a1. auto.
  - destruct (Hk a w1) as (a2 & E2 & F2).
    exists (a1 ++ a2). rewrite E2, E1, app_assoc.
    split; [reflexivity|]. apply Forall_app. auto.
Qed.

Lemma sends_mbind_lift {A B} P (r : result A) (k : A -> M B) :
  (forall a, r = inr a -> sends P (k a)) -> sends P (mbind (lift r) k).
Proof.
  intros Hk w. unfold mbind, lift. destruct r as [e|a].
  - exists []. simpl. rewrite app_nil_r. auto.
  - exact (Hk a eq_refl w).
Qed.

Lemma sends_mtry_except {A} P (m : M A) (h : string -> M A) :
  sends P m -> (forall msg, sends P (h msg)) -> sends P (mtry_except m h).
Proof.
  intros Hm Hh w. unfold mtry_except.
  destruct (Hm w) as (a1 & E1 & F1).
  destruct (m w) as [[[msg|msg]|a] w1]; simpl in *;
    try (exists a1; auto; fail).
  destruct (Hh msg w1) as (a2 & E2 & F2).
  exists (a1 ++ a2). rewrite E2, E1, app_assoc.
  split; [reflexivity|]. apply Forall_app. auto.
Qed.

Lemma sends_mtry_finally {A} P (m : M A) (fin : M unit) :
  sends P m -> sends P fin -> sends P (mtry_finally m fin).
Proof.
  intros Hm Hf w. unfold mtry_finally.
  destruct (Hm w) as (a1 & E1 & F1).
  destruct (m w) as [r w1]; simpl in *.
  destruct (Hf w1) as (a2 & E2 & F2).
  exists (a1 ++ a2).
  destruct (fin w1) as [[e|[]] w2]; simpl in *;
    rewrite E2, E1, app_assoc; (split; [reflexivity|]);
    apply Forall_app; auto.
Qed.

Lemma sends_weaken {A} (P P' : string * option Q -> Prop) (m : M A) :
  (forall c, P c -> P' c) -> sends P m -> sends P' m.
Proof.
  intros Himp Hm w. destruct (Hm w) as (added & E & F).
  exists added. split; [exact E|]. eapply Forall_impl; eauto.
Qed.

Create HintDb traffic discriminated.

#[local] Hint Resolve sends_mret sends_lift sends_add_log_entry
  sends_set_batch_running sends_lock_acquire sends_lock_release : traffic.

Lemma sends_rate_track (pr : Q) (ov : bool) (idx : nat) (t : track)
    (c : counts) :
  sends (fun call => call = (title t, Some pr) /\ attempted pr ov t = true)
    (rate_track pr ov idx t c).
Proof.
  unfold rate_track. apply sends_mtry_except.
  - unfold attempted, decision, classify.
    destruct (userRating t) as [curr|].
    + destruct (ov && differs curr pr).
      * apply sends_mbind; [apply sends_track_rate; auto|intros _].
        apply sends_mbind; auto with traffic.
      * auto with traffic.
    + apply sends_mbind; [apply sends_track_rate; auto|intros _].
      apply sends_mbind; auto with traffic.
  - intros msg. apply sends_mbind; auto with traffic.
Qed.

Lemma sends_rate_loop (pr : Q) (ov : bool) (tracks : list track) :
  forall (idx : nat) (c : counts),
    sends (fun call => exists t, t ∈ tracks /\ call = (title t, Some pr)
                                 /\ attempted pr ov t = true)
      (rate_loop pr ov idx tracks c).
Proof.
  induction tracks as [|t tracks IH]; intros idx c; cbn [rate_loop].
  - auto with traffic.
  - apply sends_mbind.
    + eapply sends_weaken; [|apply sends_rate_track].
      intros call [-> Ha]. exists t. split; [apply elem_of_cons; auto|auto].
    + intros c'. eapply sends_weaken; [|apply IH].
      intros call (t' & Hin & Hc & Ha). exists t'.
      split; [apply elem_of_cons; auto|auto].
Qed.

Lemma attempted_why (pr : Q) (ov : bool) (t : track) :
  attempted pr ov t = true ->
  userRating t = None
  \/ (ov = true /\ exists c, userRating t = Some c
                             /\ (1 # 100) < Qabs (c - pr)).
Proof.
  unfold attempted, decision, classify.
  destruct (userRating t) as [c|]; [|auto].
  destruct ov; simpl; [|discriminate].
  destruct (differs c pr) eqn:Hd; [|discriminate].
  intros _. right. split; [reflexivity|]. exists c. split; [reflexivity|].
  exact (differs_sound _ _ Hd).
Qed.

Lemma sends_sweep_library (cfg : config) (limit : option Z) (lib : library) :
  sends (sweep_call cfg limit [lib]) (sweep_library cfg limit lib).
Proof.
  unfold sweep_library.
  apply sends_mbind; [auto with traffic|intros _].
  apply sends_mtry_except; [|auto with traffic].
  apply sends_mbind_lift. intros tracks Hfetch.
  destruct tracks as [|t0 tracks]; [auto with traffic|].
  apply sends_mbind; [|auto with traffic].
  unfold rate_tracks. fold (target cfg).
  eapply sends_weaken; [|apply sends_rate_loop].
  intros call (t & Hin & -> & Ha). exists lib, t.
  split; [apply list_elem_of_singleton; reflexivity|].
  split; [unfold fetched; rewrite Hfetch; exact Hin|].
  split; [reflexivity|]. apply attempted_why. exact Ha.
Qed.

Lemma sweep_call_mono (cfg : config) (limit : option Z)
    (libs libs' : list library) (call : string * option Q) :
  (forall lib, lib ∈ libs -> lib ∈ libs') ->
  sweep_call cfg limit libs call -> sweep_call cfg limit libs' call.
Proof.
  intros Hsub (lib & t & Hin & H). exists lib, t. split; auto.
Qed.

Lemma sends_sweep_libraries (cfg : config) (limit : option Z)
    (libs : list library) :
  sends (sweep_call cfg limit libs) (sweep_libraries cfg limit libs).
Proof.
  induction libs as [|lib libs IH]; cbn [sweep_libraries].
  - auto with traffic.
  - apply sends_mbind.
    + eapply sends_weaken; [|apply sends_sweep_library].
      intros call. apply sweep_call_mono. intros l Hl.
      apply list_elem_of_singleton in Hl as ->. apply elem_of_cons. auto.
    + intros _. eapply sends_weaken; [|apply IH].
      intros call. apply sweep_call_mono. intros l Hl.
      apply elem_of_cons. auto.
Qed.

Lemma target_range (cfg : config) : 0 <= target cfg <= 10.
Proof.
  unfold target, convert_to_plex_rating.
  destruct (convert_body _ _) as [e|r] eqn:Hb; [lra|].
  exact (convert_body_range _ _ r Hb).
Qed.

(** X17.  Whatever the server does - fetches that fail, calls that raise,
    even an exception that ends the sweep - every [rate] call made by
    [rate_new_tracks] sends the target, which lies between 0 and 10, to
    a track that one of the libraries handed over and that had no
    rating, or had one more than 0.01 away from the target while
    overriding was on.  In particular a rating is never cleared, and
    with overriding off no rated track is touched. *)
Theorem sweep_calls_sound (cfg : config) (music_libs : list library)
    (limit : option Z) (w : world) :
  exists added,
    calls (snd (rate_new_tracks cfg music_libs limit w)) = calls w ++ added
    /\ Forall (sweep_call cfg limit music_libs) added
    /\ 0 <= target cfg <= 10
    /\ (forall name, (name, None) ∉ added)
    /\ (OVERRIDE_RATING cfg = false ->
        forall call, call ∈ added ->
          exists lib t, lib ∈ music_libs /\ t ∈ fetched limit lib
                        /\ userRating t = None
                        /\ call = (title t, Some (target cfg))).
Proof.
  assert (Hs : sends (sweep_call cfg limit music_libs)
                 (rate_new_tracks cfg music_libs limit)).
  { unfold rate_new_tracks, acquire_phase, finally_phase.
    apply sends_mbind.
    - apply sends_mbind; [auto with traffic|].
      intros [|]; apply sends_mbind; auto with traffic.
    - intros [|]; [|auto with traffic].
      apply sends_mtry_finally; [apply sends_sweep_libraries|].
      apply sends_mbind; auto with traffic. }
  destruct (Hs w) as (added & E & F). exists added.
  split; [exact E|]. split; [exact F|]. split; [apply target_range|].
  rewrite Forall_forall in F. split.
  - intros name Hin. destruct (F _ Hin) as (lib & t & _ & _ & Hc & _).
    discriminate Hc.
  - intros Hov call Hin.
    destruct (F _ Hin) as (lib & t & Hl & Ht & Hc & [Hn|[Ho _]]).
    + exists lib, t. auto.
    + congruence.
Qed.

Lemma sends_reset_tracks (tracks : list track) :
  sends (fun call => exists t, t ∈ tracks /\ is_Some (userRating t)
                               /\ call = (title t, None))
    (reset_tracks tracks).
Proof.
  induction tracks as [|t tracks IH]; cbn [reset_tracks].
  - auto with traffic.
  - assert (Hrest : sends (fun call =>
                       exists t', t' ∈ t :: tracks /\ is_Some (userRating t')
                                  /\ call = (title t', None))
                      (reset_tracks tracks)).
    { eapply sends_weaken; [|exact IH].
      intros call (t' & Hin & H). exists t'.
      split; [apply elem_of_cons; auto|exact H]. }
    destruct (userRating t) as [r|] eqn:Hr; [|exact Hrest].
    apply sends_mbind.
    + apply sends_track_rate. exists t.
      split; [apply elem_of_cons; auto|]. rewrite Hr. eauto.
    + intros _. apply sends_mbind; [auto with traffic|].
      intros _. exact Hrest.
Qed.

Lemma reset_call_mono (libs libs' : list library)
    (call : string * option Q) :
  (forall lib, lib ∈ libs -> lib ∈ libs') ->
  reset_call libs call -> reset_call libs' call.
Proof.
  intros Hsub (lib & t & Hin & H). exists lib, t. split; auto.
Qed.

Lemma sends_reset (libs : list library) :
  sends (reset_call libs) (reset libs).
Proof.
  induction libs as [|lib libs IH]; cbn [reset].
  - auto with traffic.
  - apply sends_mbind.
    + unfold reset_library.
      apply sends_mtry_except; [|auto with traffic].
      apply sends_mbind_lift. intros tracks Hfetch.
      eapply sends_weaken; [|apply sends_reset_tracks].
      intros call (t & Hin & Hr & ->). exists lib, t.
      split; [apply elem_of_cons; auto|].
      split; [unfold reset_fetched; rewrite Hfetch; exact Hin|auto].
    + intros _. eapply sends_weaken; [|apply IH].
      intros call. apply reset_call_mono. intros l Hl.
      apply elem_of_cons. auto.
Qed.

Lemma keeps_gate_reset_tracks (tracks : list track) :
  keeps_gate (reset_tracks tracks).
Proof.
  induction tracks as [|t tracks IH]; cbn [reset_tracks].
  - apply keeps_gate_mret.
  - destruct (userRating t); [|exact IH].
    apply keeps_gate_mbind; [apply keeps_gate_track_rate|intros _].
    apply keeps_gate_mbind; [apply keeps_gate_add_log_entry|intros _].
    exact IH.
Qed.

Lemma keeps_gate_reset (libs : list library) : keeps_gate (reset libs).
Proof.
  induction libs as [|lib libs IH]; cbn [reset].
  - apply keeps_gate_mret.
  - apply keeps_gate_mbind; [|intros _; exact IH].
    unfold reset_library. apply keeps_gate_mtry_except.
    + apply keeps_gate_mbind; [apply keeps_gate_lift|intros tracks].
      apply keeps_gate_reset_tracks.
    + intros msg. apply keeps_gate_add_log_entry.
Qed.

(** X18.  Whatever the server does, every call a reset makes is [rate(None)]
    on a track that one of the libraries handed over and that had a
    rating: a reset never sends a rating and never touches an unrated
    track.  It leaves the gate of the sweep as it finds it, held or
    free. *)
Theorem reset_calls_sound (music_libs : list library) (w : world) :
  (exists added,
     calls (snd (reset music_libs w)) = calls w ++ added
     /\ Forall (reset_call music_libs) added
     /\ forall name v, (name, Some v) ∉ added) /\
  batch_lock (snd (reset music_libs w)) = batch_lock w /\
  batch_running (snd (reset music_libs w)) = batch_running w.
Proof.
  split; [|exact (keeps_gate_reset music_libs w)].
  destruct (sends_reset music_libs w) as (added & E & F).
  exists added. split; [exact E|]. split; [exact F|].
  intros name v Hin. rewrite Forall_forall in F.
  destruct (F _ Hin) as (lib & t & _ & _ & _ & Hc). discriminate Hc.
Qed.

(** X19.  Every track handed to [rate_tracks] is accounted for once: it is
    counted as rated, updated or skipped, or an error line bears its
    failure; and every [rate] call made is behind a count of rated or
    updated or behind an error line. *)
Theorem rate_tracks_accounting (cfg : config) (tracks : list track)
    (w : world) :
  Forall track_ok tracks ->
  exists c added sent,
    rate_tracks cfg tracks w
    = (inr c, set_log_calls w (log w ++ added) (calls w ++ sent))
    /\ (rated c + updated c + skipped c + count_if is_track_error added
        = length tracks)%nat
    /\ (length sent
        = rated c + updated c + count_if is_track_error added)%nat
    /\ (length added = length sent)%nat.
Proof.
  intros Hok.
  destruct (rate_tracks_spec cfg tracks w Hok)
    as (added & E & Ha & He & Hl).
  eexists _, added, _. split; [exact E|]. cbn [rated updated skipped].
  pose proof (decisions_partition (target cfg) (OVERRIDE_RATING cfg) tracks)
    as Hp.
  pose proof (attempted_split (target cfg) (OVERRIDE_RATING cfg) tracks)
    as Hs.
  assert (Hsent : length (track_calls (target cfg) (OVERRIDE_RATING cfg)
                            tracks)
                  = count_if (attempted (target cfg) (OVERRIDE_RATING cfg))
                      tracks).
  { unfold track_calls, count_if. apply length_fmap. }
  rewrite Hsent, Hl, Ha, He. repeat split; lia.
Qed.

Lemma rate_tracks_accounting_witness :
  Forall track_ok [flaky "D" None; healthy "E" None; healthy "B" (Some 10)] /\
  exists c added sent,
    rate_tracks five_stars
      [flaky "D" None; healthy "E" None; healthy "B" (Some 10)] world0
    = (inr c, set_log_calls world0 (log world0 ++ added)
                (calls world0 ++ sent))
    /\ (rated c + updated c + skipped c + count_if is_track_error added
        = 3)%nat.
Proof.
  assert (H : Forall track_ok
                [flaky "D" None; healthy "E" None; healthy "B" (Some 10)]).
  { repeat apply Forall_cons_2; try apply Forall_nil_2;
      first [apply track_ok_flaky|apply track_ok_healthy]. }
  split; [exact H|].
  destruct (rate_tracks_accounting five_stars
              [flaky "D" None; healthy "E" None; healthy "B" (Some 10)]
              world0 H) as (c & added & sent & E & Hn & _).
  exists c, added, sent. split; [exact E|exact Hn].
Defined.

End TrafficFacts.

(** ** Subscribers and the rating scale *)

Section SubscriberFacts.
Import EventLog Subscribers.

Lemma run_cons (o : op) (ops : list op) (s : state * list (nat * string)) :
  run (o :: ops) s = run ops (run_op o s).
Proof. reflexivity. Qed.

Lemma appended_lines_cons (o : op) (ops : list op) :
  appended_lines (o :: ops)
  = match o with
    | Append ts text => [format_line ts text]
    | _ => []
    end ++ appended_lines ops.
Proof. destruct o; reflexivity. Qed.

Lemma run_op_listeners (o : op) (s : state * list (nat * string)) :
  length (listeners (fst (run_op o s)))
  = (length (listeners (fst s)) + Sweep.count_if is_subscribe [o])%nat.
Proof.
  destruct o as [ts text| |h']; simpl.
  - rewrite length_fmap. unfold Sweep.count_if. simpl. lia.
  - rewrite length_app. reflexivity.
  - unfold event_stream_turn.
    destruct (listeners (fst s) !! h') as [[|line rest]|]; simpl;
      rewrite ?length_insert; unfold Sweep.count_if; simpl; lia.
Qed.

Lemma run_op_queue (o : op) (s : state * list (nat * string)) (h : nat) :
  (h < length (listeners (fst s)))%nat -> o <> Turn h ->
  queue h (fst (run_op o s))
  = queue h (fst s)
      ++ match o with
         | Append ts text => [format_line ts text]
         | _ => []
         end.
Proof.
  intros Hh Ho. unfold queue.
  destruct (lookup_lt_is_Some_2 _ _ Hh) as [q Hq].
  destruct o as [ts text| |h']; simpl.
  - rewrite list_lookup_fmap, Hq. reflexivity.
  - rewrite lookup_app_l by exact Hh. rewrite app_nil_r. reflexivity.
  - rewrite app_nil_r. unfold event_stream_turn.
    destruct (listeners (fst s) !! h') as [[|line rest]|]; simpl;
      try reflexivity.
    rewrite list_lookup_insert_ne by congruence. reflexivity.
Qed.

Lemma run_op_ring (o : op) (s : state * list (nat * string)) :
  (length (rating_log (fst s)) <= 500)%nat ->
  (length (rating_log (fst (run_op o s))) <= 500)%nat.
Proof.
  intros Hlen. destruct o as [ts text| |h']; simpl; try exact Hlen.
  - rewrite ring_step by exact Hlen. apply last_n_length.
  - unfold event_stream_turn.
    destruct (listeners (fst s) !! h') as [[|line rest]|]; exact Hlen.
Qed.

(** X20.  The log page is bounded, the queues are not.  Through any run of
    appends, registrations and turns the ring stays within 500 lines; no
    queue is ever taken out of [listeners], which grows by one with each
    call of [stream]; and the queue of a subscriber that takes no turn
    holds every line appended since, so that it grows by one line with
    each append, without bound. *)
Theorem queues_never_dropped (ops : list op)
    (s : state * list (nat * string)) (h : nat) :
  (length (rating_log (fst s)) <= 500)%nat ->
  (h < length (listeners (fst s)))%nat ->
  silent h ops ->
  (length (rating_log (fst (run ops s))) <= 500)%nat /\
  length (listeners (fst (run ops s)))
  = (length (listeners (fst s)) + Sweep.count_if is_subscribe ops)%nat /\
  queue h (fst (run ops s)) = queue h (fst s) ++ appended_lines ops /\
  length (queue h (fst (run ops s)))
  = (length (queue h (fst s)) + length (appended_lines ops))%nat.
Proof.
  revert s. induction ops as [|o ops IH]; intros s Hring Hh Hsilent.
  - simpl. rewrite app_nil_r, count_if_nil. repeat split; auto; lia.
  - rewrite run_cons.
    pose proof (Forall_inv Hsilent) as Ho.
    pose proof (Forall_inv_tail Hsilent) as Hrest.
    pose proof (run_op_listeners o s) as Hl.
    destruct (IH (run_op o s) (run_op_ring o s Hring)
                ltac:(rewrite Hl; lia) Hrest) as (H1 & H2 & H3 & H4).
    split; [exact H1|]. split.
    + rewrite H2, Hl.
      change (o :: ops) with ([o] ++ ops).
      unfold Sweep.count_if. rewrite filter_app, length_app. lia.
    + rewrite H3, (run_op_queue o s h Hh Ho), appended_lines_cons.
      rewrite <- app_assoc. split; [reflexivity|].
      rewrite !length_app. lia.
Qed.

Lemma queues_never_dropped_witness :
  (length (rating_log (fst one_subscriber)) <= 500)%nat /\
  silent 0 [Append "t1" "a"; Subscribe; Append "t2" "b"; Turn 1] /\
  queue 0 (fst (run [Append "t1" "a"; Subscribe; Append "t2" "b"; Turn 1]
                  one_subscriber))
  = ["t1 - a"; "t2 - b"].
Proof.
  assert (H1 : (length (rating_log (fst one_subscriber))
                <= 500)%nat) by (simpl; lia).
  assert (H2 : (0 < length (listeners (fst one_subscriber)))%nat)
    by (simpl; lia).
  assert (H3 : silent 0 [Append "t1" "a"; Subscribe; Append "t2" "b"; Turn 1]).
  { repeat apply Forall_cons_2; try apply Forall_nil_2; discriminate. }
  split; [exact H1|]. split; [exact H3|].
  destruct (queues_never_dropped
              [Append "t1" "a"; Subscribe; Append "t2" "b"; Turn 1]
              one_subscriber 0 H1 H2 H3) as (_ & _ & Hq & _).
  rewrite Hq. reflexivity.
Defined.

End SubscriberFacts.

Section ScaleFacts.
Import Py RatingEngine.

(** X21.  A higher target value never gives a lower rating, under any
    style, among the floats and among the [int]s that have a float; an
    [int] beyond the floats makes the division raise, and the result is
    the fallback 6 - below what the value 5 gives.  A style that is not
    ['1star'] - one of the five-star styles, but also [None] or any other
    text - is treated as ['5stars']. *)
Theorem convert_to_plex_rating_monotone (style : pyval) :
  (forall q1 q2 : Q,
      q1 <= q2 ->
      convert_to_plex_rating style (PNum q1)
      <= convert_to_plex_rating style (PNum q2)) /\
  (forall n1 n2 : Z,
      (n1 <= n2)%Z -> too_large n1 = false -> too_large n2 = false ->
      convert_to_plex_rating style (PInt n1)
      <= convert_to_plex_rating style (PInt n2)) /\
  (eq_str style "1star" = false ->
   forall n : Z,
     too_large n = true ->
     convert_to_plex_rating style (PInt n) = 6
     /\ convert_to_plex_rating style (PInt n)
        < convert_to_plex_rating style (PInt 5)) /\
  (eq_str style "1star" = false ->
   forall value : pyval,
     convert_to_plex_rating style value
     = convert_to_plex_rating (PStr "5stars") value).
Proof.
  assert (E : forall q, py_max 2 (py_min 10 (q / 5 * 10))
                        == Qmax 2 (Qmin 10 (2 * q))).
  { intros q. rewrite py_max_Qmax, py_min_Qmin.
    assert (Eq : q / 5 * 10 == 2 * q) by field. rewrite Eq. reflexivity. }
  assert (M : forall a b, a <= b ->
                py_max 2 (py_min 10 (a / 5 * 10))
                <= py_max 2 (py_min 10 (b / 5 * 10))).
  { intros a b Hab. rewrite !E.
    apply Q.max_le_compat_l, Q.min_le_compat_l. lra. }
  assert (O : forall a b, a <= b ->
                (if Qle_bool 1 a then 10 else 0)
                <= (if Qle_bool 1 b then 10 else 0)).
  { intros a b Hab.
    destruct (Qle_bool 1 a) eqn:H1, (Qle_bool 1 b) eqn:H2; try lra.
    apply Qle_bool_iff in H1.
    assert (H : Qle_bool 1 b = true) by (apply Qle_bool_iff; lra).
    congruence. }
  unfold convert_to_plex_rating, convert_body, div_num.
  destruct (eq_str style "1star"); simpl.
  - split; [intros q1 q2 Hle; apply O, Hle|].
    split; [|split; discriminate].
    intros n1 n2 Hle _ _. apply O. rewrite <- Zle_Qle. exact Hle.
  - split; [intros q1 q2 Hle; apply M, Hle|].
    split; [|split].
    + intros n1 n2 Hle -> ->. simpl. apply M.
      rewrite <- Zle_Qle. exact Hle.
    + intros _ n ->. simpl. split; [reflexivity|]. vm_compute. reflexivity.
    + intros _ value. reflexivity.
Qed.

Lemma convert_to_plex_rating_monotone_witness :
  convert_to_plex_rating (PStr "5stars") (PNum 3)
  <= convert_to_plex_rating (PStr "5stars") (PNum 4) /\
  convert_to_plex_rating (PStr "5stars") (PInt 3)
  <= convert_to_plex_rating (PStr "5stars") (PInt 4) /\
  convert_to_plex_rating (PStr "5stars") (PInt (2 ^ 1024)) = 6 /\
  convert_to_plex_rating (PStr "5stars") (PInt 5) == 10.
Proof.
  destruct (convert_to_plex_rating_monotone (PStr "5stars"))
    as (Hq & Hn & Hbig & _).
  split; [apply Hq; lra|].
  split; [apply Hn; [lia|vm_compute; reflexivity|vm_compute; reflexivity]|].
  split; [apply (Hbig eq_refl); vm_compute; reflexivity|].
  vm_compute. reflexivity.
Defined.

End ScaleFacts.

(** ** Upkeep of the periodic loop *)

Section UpkeepFacts.
Import Sweep Scheduler Upkeep.
Local Open Scope Z_scope.









Lemma exec_app (overlap : bool) (l1 l2 : list label) (s : state) :
  exec overlap (l1 ++ l2) s
  = match exec overlap l1 s with
    | Some s1 => exec overlap l2 s1
    | None => None
    end.
Proof.
  revert s. induction l1 as [|l l1 IH]; intros s; simpl; [reflexivity|].
  destruct (step overlap l s); [apply IH|reflexivity].
Qed.

Lemma quiet_app (l1 l2 : list label) :
  quiet l1 = true -> quiet l2 = true -> quiet (l1 ++ l2) = true.
Proof.
  unfold quiet. rewrite forallb_app. intros -> ->. reflexivity.
Qed.

Lemma drains_now (t : nat) (s : state) : is_alive s t = false -> drains t s.
Proof.
  intros H. exists [], s. repeat split; auto.
Qed.

Lemma drains_after (t : nat) (l : label) (s s1 : state) :
  is_configure l = false -> step false l s = Some s1 ->
  callers s1 = callers s -> dispatches s1 = dispatches s ->
  drains t s1 -> drains t s.
Proof.
  intros Hl Hstep Hc Hd (ls & s' & Hq & He & Ha & Hc' & Hd').
  exists (l :: ls), s'. split; [simpl; rewrite Hl; exact Hq|].
  split; [simpl; rewrite Hstep; exact He|].
  split; [exact Ha|]. split; congruence.
Qed.

Lemma thread_over (t : nat) (s : state) :
  (t < length (threads s))%nat -> is_alive (set_thread t Exited s) t = false.
Proof.
  intros Hlt. unfold is_alive. simpl.
  rewrite list_lookup_insert_eq by exact Hlt. reflexivity.
Qed.

(** With the event set, a loop that is alive ends by itself, without a
    sweep: at the test of line 284 or at that of line 290, after the
    sleep it is in or goes into. *)
Lemma drains_woken (t : nat) (secs : Z) (s : state) :
  threads s !! t = Some (Woken secs) -> batch_thread_stop_event s = true ->
  drains t s.
Proof.
  intros Ht He. assert (Hlt := lookup_lt_Some _ _ _ Ht).
  apply (drains_after t (Loop t) s (set_thread t Exited s));
    [reflexivity| |reflexivity|reflexivity|].
  - simpl. unfold loop_step. rewrite Ht, He. reflexivity.
  - apply drains_now, thread_over, Hlt.
Qed.

Lemma drains_sleeping (t : nat) (secs wake_at : Z) (s : state) :
  threads s !! t = Some (Sleeping secs wake_at) ->
  batch_thread_stop_event s = true -> drains t s.
Proof.
  intros Ht He. assert (Hlt := lookup_lt_Some _ _ _ Ht).
  set (dt := Z.max 0 (wake_at - now s)).
  set (s1 := {| now := now s + dt;
                BATCH_INTERVAL_MINUTES := BATCH_INTERVAL_MINUTES s;
                batch_thread := batch_thread s;
                batch_thread_stop_event := batch_thread_stop_event s;
                threads := threads s; callers := callers s;
                dispatches := dispatches s; log := log s |}).
  apply (drains_after t (Tick dt) s s1);
    [reflexivity| |reflexivity|reflexivity|].
  { simpl. unfold tick. destruct (dt <? 0) eqn:Hneg; [|reflexivity].
    apply Z.ltb_lt in Hneg. unfold dt in Hneg. lia. }
  apply (drains_after t (Loop t) s1 (set_thread t (Woken secs) s1));
    [reflexivity| |reflexivity|reflexivity|].
  { simpl. unfold loop_step. change (threads s1) with (threads s).
    rewrite Ht. destruct (now s1 <? wake_at) eqn:Hearly; [|reflexivity].
    apply Z.ltb_lt in Hearly. simpl in Hearly. unfold dt in Hearly. lia. }
  apply (drains_woken t secs); [|exact He].
  simpl. apply list_lookup_insert_eq. exact Hlt.
Qed.

Lemma drains_at_sleep (t : nat) (s : state) :
  threads s !! t = Some AtSleep -> batch_thread_stop_event s = true ->
  drains t s.
Proof.
  intros Ht He. assert (Hlt := lookup_lt_Some _ _ _ Ht).
  destruct (loop_step t s) as [s1|] eqn:Hstep.
  2:{ unfold loop_step in Hstep. rewrite Ht in Hstep. cbv zeta in Hstep.
      destruct (_ <? 0); [discriminate|].
      destruct (sleep_limit <? _); discriminate. }
  apply (drains_after t (Loop t) s s1); [reflexivity|exact Hstep| | |].
  - destruct (loop_step_shape t s s1 Hstep) as (_ & _ & _ & _ & _ & H & _).
    exact H.
  - unfold loop_step in Hstep. rewrite Ht in Hstep. cbv zeta in Hstep.
    destruct (_ <? 0); [injection Hstep as <-; reflexivity|].
    destruct (sleep_limit <? _); injection Hstep as <-; reflexivity.
  - unfold loop_step in Hstep. rewrite Ht in Hstep. cbv zeta in Hstep.
    destruct (_ <? 0);
      [injection Hstep as <-; apply drains_now, thread_over, Hlt|].
    destruct (sleep_limit <? _);
      [injection Hstep as <-; apply drains_now, thread_over, Hlt|].
    injection Hstep as <-.
    apply (drains_sleeping t (BATCH_INTERVAL_MINUTES s * 60)
             (now s + BATCH_INTERVAL_MINUTES s * 60)); [|exact He].
    simpl. apply list_lookup_insert_eq. exact Hlt.
Qed.

Lemma drains_at_zero (t : nat) (s : state) :
  threads s !! t = Some AtZero -> batch_thread_stop_event s = true ->
  drains t s.
Proof.
  intros Ht He. assert (Hlt := lookup_lt_Some _ _ _ Ht).
  destruct (BATCH_INTERVAL_MINUTES s =? 0) eqn:H0.
  - apply (drains_after t (Loop t) s
             (set_thread t Exited (add_log LDisabled s)));
      [reflexivity| |reflexivity|reflexivity|].
    + simpl. unfold loop_step. rewrite Ht, H0. reflexivity.
    + apply drains_now. apply (thread_over t (add_log LDisabled s)).
      exact Hlt.
  - apply (drains_after t (Loop t) s (set_thread t AtSleep s));
      [reflexivity| |reflexivity|reflexivity|].
    + simpl. unfold loop_step. rewrite Ht, H0. reflexivity.
    + apply drains_at_sleep; [|exact He].
      simpl. apply list_lookup_insert_eq. exact Hlt.
Qed.

Lemma drains_at_while (t : nat) (s : state) :
  threads s !! t = Some AtWhile -> batch_thread_stop_event s = true ->
  drains t s.
Proof.
  intros Ht He. assert (Hlt := lookup_lt_Some _ _ _ Ht).
  apply (drains_after t (Loop t) s (set_thread t Exited s));
    [reflexivity| |reflexivity|reflexivity|].
  - simpl. unfold loop_step. rewrite Ht, He. reflexivity.
  - apply drains_now, thread_over, Hlt.
Qed.

Lemma loop_drains (s : state) (t : nat) (p : loop_pc) :
  threads s !! t = Some p -> batch_thread_stop_event s = true ->
  drains t s.
Proof.
  intros Ht He. assert (Hlt := lookup_lt_Some _ _ _ Ht).
  destruct p.
  - apply (drains_after t (Loop t) s
             (set_thread t AtWhile
                (add_log (LLoopStarted (BATCH_INTERVAL_MINUTES s)) s)));
      [reflexivity| |reflexivity|reflexivity|].
    + simpl. unfold loop_step. rewrite Ht. reflexivity.
    + apply drains_at_while; [|exact He].
      simpl. apply list_lookup_insert_eq. exact Hlt.
  - exact (drains_at_while t s Ht He).
  - exact (drains_at_zero t s Ht He).
  - exact (drains_at_sleep t s Ht He).
  - exact (drains_sleeping t secs wake_at s Ht He).
  - exact (drains_woken t secs s Ht He).
  - apply (drains_after t (Loop t) s
             (set_thread t AtWhile (add_log LTriggerFinished s)));
      [reflexivity| |reflexivity|reflexivity|].
    + simpl. unfold loop_step. rewrite Ht. reflexivity.
    + apply drains_at_while; [|exact He].
      simpl. apply list_lookup_insert_eq. exact Hlt.
  - apply drains_now. unfold is_alive. rewrite Ht. reflexivity.
Qed.

Lemma completes_after (l : label) (s s1 : state) :
  is_configure l = false -> step false l s = Some s1 ->
  dispatches s1 = dispatches s ->
  completes s1 -> completes s.
Proof.
  intros Hl Hstep Hd (ls & s' & Hq & He & Hi & Hd').
  exists (l :: ls), s'. split; [simpl; rewrite Hl; exact Hq|].
  split; [simpl; rewrite Hstep; exact He|].
  split; [exact Hi|congruence].
Qed.

(** The one caller at work becoming [Done] leaves none at work. *)
Lemma idle_after_done (s s' : state) (j : nat) (p : caller_pc) :
  inv s -> callers s !! j = Some p -> busy p = true ->
  callers s' = <[j := Done]> (callers s) -> idle s' = true.
Proof.
  intros Hinv Hj Hp Hc. unfold idle. rewrite Hc.
  apply forallb_forall. intros q Hq. apply list_elem_of_In in Hq.
  apply list_elem_of_lookup_1 in Hq as [j' Hj'].
  destruct (busy q) eqn:Hb; [|reflexivity].
  destruct (other_callers_done s j j' p Done q Hinv Hj Hp Hj' Hb) as [_ ->].
  discriminate Hb.
Qed.

Lemma completes_done (s s1 : state) (j : nat) (p : caller_pc) :
  inv s -> callers s !! j = Some p -> busy p = true ->
  start_step j s = Some s1 -> callers s1 = <[j := Done]> (callers s) ->
  dispatches s1 = dispatches s -> completes s.
Proof.
  intros Hinv Hj Hp Hstep Hc Hd.
  apply (completes_after (Start j) s s1); [reflexivity|exact Hstep|exact Hd|].
  exists [], s1. repeat split.
  exact (idle_after_done s s1 j p Hinv Hj Hp Hc).
Qed.

(** A call that moves on to [p'] completes when calls at [p'] do. *)
Lemma completes_next (s : state) (j : nat) (p' : caller_pc) (s1 : state) :
  inv s -> start_step j s = Some s1 ->
  callers s1 !! j = Some p' ->
  (forall s0, inv s0 -> callers s0 !! j = Some p' -> completes s0) ->
  completes s.
Proof.
  intros Hinv Hstep Hj1 Hnext.
  apply (completes_after (Start j) s s1); [reflexivity|exact Hstep| |].
  - destruct (start_step_shape j s s1 Hstep)
      as (_ & _ & _ & _ & _ & _ & _ & Hd & _). exact Hd.
  - apply Hnext; [exact (inv_step (Start j) s s1 Hinv Hstep)|exact Hj1].
Qed.

Lemma at_log_completes (j : nat) (s : state) :
  inv s -> callers s !! j = Some AtLog -> completes s.
Proof.
  intros Hinv Hj.
  apply (completes_done s
           (set_caller j Done
              (add_log (LBatchThreadStarted (BATCH_INTERVAL_MINUTES s)) s))
           j AtLog Hinv Hj eq_refl);
    [unfold start_step; rewrite Hj; reflexivity|reflexivity|reflexivity].
Qed.

Lemma at_spawn_completes (j : nat) (s : state) :
  inv s -> callers s !! j = Some AtSpawn -> completes s.
Proof.
  intros Hinv Hj. assert (Hlt := lookup_lt_Some _ _ _ Hj).
  apply (completes_next s j AtLog (set_caller j AtLog (spawn s)) Hinv).
  - unfold start_step. rewrite Hj. reflexivity.
  - simpl. apply list_lookup_insert_eq. exact Hlt.
  - intros s0. apply at_log_completes.
Qed.

Lemma at_test_completes (j : nat) (s : state) :
  inv s -> callers s !! j = Some AtTest -> completes s.
Proof.
  intros Hinv Hj. assert (Hlt := lookup_lt_Some _ _ _ Hj).
  destruct (BATCH_INTERVAL_MINUTES s >? 0) eqn:Hpos.
  - apply (completes_next s j AtSpawn (set_caller j AtSpawn s) Hinv).
    + unfold start_step. rewrite Hj, Hpos. reflexivity.
    + simpl. apply list_lookup_insert_eq. exact Hlt.
    + intros s0. apply at_spawn_completes.
  - apply (completes_done s
             (set_caller j Done (add_log LBatchThreadNotStarted s))
             j AtTest Hinv Hj eq_refl);
      [unfold start_step; rewrite Hj, Hpos; reflexivity
      |reflexivity|reflexivity].
Qed.

Lemma at_clear_completes (j : nat) (s : state) :
  inv s -> callers s !! j = Some AtClear -> completes s.
Proof.
  intros Hinv Hj. assert (Hlt := lookup_lt_Some _ _ _ Hj).
  apply (completes_next s j AtTest
           (set_caller j AtTest (set_stop_event false s)) Hinv).
  - unfold start_step. rewrite Hj. reflexivity.
  - simpl. apply list_lookup_insert_eq. exact Hlt.
  - intros s0. apply at_test_completes.
Qed.

Lemma joining_completes (j t : nat) (s : state) :
  inv s -> callers s !! j = Some (Joining t) -> completes s.
Proof.
  intros Hinv Hj. destruct (inv_pc s Hinv j _ Hj) as [_ He].
  assert (Hd : drains t s).
  { destruct (threads s !! t) as [p|] eqn:Ht.
    - exact (loop_drains s t p Ht He).
    - apply drains_now. unfold is_alive. rewrite Ht. reflexivity. }
  destruct Hd as (l1 & s1 & Hq1 & He1 & Hdead & Hc1 & Hd1).
  pose proof (inv_exec l1 s s1 Hinv He1) as Hinv1.
  assert (Hj1 : callers s1 !! j = Some (Joining t)) by (rewrite Hc1; exact Hj).
  assert (Hlt := lookup_lt_Some _ _ _ Hj1).
  assert (H1 : completes s1).
  { apply (completes_next s1 j AtClear (set_caller j AtClear s1) Hinv1).
    - unfold start_step. rewrite Hj1, Hdead. reflexivity.
    - simpl. apply list_lookup_insert_eq. exact Hlt.
    - intros s0. apply at_clear_completes. }
  destruct H1 as (l2 & s2 & Hq2 & He2 & Hidle & Hd2).
  exists (l1 ++ l2), s2. split; [apply quiet_app; assumption|].
  split; [rewrite exec_app, He1; exact He2|].
  split; [exact Hidle|congruence].
Qed.

Lemma at_join_completes (j : nat) (s : state) :
  inv s -> callers s !! j = Some AtJoin -> completes s.
Proof.
  intros Hinv Hj. assert (Hlt := lookup_lt_Some _ _ _ Hj).
  destruct (inv_pc s Hinv j _ Hj) as [[t Hb] _].
  apply (completes_next s j (Joining t) (set_caller j (Joining t) s) Hinv).
  - unfold start_step. rewrite Hj, Hb. reflexivity.
  - simpl. apply list_lookup_insert_eq. exact Hlt.
  - intros s0. apply joining_completes.
Qed.

Lemma at_set_completes (j : nat) (s : state) :
  inv s -> callers s !! j = Some AtSet -> completes s.
Proof.
  intros Hinv Hj. assert (Hlt := lookup_lt_Some _ _ _ Hj).
  apply (completes_next s j AtJoin
           (set_caller j AtJoin (set_stop_event true s)) Hinv).
  - unfold start_step. rewrite Hj. reflexivity.
  - simpl. apply list_lookup_insert_eq. exact Hlt.
  - intros s0. apply at_join_completes.
Qed.

Lemma at_start_completes (j : nat) (s : state) :
  inv s -> callers s !! j = Some AtStart -> completes s.
Proof.
  intros Hinv Hj. assert (Hlt := lookup_lt_Some _ _ _ Hj).
  destruct (start_step j s) as [s1|] eqn:Hstep.
  2:{ unfold start_step in Hstep. rewrite Hj in Hstep.
      destruct (batch_thread s) as [t|]; [|discriminate].
      destruct (is_alive s t); discriminate. }
  destruct (start_step_cases j s s1 Hstep) as (p & Hp & Hcase).
  rewrite Hj in Hp. injection Hp as <-.
  destruct Hcase as [(t & _ & _ & Hs1)|[_ Hs1]].
  - apply (completes_next s j AtSet s1 Hinv Hstep).
    + rewrite Hs1. simpl. apply list_lookup_insert_eq. exact Hlt.
    + intros s0. apply at_set_completes.
  - apply (completes_next s j AtClear s1 Hinv Hstep).
    + rewrite Hs1. simpl. apply list_lookup_insert_eq. exact Hlt.
    + intros s0. apply at_clear_completes.
Qed.

(** X23.  A call of [start_batch_thread] can always get through.  From
    every state the scheduler reaches when calls do not overlap, the
    threads can move on, with no further request and without starting a
    sweep, to a state where no call is under way: the loop being replaced
    ends once the sweep or the sleep it is in is over, and the call goes
    on from its [join]. *)
Theorem start_batch_thread_completes (interval : Z) (ls : list label)
    (s : state) :
  exec false ls (init interval) = Some s ->
  exists ls' s',
    forallb (fun l => negb (is_configure l)) ls' = true
    /\ exec false ls' s = Some s'
    /\ idle s' = true
    /\ dispatches s' = dispatches s.
Proof.
  intros Hexec.
  pose proof (inv_exec ls _ s (inv_init interval) Hexec) as Hinv.
  change (completes s).
  destruct (idle s) eqn:Hidle.
  { exists [], s. repeat split. exact Hidle. }
  destruct (not_idle_busy s Hidle) as (j & p & Hj & Hp).
  destruct p; try discriminate.
  - exact (at_start_completes j s Hinv Hj).
  - exact (at_set_completes j s Hinv Hj).
  - exact (at_join_completes j s Hinv Hj).
  - exact (joining_completes j t s Hinv Hj).
  - exact (at_clear_completes j s Hinv Hj).
  - exact (at_test_completes j s Hinv Hj).
  - exact (at_spawn_completes j s Hinv Hj).
  - exact (at_log_completes j s Hinv Hj).
Qed.

End UpkeepFacts.

Section UpkeepRuns.
Import Sweep Scheduler Upkeep.
Local Open Scope Z_scope.


Lemma start_batch_thread_completes_witness :
  exec false stop_request (init 60) = Some asked_to_stop /\
  idle asked_to_stop = false /\
  exists ls' s',
    exec false ls' asked_to_stop = Some s' /\ idle s' = true
    /\ dispatches s' = [].
Proof.
  assert (H : exec false stop_request (init 60) = Some asked_to_stop)
    by (vm_compute; reflexivity).
  split; [exact H|]. split; [reflexivity|].
  destruct (start_batch_thread_completes 60 stop_request asked_to_stop H)
    as (ls' & s' & _ & Hexec & Hidle & Hd).
  exists ls', s'. split; [exact Hexec|]. split; [exact Hidle|exact Hd].
Defined.

End UpkeepRuns.
